(** * Redshift EXPLAIN visualizer: the plan engine of [src/App.js]

    A shallow embedding of the plan parser, the cost attributor, the graph
    emitter, the warning analyzer and the plan differ, together with the
    JavaScript built-ins they call (strings of UTF-16 code units, the regular
    expressions that occur in the file, IEEE-754 double arithmetic). *)

From Stdlib Require Import List ZArith NArith Bool Lia String Ascii Arith Sorted.
From Stdlib Require Import Floats.
Import ListNotations.

(* ================================================================= *)
(** ** JavaScript strings *)

Module JsString.

(** A JavaScript string is a sequence of UTF-16 code units. *)
Definition char16 := N.
Definition jsstring := list char16.

(** An ASCII literal as a JavaScript string. *)
Definition js (s : string) : jsstring :=
  map N_of_ascii (list_ascii_of_string s).
Arguments js s%_string.

Definition str_eqb (a b : jsstring) : bool :=
  if list_eq_dec N.eq_dec a b then true else false.

(** WhiteSpace and LineTerminator code units: what [String.prototype.trim]
    strips and what [\s] matches. *)
Definition is_space (c : char16) : bool :=
  ((9 <=? c) && (c <=? 13) || (c =? 32) || (c =? 160) || (c =? 5760)
   || (8192 <=? c) && (c <=? 8202) || (c =? 8232) || (c =? 8233)
   || (c =? 8239) || (c =? 8287) || (c =? 12288) || (c =? 65279))%N.

Definition is_digit (c : char16) : bool := ((48 <=? c) && (c <=? 57))%N.

(** [.] without the [s] flag: any code unit but a line terminator. *)
Definition is_line_terminator (c : char16) : bool :=
  ((c =? 10) || (c =? 13) || (c =? 8232) || (c =? 8233))%N.

Fixpoint trimStart (s : jsstring) : jsstring :=
  match s with
  | c :: s' => if is_space c then trimStart s' else s
  | [] => []
  end.

Definition trimEnd (s : jsstring) : jsstring := rev (trimStart (rev s)).

Definition trim (s : jsstring) : jsstring := trimEnd (trimStart s).

(** [text.split('\n')]: always at least one piece. *)
Fixpoint split_newline (s : jsstring) : list jsstring :=
  match s with
  | [] => [[]]
  | c :: s' =>
      if (c =? 10)%N then [] :: split_newline s'
      else match split_newline s' with
           | l :: ls => (c :: l) :: ls
           | [] => [[c]]
           end
  end.

(** [line.search(/\S|$/)]: the index of the first code unit that is not
    white space, or the length of the line when there is none ([$] matches
    at the end, so the search never fails). *)
Fixpoint search_nonspace_or_end (s : jsstring) : nat :=
  match s with
  | c :: s' => if is_space c then S (search_nonspace_or_end s') else 0
  | [] => 0
  end.

Fixpoint startsWith (s p : jsstring) : bool :=
  match p, s with
  | [], _ => true
  | a :: p', c :: s' => (a =? c)%N && startsWith s' p'
  | _ :: _, [] => false
  end.

Fixpoint includes (s p : jsstring) : bool :=
  startsWith s p ||
  match s with
  | [] => false
  | _ :: s' => includes s' p
  end.

(** [parts.join(sep)]. *)
Fixpoint join (sep : jsstring) (parts : list jsstring) : jsstring :=
  match parts with
  | [] => []
  | [p] => p
  | p :: ps => p ++ sep ++ join sep ps
  end.

(** Decimal digits of a natural number, as [String(n)] prints it. *)
Fixpoint digits_fuel (fuel : nat) (n : N) (acc : jsstring) : jsstring :=
  match fuel with
  | O => acc
  | S fuel' =>
      let acc' := (48 + n mod 10)%N :: acc in
      if (n <? 10)%N then acc' else digits_fuel fuel' (n / 10)%N acc'
  end.

Definition decimal (n : N) : jsstring :=
  digits_fuel (S (N.to_nat (N.log2 n))) n [].

End JsString.
Export JsString.

(* ================================================================= *)
(** ** The regular expressions of the file *)

Module JsRegex.

(** Every pattern in [App.js] is a sequence of single-character atoms and
    greedy repetitions of a single-character atom, some of them wrapped in
    a capture group. *)
Inductive item :=
| One (p : char16 -> bool)
| Greedy (min : nat) (p : char16 -> bool) (capture : bool).

Definition regex := list item.

Definition lit (c : char16) : char16 -> bool := fun x => (x =? c)%N.
Definition any_char : char16 -> bool := fun x => negb (is_line_terminator x).
Definition digit_or_dot : char16 -> bool := fun x => is_digit x || (x =? 46)%N.

Definition lits (s : string) : regex := map (fun c => One (lit c)) (js s).
Arguments lits s%_string.

Fixpoint run_length (p : char16 -> bool) (s : jsstring) : nat :=
  match s with
  | c :: s' => if p c then S (run_length p s') else 0
  | [] => 0
  end.

(** A backtracking match at the head of [s]: the rest of the subject after
    the match and the captured groups, or failure.  A greedy repetition
    first takes the longest run and gives code units back one at a time. *)
Fixpoint match_here (r : regex) (s : jsstring)
  : option (jsstring * list jsstring) :=
  match r with
  | [] => Some (s, [])
  | One p :: r' =>
      match s with
      | c :: s' => if p c then match_here r' s' else None
      | [] => None
      end
  | Greedy min p cap :: r' =>
      (fix give_back (k : nat) : option (jsstring * list jsstring) :=
         if k <? min then None
         else match match_here r' (skipn k s) with
              | Some (rest, caps) =>
                  Some (rest, if cap then firstn k s :: caps else caps)
              | None =>
                  match k with
                  | O => None
                  | S k' => give_back k'
                  end
              end) (run_length p s)
  end.

(** [s.match(r)] for a pattern without flags: the leftmost match.  Returns
    the index of the match and the captured groups. *)
Fixpoint exec_from (r : regex) (i : nat) (s : jsstring)
  : option (nat * list jsstring) :=
  match match_here r s with
  | Some (_, caps) => Some (i, caps)
  | None =>
      match s with
      | [] => None
      | _ :: s' => exec_from r (S i) s'
      end
  end.

Definition exec (r : regex) (s : jsstring) : option (nat * list jsstring) :=
  exec_from r 0 s.

(** The [n]-th capture group, [m[n]] with [n >= 1]. *)
Definition group (caps : list jsstring) (n : nat) : jsstring :=
  nth (n - 1) caps [].

(** [s.replace(/^r/, by)]: the pattern is anchored at the start. *)
Definition replace_anchored (r : regex) (by_ : jsstring) (s : jsstring)
  : jsstring :=
  match match_here r s with
  | Some (rest, _) => by_ ++ rest
  | None => s
  end.

(** [s.replace(/r/g, by)]: every match, left to right, without overlap.
    [skip] counts the code units of the current match still to drop. *)
Fixpoint replace_all_from (r : regex) (by_ : jsstring) (skip : nat)
  (s : jsstring) : jsstring :=
  match s with
  | [] =>
      match skip, match_here r [] with
      | O, Some _ => by_
      | _, _ => []
      end
  | c :: s' =>
      match skip with
      | S skip' => replace_all_from r by_ skip' s'
      | O =>
          match match_here r s with
          | Some (rest, _) =>
              match List.length s - List.length rest with
              | O => by_ ++ c :: replace_all_from r by_ 0 s'
              | S len' => by_ ++ replace_all_from r by_ len' s'
              end
          | None => c :: replace_all_from r by_ 0 s'
          end
      end
  end.

Definition replace_all (r : regex) (by_ : jsstring) (s : jsstring) : jsstring :=
  replace_all_from r by_ 0 s.

End JsRegex.
Export JsRegex.

(* ================================================================= *)
(** ** JavaScript numbers *)

Module JsNumber.
Local Open Scope Z_scope.

(** A Number is an IEEE-754 binary64 value.  Every finite double is an
    integer multiple of 2^-1074, the least subnormal: [Fin k] stands for
    k * 2^-1074.  The doubles are the [k] with at most 53 significant bits
    below 2^2098 ([representable], below).  Negative zero is not
    distinguished from zero: the program never produces it (it only
    subtracts from parsed, unsigned values and adds to zero), and no
    operation it applies tells the two apart. *)
Inductive num :=
| NaN
| Inf (negative : bool)
| Fin (k : Z).

(** The number 1 in units of 2^-1074. *)
Definition unit : Z := 2 ^ 1074.

(** Exponent of the spacing of the doubles around [q >= 0] units: spacing 1
    below 2^53 units (subnormals and the first binade), doubling with each
    binade above. *)
Definition ulp_exp (q : Z) : Z := Z.max 0 (Z.log2 q - 52).

(** [n / d] units ([0 <= n], [0 < d]) rounded to the nearest double, ties to
    the even significand, overflowing to Infinity. *)
Definition round_pos (n d : Z) : num :=
  let b := ulp_exp (n / d) in
  let u := d * 2 ^ b in
  let c := n / u in
  let r := n mod u in
  let c' := match 2 * r ?= u with
            | Lt => c
            | Gt => c + 1
            | Eq => if Z.even c then c else c + 1
            end in
  let k := c' * 2 ^ b in
  if k <? 2 ^ 2098 then Fin k else Inf false.

Definition num_neg (x : num) : num :=
  match x with
  | NaN => NaN
  | Inf s => Inf (negb s)
  | Fin k => Fin (- k)
  end.

(** [n / d] units with [0 < d], either sign. *)
Definition round_ratio (n d : Z) : num :=
  if n <? 0 then num_neg (round_pos (- n) d) else round_pos n d.

(** The double nearest to the decimal [n / 10^f]. *)
Definition of_decimal (n : Z) (f : nat) : num :=
  round_ratio (n * unit) (10 ^ Z.of_nat f).

Definition of_Z (n : Z) : num := of_decimal n 0.

Definition zero : num := Fin 0.

Definition num_add (x y : num) : num :=
  match x, y with
  | NaN, _ | _, NaN => NaN
  | Inf a, Inf b => if Bool.eqb a b then Inf a else NaN
  | Inf a, Fin _ => Inf a
  | Fin _, Inf b => Inf b
  | Fin a, Fin b => round_ratio (a + b) 1
  end.

Definition num_sub (x y : num) : num := num_add x (num_neg y).

Definition num_mul (x y : num) : num :=
  match x, y with
  | NaN, _ | _, NaN => NaN
  | Inf a, Inf b => Inf (xorb a b)
  | Inf a, Fin k | Fin k, Inf a =>
      if k =? 0 then NaN else Inf (xorb a (k <? 0))
  | Fin a, Fin b => round_ratio (a * b) unit
  end.

Definition num_div (x y : num) : num :=
  match x, y with
  | NaN, _ | _, NaN => NaN
  | Inf _, Inf _ => NaN
  | Inf a, Fin k => Inf (xorb a (k <? 0))
  | Fin _, Inf _ => Fin 0
  | Fin a, Fin b =>
      if b =? 0 then (if a =? 0 then NaN else Inf (a <? 0))
      else if b <? 0 then round_ratio (- (a * unit)) (- b)
      else round_ratio (a * unit) b
  end.

(** [x < y]; false when either side is NaN. *)
Definition num_ltb (x y : num) : bool :=
  match x, y with
  | Fin a, Fin b => a <? b
  | Inf true, Fin _ | Inf true, Inf false | Fin _, Inf false => true
  | _, _ => false
  end.

(** [x <= y]; false when either side is NaN. *)
Definition num_leb (x y : num) : bool :=
  match x, y with
  | Fin a, Fin b => a <=? b
  | Inf true, Fin _ | Inf true, Inf _ | Fin _, Inf false
  | Inf false, Inf false => true
  | _, _ => false
  end.

Definition num_gtb (x y : num) : bool := num_ltb y x.
Definition num_geb (x y : num) : bool := num_leb y x.

(** [x === y] on numbers: NaN differs from itself. *)
Definition num_eqb (x y : num) : bool :=
  match x, y with
  | Fin a, Fin b => a =? b
  | Inf a, Inf b => Bool.eqb a b
  | _, _ => false
  end.

(** SameValueZero, the equality of [Set]: NaN is the same as NaN. *)
Definition same_value_zero (x y : num) : bool :=
  match x, y with
  | NaN, NaN => true
  | _, _ => num_eqb x y
  end.

(** ToBoolean on a number: zero and NaN are falsy. *)
Definition truthy (x : num) : bool :=
  match x with
  | NaN => false
  | Fin k => negb (k =? 0)
  | Inf _ => true
  end.

Definition is_nan (x : num) : bool :=
  match x with NaN => true | _ => false end.

Definition is_finite (x : num) : bool :=
  match x with Fin _ => true | _ => false end.

(** The doubles among the [Fin k]. *)
Definition representable (k : Z) : Prop :=
  Z.abs k < 2 ^ 2098 /\ Z.abs k mod 2 ^ ulp_exp (Z.abs k) = 0.

Definition valid (x : num) : Prop :=
  match x with
  | Fin k => representable k
  | _ => True
  end.

Fixpoint digits_value (acc : Z) (s : jsstring) : Z :=
  match s with
  | [] => acc
  | c :: s' => digits_value (10 * acc + (Z.of_N c - 48)) s'
  end.

(** [parseFloat] on the strings the program passes to it, the captures of
    [[\d.]+]: digits, an optional point and more digits; NaN when there is
    no digit in either place.  (Signs, exponents and leading white space
    cannot occur in such a capture.) *)
Definition parseFloat (s : jsstring) : num :=
  let int_part := firstn (run_length is_digit s) s in
  let frac_part :=
    match skipn (run_length is_digit s) s with
    | c :: rest => if (c =? 46)%N then firstn (run_length is_digit rest) rest
                   else []
    | [] => []
    end in
  match int_part, frac_part with
  | [], [] => NaN
  | _, _ => of_decimal (digits_value 0 (int_part ++ frac_part))
                       (List.length frac_part)
  end.

(** [parseInt] on a capture of [\d+]. *)
Definition parseInt (s : jsstring) : num :=
  match firstn (run_length is_digit s) s with
  | [] => NaN
  | ds => of_Z (digits_value 0 ds)
  end.

Definition zdecimal (n : Z) : jsstring := decimal (Z.to_N n).

(** Number::toString for a finite [x >= 10^21] (an integer [X], [a] units):
    the shortest digit string [s] of [k] digits with [s * 10^(n-k)] rounding
    to [x], the closest one to [x] among those, in exponent notation. *)
Definition rounds_to (v a : Z) : bool :=
  match round_ratio (v * unit) 1 with
  | Fin k => k =? a
  | _ => false
  end.

Fixpoint shortest_digits (fuel k : nat) (X a : Z) (D : nat) : Z * nat :=
  match fuel with
  | O => (X, D)
  | S fuel' =>
      let p := 10 ^ Z.of_nat (D - k) in
      let lo := X / p in
      let hi := lo + 1 in
      let ok_lo := rounds_to (lo * p) a in
      let ok_hi := rounds_to (hi * p) a in
      let hi_res := if hi =? 10 ^ Z.of_nat k then (1, S D) else (hi, D) in
      match ok_lo, ok_hi with
      | true, false => (lo, D)
      | false, true => hi_res
      | true, true =>
          match X - lo * p ?= hi * p - X with
          | Lt => (lo, D)
          | Gt => hi_res
          | Eq => if Z.even lo then (lo, D) else hi_res
          end
      | false, false => shortest_digits fuel' (S k) X a D
      end
  end.

Definition toString_large (a : Z) : jsstring :=
  let X := a / unit in
  let D := List.length (zdecimal X) in
  let '(s, n) := shortest_digits 17 1 X a D in
  let ds := zdecimal s in
  let mantissa := match ds with
                  | [d] => [d]
                  | d :: rest => d :: 46%N :: rest
                  | [] => []
                  end in
  (mantissa ++ js "e+" ++ decimal (N.of_nat (n - 1)))%list.

(** [x.toFixed(2)]: the integer nearest to [100 x], the larger one on a
    tie, printed with two decimals; Number::toString from 10^21 on and for
    NaN and the infinities. *)
Definition toFixed2 (x : num) : jsstring :=
  match x with
  | NaN => js "NaN"
  | Inf s => ((if s then js "-" else []) ++ js "Infinity")%list
  | Fin k =>
      let a := Z.abs k in
      let sign := if k <? 0 then js "-" else [] in
      if 10 ^ 21 * unit <=? a then (sign ++ toString_large a)%list
      else
        let n := (200 * a + unit) / (2 * unit) in
        let ds := zdecimal n in
        let padded := (repeat 48%N (3 - List.length ds) ++ ds)%list in
        let cut := (List.length padded - 2)%nat in
        (sign ++ firstn cut padded ++ 46%N :: skipn cut padded)%list
  end.

(** The same value in the kernel's description of binary64 numbers, to
    compare the operations above with the primitive floats. *)
Definition to_spec (x : num) : spec_float :=
  match x with
  | NaN => S754_nan
  | Inf s => S754_infinity s
  | Fin 0 => S754_zero false
  | Fin k =>
      let a := Z.abs k in
      let b := ulp_exp a in
      S754_finite (k <? 0) (Z.to_pos (a / 2 ^ b)) (b - 1074)
  end.

End JsNumber.
Export JsNumber.

(* ================================================================= *)
(** ** [analyzePerformanceWarnings] *)

Module Analyzer.

Record warning := {
  w_type : jsstring;
  message : jsstring;
  severity : jsstring;
  nodeId : jsstring
}.

(** What the [details] property of an entry can hold: a falsy value (the
    property missing, [undefined], [null], the empty string), a truthy
    value that is not an array (given by its ToString), or an array of
    strings. *)
Inductive details_value :=
| DetailsFalsy
| DetailsNotArray (text : jsstring)
| DetailsArray (items : list jsstring).

(** What a key of the analyzer's argument can hold: a falsy value or an
    object with [details] and a numeric [exclusiveCost]. *)
Inductive node_value :=
| NodeFalsy
| NodeObject (details : details_value) (exclusiveCost : num).

(** A JavaScript object as the sequence of its own enumerable string keys
    in [for ... in] order, with their values. *)
Definition js_object (V : Type) := list (jsstring * V).

Definition warning_sign : jsstring := [9888; 65039]%N.
Definition info_sign : jsstring := [8505; 65039]%N.

Definition nested_loop_message : jsstring :=
  warning_sign ++ js " Nested Loop join detected. This can be very slow if the inner table is large. Consider adding proper join conditions or indexes. [Learn more](https://docs.aws.amazon.com/redshift/latest/dg/c_Nested_loop_join.html)".

Definition seq_scan_message (rows : jsstring) : jsstring :=
  warning_sign ++ js " Large Seq Scan detected (" ++ rows
  ++ js " rows). Consider adding a sort key or filter conditions to reduce the scan size. [Learn more](https://docs.aws.amazon.com/redshift/latest/dg/t_Analyzing_tables.html)".

Definition ds_bcast_message : jsstring :=
  info_sign ++ js " Broadcast operation detected. Ensure the inner table being broadcast is small to avoid high network traffic. [Learn more](https://docs.aws.amazon.com/redshift/latest/dg/r_SVL_QUERY_REPORT.html#r_SVL_QUERY_REPORT-ds_bcast_inner)".

Definition hash_message (cost : jsstring) : jsstring :=
  warning_sign ++ js " Expensive Hash operation detected (exclusive cost: " ++ cost
  ++ js "). Consider if this hash step is necessary or if the data can be pre-sorted. [Learn more](https://docs.aws.amazon.com/redshift/latest/dg/c_Hash_join.html)".

(** [/rows=(\d+)/] *)
Definition rowsRegex : regex := lits "rows=" ++ [Greedy 1 is_digit true].

(** [self.findIndex(w => w.message === m)], [-1] being [None]. *)
Fixpoint findIndex (m : jsstring) (self : list warning) : option nat :=
  match self with
  | [] => None
  | w :: rest =>
      if str_eqb (message w) m then Some 0
      else option_map S (findIndex m rest)
  end.

(** [warnings.filter((warning, index, self) => ...)]: the callback sees
    the element, its index and the whole array. *)
Fixpoint filter_indexed (self : list warning) (index : nat)
  (l : list warning) : list warning :=
  match l with
  | [] => []
  | warning :: rest =>
      let keep := match findIndex (message warning) self with
                  | Some i => Nat.eqb index i
                  | None => false
                  end in
      if keep then warning :: filter_indexed self (S index) rest
      else filter_indexed self (S index) rest
  end.

Definition uniqueWarnings (warnings : list warning) : list warning :=
  filter_indexed warnings 0 warnings.

Section WithLocale.

(** [Number.prototype.toLocaleString] depends on the host's locale. *)
Variable toLocaleString : num -> jsstring.

(** The four rules applied to the operator line of one node, in order. *)
Definition rules (nodeId : jsstring) (content : jsstring)
  (exclusiveCost : num) : list warning :=
  (if includes content (js "Nested Loop")
   then [ {| w_type := js "warning"; message := nested_loop_message;
             severity := js "high"; nodeId := nodeId |} ]
   else [])
  ++
  (if includes content (js "Seq Scan")
   then match exec rowsRegex content with
        | Some (_, caps) =>
            let rows := parseInt (group caps 1) in
            if num_gtb rows (of_Z 10000)
            then [ {| w_type := js "warning";
                      message := seq_scan_message (toLocaleString rows);
                      severity := js "medium"; nodeId := nodeId |} ]
            else []
        | None => []
        end
   else [])
  ++
  (if includes content (js "DS_BCAST")
   then [ {| w_type := js "info"; message := ds_bcast_message;
             severity := js "medium"; nodeId := nodeId |} ]
   else [])
  ++
  (if includes content (js "Hash") && num_gtb exclusiveCost (of_Z 50)
   then [ {| w_type := js "warning";
             message := hash_message (toFixed2 exclusiveCost);
             severity := js "medium"; nodeId := nodeId |} ]
   else []).

(** The body of the [for ... in] loop for one key: what it pushes. *)
Definition node_warnings (nodeId : jsstring) (node : node_value)
  : list warning :=
  match node with
  | NodeFalsy => []
  | NodeObject DetailsFalsy _ => []
  | NodeObject (DetailsNotArray _) _ => []
  | NodeObject (DetailsArray []) _ => []
  | NodeObject (DetailsArray (content :: _)) exclusiveCost =>
      rules nodeId content exclusiveCost
  end.

(** The array [warnings] when the loop ends. *)
Definition collectWarnings (nodeInfos : js_object node_value) : list warning :=
  flat_map (fun kv => node_warnings (fst kv) (snd kv)) nodeInfos.

Definition analyzePerformanceWarnings (nodeInfos : js_object node_value)
  : list warning :=
  uniqueWarnings (collectWarnings nodeInfos).

End WithLocale.

(** The en-US rendering of a row count: digits in groups of three. *)
Fixpoint group3 (fuel : nat) (rev_digits : jsstring) : jsstring :=
  match fuel, rev_digits with
  | S fuel', a :: b :: c :: (_ :: _) as rest =>
      a :: b :: c :: 44%N :: group3 fuel' rest
  | _, _ => rev_digits
  end.

Definition toLocaleString_enUS (x : num) : jsstring :=
  match x with
  | NaN => js "NaN"
  | Inf s => (if s then js "-" else []) ++ [8734%N]
  | Fin k =>
      let ds := zdecimal (Z.abs k / unit) in
      (if (k <? 0)%Z then js "-" else [])
      ++ rev (group3 (List.length ds) (rev ds))
  end.

End Analyzer.
Export Analyzer.

(* ================================================================= *)
(** ** [parseExplainToMermaid] *)

Module Parser.

(** An entry of [nodeInfos] while the lines are scanned.  Node ids are the
    strings [node0], [node1], ... made from [idCounter]; an id is kept as
    its number, and the object [nodeInfos], whose keys are created in that
    very order, as the list of its values, the value of [node<k>] at
    position [k]. *)
Record node_info := {
  details : list jsstring;
  totalCost : num;
  children : list nat
}.

Record stack_entry := {
  entry_id : nat;
  entry_indentation : nat
}.

(** The variables the [forEach] callback updates.  [nodeStack] has its top
    (the last element of the JavaScript array) at the head. *)
Record parse_state := {
  idCounter : nat;
  nodeStack : list stack_entry;
  nodeInfos : list node_info;
  edgeList : list jsstring
}.

Record node_detail := {
  nd_details : list jsstring;
  nd_exclusiveCost : num
}.

Record mermaid := {
  nodes : list jsstring;
  edges : list jsstring;
  styles : list jsstring;
  nodeDetailsMap : js_object node_detail
}.

Definition node_id (k : nat) : jsstring := js "node" ++ decimal (N.of_nat k).

(** [/cost=([\d.]+)\\..([\d.]+)/]: in a regular expression literal [\\] is
    an escaped backslash, so the pattern asks for a backslash and two
    arbitrary characters between the two numbers. *)
Definition costRegex : regex :=
  lits "cost=" ++
  [Greedy 1 digit_or_dot true; One (lit 92%N); One any_char; One any_char;
   Greedy 1 digit_or_dot true].

(** [/^->\\s*/]: [->], a backslash, then any number of the letter [s]. *)
Definition arrowRegex : regex :=
  lits "->" ++ [One (lit 92%N); Greedy 0 (lit 115%N) false].

(** [content.match(costRegex)] and the conditional on it. *)
Definition line_cost (content : jsstring) : num :=
  match exec costRegex content with
  | Some (_, caps) => parseFloat (group caps 2)
  | None => zero
  end.

Fixpoint pop_while (indentation : nat) (stack : list stack_entry)
  : list stack_entry :=
  match stack with
  | top :: rest =>
      if indentation <=? entry_indentation top
      then pop_while indentation rest
      else stack
  | [] => []
  end.

(** [nodeInfos[k]] updated in place when it exists. *)
Fixpoint update (k : nat) (f : node_info -> node_info) (l : list node_info)
  : list node_info :=
  match l, k with
  | [], _ => []
  | x :: l', O => f x :: l'
  | x :: l', S k' => x :: update k' f l'
  end.

(** [nodeInfos[id] = v]: a new key goes last. *)
Definition assign (l : list node_info) (k : nat) (v : node_info)
  : list node_info :=
  if k <? List.length l then update k (fun _ => v) l else l ++ [v].

Definition push_child (child : nat) (n : node_info) : node_info :=
  {| details := details n; totalCost := totalCost n;
     children := children n ++ [child] |}.

Definition push_detail (content : jsstring) (cost : num) (n : node_info)
  : node_info :=
  {| details := details n ++ [content];
     totalCost := if num_eqb (totalCost n) zero && num_gtb cost zero
                  then cost else totalCost n;
     children := children n |}.

(** The callback of [lines.forEach]. *)
Definition step (st : parse_state) (line : jsstring) : parse_state :=
  let indentation := search_nonspace_or_end line in
  let content := trim line in
  let cost := line_cost content in
  if startsWith content (js "->") then
    let nodeText := replace_anchored arrowRegex [] content in
    let id := idCounter st in
    let stack := pop_while indentation (nodeStack st) in
    let edges' :=
      match stack with
      | parent :: _ =>
          edgeList st
          ++ [node_id (entry_id parent) ++ js " --> " ++ node_id id]
      | [] => edgeList st
      end in
    let infos' :=
      match stack with
      | parent :: _ => update (entry_id parent) (push_child id) (nodeInfos st)
      | [] => nodeInfos st
      end in
    {| idCounter := S id;
       nodeStack := {| entry_id := id; entry_indentation := indentation |}
                    :: stack;
       nodeInfos := assign infos' id
                      {| details := [nodeText]; totalCost := cost;
                         children := [] |};
       edgeList := edges' |}
  else
    match nodeStack st with
    | [] =>
        let id := idCounter st in
        {| idCounter := S id;
           nodeStack := [ {| entry_id := id;
                             entry_indentation := indentation |} ];
           nodeInfos := assign (nodeInfos st) id
                          {| details := [content]; totalCost := cost;
                             children := [] |};
           edgeList := edgeList st |}
    | last :: _ =>
        {| idCounter := idCounter st;
           nodeStack := nodeStack st;
           nodeInfos := update (entry_id last) (push_detail content cost)
                          (nodeInfos st);
           edgeList := edgeList st |}
    end.

Definition initial : parse_state :=
  {| idCounter := 0; nodeStack := []; nodeInfos := []; edgeList := [] |}.

(** [text.split('\n').filter(line => line.trim() !== '')] *)
Definition plan_lines (text : jsstring) : list jsstring :=
  filter (fun line => negb (str_eqb (trim line) [])) (split_newline text).

Definition scan (lines : list jsstring) : parse_state :=
  fold_left step lines initial.

(** The [reduce] over the children of a node. *)
Definition childrenTotalCost (infos : list node_info) (node : node_info)
  : num :=
  fold_left
    (fun sum childId =>
       num_add sum
         match nth_error infos childId with
         | Some child =>
             if truthy (totalCost child) then totalCost child else zero
         | None => zero
         end)
    (children node) zero.

(** The exclusive cost the first [for ... in] loop stores in a node. *)
Definition exclusiveCost (infos : list node_info) (node : node_info) : num :=
  let e := num_sub (totalCost node) (childrenTotalCost infos node) in
  if num_ltb e zero then zero else e.

Definition allExclusiveCosts (infos : list node_info) : list num :=
  filter (fun c => num_gtb c zero) (map (exclusiveCost infos) infos).

(** [[...new Set(l)]]: first occurrences, in order. *)
Fixpoint set_values (seen l : list num) : list num :=
  match l with
  | [] => []
  | x :: l' =>
      if existsb (same_value_zero x) seen then set_values seen l'
      else x :: set_values (x :: seen) l'
  end.

(** [.sort((a, b) => b - a)].  On the distinct positive numbers it is
    applied to, the comparator is a strict total order, so that the result
    does not depend on the sorting algorithm; this is insertion. *)
Fixpoint insert_sorted (x : num) (l : list num) : list num :=
  match l with
  | [] => [x]
  | y :: l' =>
      if num_ltb (num_sub y x) zero then x :: l
      else y :: insert_sorted x l'
  end.

Definition sort_descending (l : list num) : list num :=
  fold_right insert_sorted [] l.

(** [highCostThreshold] and [mediumCostThreshold]. *)
Definition thresholds (infos : list node_info) : num * num :=
  match allExclusiveCosts infos with
  | [] => (zero, zero)
  | costs =>
      let sortedUniqueCosts := sort_descending (set_values [] costs) in
      let maxCost := match sortedUniqueCosts with
                     | m :: _ => if truthy m then m else zero
                     | [] => zero
                     end in
      let high := match sortedUniqueCosts with
                  | _ :: secondMaxCost :: _ =>
                      num_div (num_add maxCost secondMaxCost) (of_Z 2)
                  | _ => of_decimal 1 5
                  end in
      (high, num_mul maxCost (of_decimal 33 2))
  end.

Definition highCostThreshold (infos : list node_info) : num :=
  fst (thresholds infos).
Definition mediumCostThreshold (infos : list node_info) : num :=
  snd (thresholds infos).

Inductive level := High | Medium | Low.

(** The branch taken for a node with [exclusiveCost > 0]. *)
Definition classify (infos : list node_info) (cost : num) : level :=
  if num_geb cost (highCostThreshold infos) then High
  else if num_geb cost (mediumCostThreshold infos) then Medium
  else Low.

Definition color (theme : jsstring) (l : level) : jsstring :=
  let dark := str_eqb theme (js "dark") in
  match l with
  | High => if dark then js "#8B0000" else js "#ffcccc"
  | Medium => if dark then js "#BDB76B" else js "#ffffcc"
  | Low => if dark then js "#2E8B57" else js "#ccffcc"
  end.

Definition quote : char16 := 34%N.

(** [labelWithCost.join('<br/>').replace(/"/g, '"')]: the replacement
    string is the double quote itself. *)
Definition label (details : list jsstring) (cost : num) : jsstring :=
  replace_all [One (lit quote)] [quote]
    (join (js "<br/>")
       (details ++ [js "<b>Self Cost: " ++ toFixed2 cost ++ js "</b>"])).

Definition node_declaration (k : nat) (details : list jsstring) (cost : num)
  : jsstring :=
  node_id k ++ js "[" ++ [quote] ++ label details cost ++ [quote] ++ js "]".

Definition style_declaration (theme : jsstring) (infos : list node_info)
  (k : nat) (cost : num) : list jsstring :=
  if num_gtb cost zero
  then [js "style " ++ node_id k ++ js " fill:"
        ++ color theme (classify infos cost)
        ++ js ",stroke:#333,stroke-width:2px"]
  else [].

(** The nodes with their position, as the second [for ... in] loop meets
    them. *)
Definition numbered (infos : list node_info) : list (nat * node_info) :=
  combine (seq 0 (List.length infos)) infos.

(** The second [for ... in] loop pushes, for each node in turn, a node
    declaration, an entry of [nodeDetailsMap] and at most one style; the
    three arrays are independent, and are given here one by one. *)
Definition parseExplainToMermaid (text theme : jsstring) : mermaid :=
  match plan_lines text with
  | [] => {| nodes := []; edges := []; styles := []; nodeDetailsMap := [] |}
  | lines =>
      let st := scan lines in
      let infos := nodeInfos st in
      let each {A} (f : nat -> list jsstring -> num -> A) : list A :=
        map (fun kn => f (fst kn) (details (snd kn))
                         (exclusiveCost infos (snd kn)))
            (numbered infos) in
      {| nodes := each node_declaration;
         edges := edgeList st;
         styles := List.concat (each (fun k _ cost =>
                                   style_declaration theme infos k cost));
         nodeDetailsMap :=
           each (fun k details cost =>
                   (node_id k, {| nd_details := details;
                                  nd_exclusiveCost := cost |})) |}
  end.

End Parser.
Export Parser.

(* ================================================================= *)
(** ** [normalizeNode] and [comparePlans] *)

Module Differ.

(** [/cost=[\d.]+\.\.[\d.]+/g] *)
Definition costAnnotation : regex :=
  lits "cost=" ++
  [Greedy 1 digit_or_dot false; One (lit 46%N); One (lit 46%N);
   Greedy 1 digit_or_dot false].

Definition normalizeNode (node : node_value) : jsstring :=
  match node with
  | NodeFalsy => []
  | NodeObject DetailsFalsy _ => []
  | NodeObject (DetailsNotArray text) _ =>
      replace_all costAnnotation [] (join (js "|") [text])
  | NodeObject (DetailsArray detailsArray) _ =>
      replace_all costAnnotation [] (join (js "|") detailsArray)
  end.

(** An entry of a [nodeDetailsMap] as a JavaScript value. *)
Definition as_value (n : node_detail) : node_value :=
  NodeObject (DetailsArray (nd_details n)) (nd_exclusiveCost n).

(** A [Map] from strings to node ids, in insertion order; [set] on a key
    that is present replaces the value and keeps the position. *)
Definition js_map := list (jsstring * jsstring).

Fixpoint map_set (key value : jsstring) (m : js_map) : js_map :=
  match m with
  | [] => [(key, value)]
  | (k, v) :: m' =>
      if str_eqb k key then (k, value) :: m'
      else (k, v) :: map_set key value m'
  end.

Fixpoint map_get (key : jsstring) (m : js_map) : option jsstring :=
  match m with
  | [] => None
  | (k, v) :: m' => if str_eqb k key then Some v else map_get key m'
  end.

Definition map_has (key : jsstring) (m : js_map) : bool :=
  match map_get key m with Some _ => true | None => false end.

(** [obj[key]], [None] being [undefined]. *)
Fixpoint obj_get {V} (key : jsstring) (o : js_object V) : option V :=
  match o with
  | [] => None
  | (k, v) :: o' => if str_eqb k key then Some v else obj_get key o'
  end.

Definition normalizedNodes (nodeDetailsMap : js_object node_detail)
  : js_map :=
  fold_left
    (fun m kv => map_set (normalizeNode (as_value (snd kv))) (fst kv) m)
    nodeDetailsMap [].

Definition hex_digit (n : N) : char16 :=
  (if n <? 10 then 48 + n else 87 + n)%N.

Definition unicode_escape (c : char16) : jsstring :=
  js "\u" ++ [hex_digit (c / 4096 mod 16); hex_digit (c / 256 mod 16);
              hex_digit (c / 16 mod 16); hex_digit (c mod 16)]%N.

(** QuoteJSONString, without the surrounding quotes. *)
Fixpoint json_escape (s : jsstring) : jsstring :=
  match s with
  | [] => []
  | c :: s' =>
      if (c =? 34)%N then 92%N :: 34%N :: json_escape s'
      else if (c =? 92)%N then 92%N :: 92%N :: json_escape s'
      else if (c =? 8)%N then js "\b" ++ json_escape s'
      else if (c =? 9)%N then js "\t" ++ json_escape s'
      else if (c =? 10)%N then js "\n" ++ json_escape s'
      else if (c =? 12)%N then js "\f" ++ json_escape s'
      else if (c =? 13)%N then js "\r" ++ json_escape s'
      else if (c <? 32)%N then unicode_escape c ++ json_escape s'
      else if ((55296 <=? c) && (c <=? 56319))%N then
        match s' with
        | d :: s'' =>
            if ((56320 <=? d) && (d <=? 57343))%N
            then c :: d :: json_escape s''
            else unicode_escape c ++ json_escape s'
        | [] => unicode_escape c
        end
      else if ((56320 <=? c) && (c <=? 57343))%N
      then unicode_escape c ++ json_escape s'
      else c :: json_escape s'
  end.

(** [JSON.stringify] of an array of strings. *)
Definition JSON_stringify (a : list jsstring) : jsstring :=
  js "[" ++ join (js ",") (map (fun s => quote :: json_escape s ++ [quote]) a)
  ++ js "]".

Record single := {
  s_nodeId : jsstring;
  s_node : option node_detail
}.

Record pair := {
  nodeId1 : jsstring;
  nodeId2 : jsstring;
  node1 : node_detail;
  node2 : node_detail
}.

Record classification := {
  addedNodes : list single;
  removedNodes : list single;
  changedNodes : list pair;
  unchangedNodes : list pair
}.

Record comparison := {
  classes : classification;
  mermaidCode : jsstring;
  summary : jsstring
}.

(** How a call of [comparePlans] ends: the usage alert, a TypeError from
    reading a property of [undefined], or the combined diagram and the
    summary alert. *)
Inductive outcome :=
| UsageAlert
| TypeError
| Compared (c : comparison).

(** One round of the loop over [normalizedNodes2.keys()]; [None] is a
    TypeError. *)
Definition classify_key (normalizedNodes1 normalizedNodes2 : js_map)
  (nodeDetailsMap1 nodeDetailsMap2 : js_object node_detail)
  (acc : option classification) (normalizedKey2 : jsstring)
  : option classification :=
  match acc with
  | None => None
  | Some c =>
      let nodeId2 := match map_get normalizedKey2 normalizedNodes2 with
                     | Some i => i
                     | None => js "undefined"
                     end in
      let node2 := obj_get nodeId2 nodeDetailsMap2 in
      if map_has normalizedKey2 normalizedNodes1 then
        let nodeId1 := match map_get normalizedKey2 normalizedNodes1 with
                       | Some i => i
                       | None => js "undefined"
                       end in
        match obj_get nodeId1 nodeDetailsMap1, node2 with
        | Some node1, Some node2 =>
            let entry := {| nodeId1 := nodeId1; nodeId2 := nodeId2;
                            node1 := node1; node2 := node2 |} in
            if negb (str_eqb (JSON_stringify (nd_details node1))
                             (JSON_stringify (nd_details node2)))
               || negb (num_eqb (nd_exclusiveCost node1)
                                (nd_exclusiveCost node2))
            then Some {| addedNodes := addedNodes c;
                         removedNodes := removedNodes c;
                         changedNodes := changedNodes c ++ [entry];
                         unchangedNodes := unchangedNodes c |}
            else Some {| addedNodes := addedNodes c;
                         removedNodes := removedNodes c;
                         changedNodes := changedNodes c;
                         unchangedNodes := unchangedNodes c ++ [entry] |}
        | _, _ => None
        end
      else
        Some {| addedNodes := addedNodes c
                              ++ [ {| s_nodeId := nodeId2; s_node := node2 |} ];
                removedNodes := removedNodes c;
                changedNodes := changedNodes c;
                unchangedNodes := unchangedNodes c |}
  end.

(** One round of the loop over [normalizedNodes1.keys()]. *)
Definition removed_key (normalizedNodes1 normalizedNodes2 : js_map)
  (nodeDetailsMap1 : js_object node_detail)
  (normalizedKey1 : jsstring) : list single :=
  if map_has normalizedKey1 normalizedNodes2 then []
  else
    let nodeId1 := match map_get normalizedKey1 normalizedNodes1 with
                   | Some i => i
                   | None => js "undefined"
                   end in
    [ {| s_nodeId := nodeId1; s_node := obj_get nodeId1 nodeDetailsMap1 |} ].

Definition classifyNodes (nodeDetailsMap1 nodeDetailsMap2
  : js_object node_detail) : option classification :=
  let normalizedNodes1 := normalizedNodes nodeDetailsMap1 in
  let normalizedNodes2 := normalizedNodes nodeDetailsMap2 in
  match fold_left
          (classify_key normalizedNodes1 normalizedNodes2
             nodeDetailsMap1 nodeDetailsMap2)
          (map fst normalizedNodes2)
          (Some {| addedNodes := []; removedNodes := [];
                   changedNodes := []; unchangedNodes := [] |})
  with
  | None => None
  | Some c =>
      Some {| addedNodes := addedNodes c;
              removedNodes :=
                flat_map (removed_key normalizedNodes1 normalizedNodes2
                            nodeDetailsMap1)
                         (map fst normalizedNodes1);
              changedNodes := changedNodes c;
              unchangedNodes := unchangedNodes c |}
  end.

(** [node.details[0]] inside a template literal. *)
Definition first_detail (n : node_detail) : jsstring :=
  nth 0 (nd_details n) (js "undefined").

Definition combined_node (id kind : jsstring) (n : node_detail) : jsstring :=
  id ++ js "[" ++ [quote] ++ kind ++ js ": " ++ first_detail n ++ [quote]
  ++ js "]".

Definition combined_style (id fill stroke : jsstring) : jsstring :=
  js "style " ++ id ++ js " fill:" ++ fill ++ js ",stroke:" ++ stroke
  ++ js ",stroke-width:2px".

Definition single_declarations (kind fill stroke : jsstring)
  (l : list single) : option (list (jsstring * jsstring)) :=
  fold_right
    (fun s acc =>
       match s_node s, acc with
       | Some n, Some rest =>
           Some ((combined_node (s_nodeId s) kind n,
                  combined_style (s_nodeId s) fill stroke) :: rest)
       | _, _ => None
       end)
    (Some []) l.

(** [[...new Set(l)]] on strings. *)
Fixpoint unique_strings (seen l : list jsstring) : list jsstring :=
  match l with
  | [] => []
  | x :: l' =>
      if existsb (str_eqb x) seen then unique_strings seen l'
      else x :: unique_strings (x :: seen) l'
  end.

Definition newline : jsstring := [10%N].

Definition count_line (title : string) {A} (l : list A) : jsstring :=
  js title ++ decimal (N.of_nat (List.length l)) ++ newline.

Definition comparePlans (xmlInput xmlInput2 theme : jsstring) : outcome :=
  match xmlInput, xmlInput2 with
  | [], _ | _, [] => UsageAlert
  | _, _ =>
      let plan1 := parseExplainToMermaid xmlInput theme in
      let plan2 := parseExplainToMermaid xmlInput2 theme in
      match classifyNodes (nodeDetailsMap plan1) (nodeDetailsMap plan2) with
      | None => TypeError
      | Some c =>
          match
            single_declarations (js "Removed") (js "#ffcccc") (js "#f44336")
              (removedNodes c),
            single_declarations (js "Added") (js "#cce0ff") (js "#2196F3")
              (addedNodes c)
          with
          | Some removed, Some added =>
              let unchanged :=
                map (fun p => (combined_node (nodeId1 p) (js "Unchanged")
                                 (node1 p),
                               combined_style (nodeId1 p) (js "#ccffcc")
                                 (js "#4CAF50")))
                    (unchangedNodes c) in
              let changed :=
                map (fun p => (combined_node (nodeId2 p) (js "Changed")
                                 (node2 p),
                               combined_style (nodeId2 p) (js "#ffffcc")
                                 (js "#FFC107")))
                    (changedNodes c) in
              let declarations := removed ++ unchanged ++ added ++ changed in
              let combinedEdges :=
                unique_strings [] (edges plan1 ++ edges plan2) in
              Compared
                {| classes := c;
                   mermaidCode :=
                     js "graph TD" ++ newline
                     ++ join newline (map fst declarations) ++ newline
                     ++ join newline combinedEdges ++ newline
                     ++ join newline (map snd declarations);
                   summary :=
                     js "Comparison Results:" ++ newline
                     ++ count_line "Added Nodes: " (addedNodes c)
                     ++ count_line "Removed Nodes: " (removedNodes c)
                     ++ count_line "Changed Nodes: " (changedNodes c)
                     ++ count_line "Unchanged Nodes: " (unchangedNodes c) |}
          | _, _ => TypeError
          end
      end
  end.

End Differ.
Export Differ.

(* ================================================================= *)
(** ** Notions the properties are stated with *)

Module Spec.

(** The lines that open a node: the first line of the plan, whatever it
    is, and every later line whose content starts with the child marker. *)
Definition is_arrow (line : jsstring) : bool :=
  startsWith (trim line) (js "->").

Definition opening_lines (lines : list jsstring) : list jsstring :=
  match lines with
  | [] => []
  | first :: rest => first :: filter is_arrow rest
  end.

(** The operator text the code keeps of a node-opening line. *)
Definition operator_text (line : jsstring) : jsstring :=
  if is_arrow line then replace_anchored arrowRegex [] (trim line)
  else trim line.

(** Indentation of the node-opening lines, node [k] at position [k]. *)
Definition opening_indents (lines : list jsstring) : list nat :=
  map search_nonspace_or_end (opening_lines lines).

(** Node [j] follows node [i], is indented strictly deeper, and no
    node-opening line from [i] to [j] is indented as little as [i]: [j]
    lies in the block below [i]. *)
Definition in_block_of (ind : list nat) (i j : nat) : Prop :=
  i < j < List.length ind /\
  forall k, i < k <= j -> nth i ind 0 < nth k ind 0.

(** Node [j] is directly below node [i]: it lies deeper than [i], and every
    node-opening line in between lies at least as deep as [j]. *)
Definition child_of (ind : list nat) (i j : nat) : Prop :=
  i < j < List.length ind /\
  nth i ind 0 < nth j ind 0 /\
  forall k, i < k < j -> nth j ind 0 <= nth k ind 0.

(** The children recorded for node [i]. *)
Definition children_of (infos : list node_info) (i : nat) : list nat :=
  match nth_error infos i with
  | Some n => children n
  | None => []
  end.

(** First occurrence of every message, in order. *)
Fixpoint first_occurrences (seen : list jsstring) (l : list warning)
  : list warning :=
  match l with
  | [] => []
  | w :: rest =>
      if existsb (str_eqb (message w)) seen
      then first_occurrences seen rest
      else w :: first_occurrences (message w :: seen) rest
  end.

(** A node the analyzer looks at: an object whose [details] is a non-empty
    array. *)
Definition has_details (node : node_value) : bool :=
  match node with
  | NodeObject (DetailsArray (_ :: _)) _ => true
  | _ => false
  end.

(** The node map handed from the parser to the analyzer. *)
Definition as_values (m : js_object node_detail) : js_object node_value :=
  map (fun kv => (fst kv, as_value (snd kv))) m.

(** Inclusive cost of a child as the sum takes it: NaN counts as zero. *)
Definition counted_cost (child : node_info) : num :=
  if is_nan (totalCost child) then zero else totalCost child.

(** The normalization key of an entry of a node map. *)
Definition normal_key (kv : jsstring * node_detail) : jsstring :=
  normalizeNode (as_value (snd kv)).

(** Entries of the two lists a plan compared with itself can fill: both
    sides are one node of the plan, and a changed one has a NaN cost. *)
Definition changed_on_self (m : js_object node_detail) (p : pair) : Prop :=
  In (node1 p) (map snd m) /\ node2 p = node1 p /\ nodeId2 p = nodeId1 p /\
  is_nan (nd_exclusiveCost (node1 p)) = true.

Definition unchanged_on_self (m : js_object node_detail) (p : pair) : Prop :=
  In (node1 p) (map snd m) /\ node2 p = node1 p /\ nodeId2 p = nodeId1 p.

(** A text of white space only. *)
Definition blank (s : jsstring) : Prop :=
  Forall (fun c => is_space c = true) s.

(** Several lines as one text. *)
Definition text_of (lines : list jsstring) : jsstring := join newline lines.

End Spec.
Export Spec.

(* ================================================================= *)
(** ** Sample plans *)

Module Samples.

(** The plan the application starts with. *)
Definition default_plan : jsstring :=
  text_of
    [js "XN Hash Join DS_BCAST_INNER  (cost=0.00..118.00 rows=1000 width=8)";
     js "  Hash Cond: (a.id = b.id)";
     js "  ->  XN Seq Scan on a  (cost=0.00..59.00 rows=1000 width=4)";
     js "  ->  XN Hash  (cost=0.00..59.00 rows=1000 width=4)";
     js "        ->  XN Seq Scan on b  (cost=0.00..59.00 rows=1000 width=4)"].

Definition scan_line : jsstring :=
  js "XN Seq Scan on a  (cost=0.00..59.00 rows=1000 width=4)".

(** A cost annotation in the only shape [costRegex] accepts. *)
Definition tiny_cost_plan : jsstring :=
  js "XN Seq Scan on a  (cost=0.00\..0.000001 rows=1 width=4)".

(** An annotation whose second number is a lone point. *)
Definition point_cost_plan : jsstring :=
  js "XN Seq Scan on a  (cost=0.00\ab.)".

(** A join declared cheaper than its two scans together. *)
Definition overdrawn_plan : jsstring :=
  text_of [js "XN Hash Join  (cost=0.00\..100.00 rows=10 width=8)";
           js "  ->  XN Seq Scan on a  (cost=0.00\..59.00 rows=10 width=4)";
           js "  ->  XN Seq Scan on b  (cost=0.00\..59.50 rows=10 width=4)"].

Definition quoted_plan : jsstring :=
  js "XN Seq Scan on " ++ [quote] ++ js "t" ++ [quote].

(** A node map that meets every rule of the analyzer, one of them twice,
    and holds an entry without details. *)
Definition sample_nodes : js_object node_value :=
  [(js "node0",
    NodeObject (DetailsArray [js "XN Nested Loop DS_BCAST_INNER  (rows=20)";
                              js "Join Filter: (a.id < b.id)"])
               zero);
   (js "node1",
    NodeObject (DetailsArray [js "->  XN Seq Scan on a  (rows=1234567)"])
               zero);
   (js "node2", NodeObject (DetailsArray [js "->  XN Nested Loop"]) zero);
   (js "node3", NodeObject (DetailsArray []) (of_Z 75));
   (js "node4", NodeObject (DetailsArray [js "->  XN Hash"])
                           (of_decimal 605 1))].

Definition twin_plan : jsstring :=
  text_of [js "XN Hash Join"; js "  -> XN Seq Scan on a";
           js "  -> XN Seq Scan on a"].

End Samples.
Export Samples.

(* ================================================================= *)
(** ** Invariants of the scan *)

Module Invariants.

(** A cost as a line can carry it: NaN, plus infinity, or a double that is
    not negative. *)
Definition unsigned_cost (x : num) : Prop :=
  match x with
  | NaN => True
  | Inf s => s = false
  | Fin k => (0 <= k)%Z /\ representable k
  end.

(** A sum of such costs in which NaN counted as zero: plus infinity or a
    number that is not negative. *)
Definition unsigned_sum (x : num) : Prop :=
  match x with
  | NaN => False
  | Inf s => s = false
  | Fin k => (0 <= k)%Z
  end.

(** The entries of the stack below an entry of id [hi] and indentation
    [v]: ids and indentations go down strictly, and every node opened
    between two entries, or before the last one, is indented at least as
    much as the entry above it. *)
Fixpoint stack_inv (ind : list nat) (stack : list stack_entry) (hi v : nat)
  : Prop :=
  match stack with
  | [] => forall k, k < hi -> v <= nth k ind 0
  | e :: rest =>
      entry_id e < hi /\
      entry_indentation e = nth (entry_id e) ind 0 /\
      entry_indentation e < v /\
      (forall k, entry_id e < k < hi -> v <= nth k ind 0) /\
      stack_inv ind rest (entry_id e) (entry_indentation e)
  end.

(** The whole stack when [ind] lists the indentations of the nodes opened
    so far: its top is the last node opened. *)
Definition stack_top_inv (ind : list nat) (stack : list stack_entry) : Prop :=
  match stack with
  | [] => ind = []
  | top :: rest =>
      S (entry_id top) = List.length ind /\
      entry_indentation top = nth (entry_id top) ind 0 /\
      stack_inv ind rest (entry_id top) (entry_indentation top)
  end.

(** What every line of the scan keeps true: ids are positions in
    [nodeInfos], the stack is the chain of open nodes, the children and the
    edges recorded are the pairs of [child_of], and no cost is negative. *)
Record invariant (st : parse_state) (ind : list nat) : Prop := {
  inv_counter : idCounter st = List.length (nodeInfos st);
  inv_length : List.length ind = List.length (nodeInfos st);
  inv_stack : stack_top_inv ind (nodeStack st);
  inv_children :
    forall i j, In j (children_of (nodeInfos st) i) <-> child_of ind i j;
  inv_sorted : forall i, StronglySorted lt (children_of (nodeInfos st) i);
  inv_edges :
    forall e, In e (edgeList st) <->
              exists i j, child_of ind i j /\
                          e = node_id i ++ js " --> " ++ node_id j;
  inv_costs : Forall (fun n => unsigned_cost (totalCost n)) (nodeInfos st)
}.

(** Node [k] is the one made from the [k]-th node-opening line: [texts]
    lists the operator texts of these lines. *)
Record details_invariant (st : parse_state) (texts : list jsstring)
  : Prop := {
  di_counter : idCounter st = List.length (nodeInfos st);
  di_first : map (fun n => hd [] (details n)) (nodeInfos st) = texts;
  di_nonempty : Forall (fun n => details n <> []) (nodeInfos st)
}.

(** The lines on which [step] makes a node. *)
Definition opens_node (st : parse_state) (line : jsstring) : bool :=
  is_arrow line || match nodeStack st with [] => true | _ => false end.

(** [step] together with the indentations of the nodes opened so far. *)
Definition ghost_step (si : parse_state * list nat) (line : jsstring)
  : parse_state * list nat :=
  (step (fst si) line,
   if opens_node (fst si) line
   then snd si ++ [search_nonspace_or_end line] else snd si).

End Invariants.
Export Invariants.

(* ================================================================= *)
(** ** [renderMessageWithLinks] *)

Module Links.

(** An element of the array [parts]: a piece of text, or a link with its
    text and its URL. *)
Inductive part :=
| Text (s : jsstring)
| Link (text url : jsstring).

(** [/\[([^\]]+)\]\(([^)]+)\)/g] *)
Definition linkRegex : regex :=
  [One (lit 91%N); Greedy 1 (fun c => negb (c =? 93)%N) true;
   One (lit 93%N); One (lit 40%N);
   Greedy 1 (fun c => negb (c =? 41)%N) true; One (lit 41%N)].

(** The text between [lastIndex] and a match, or the end, when there is
    some. *)
Definition flush (pending : jsstring) : list part :=
  match pending with
  | [] => []
  | _ => [Text pending]
  end.

(** The [while] loop over [linkRegex.exec(message)] and the push after it.
    [pending] is the text read since [lastIndex]; [skip] counts the code
    units of the current match still to pass. *)
Fixpoint parts_from (skip : nat) (pending : jsstring) (s : jsstring)
  : list part :=
  match s with
  | [] => flush pending
  | c :: s' =>
      match skip with
      | S skip' => parts_from skip' pending s'
      | O =>
          match match_here linkRegex s with
          | Some (rest, caps) =>
              flush pending
              ++ Link (group caps 1) (group caps 2)
                 :: parts_from (List.length s - List.length rest - 1) [] s'
          | None => parts_from 0 (pending ++ [c]) s'
          end
      end
  end.

(** The array [parts] the function maps to elements. *)
Definition renderMessageWithLinks (message : jsstring) : list part :=
  parts_from 0 [] message.

(** A part written back in the notation of the message. *)
Definition part_source (p : part) : jsstring :=
  match p with
  | Text s => s
  | Link text url => js "[" ++ text ++ js "](" ++ url ++ js ")"
  end.

End Links.
Export Links.

(* ================================================================= *)
(** ** [generateDiagram] *)

Module Diagram.

(** What a call leaves in the state of the component: the arguments of
    [setWarnings], [setNodeData] and [setMermaidCode] ([setSelectedNode]
    gets [null]).  The parser and the analyzer raise nothing, so that the
    [catch] branch is never taken. *)
Record state := {
  warnings : list warning;
  nodeData : js_object node_detail;
  mermaidCode : jsstring
}.

Definition generateDiagram (toLocaleString : num -> jsstring)
  (xmlInput theme : jsstring) : state :=
  let plan := parseExplainToMermaid xmlInput theme in
  let performanceWarnings :=
    analyzePerformanceWarnings toLocaleString
      (as_values (nodeDetailsMap plan)) in
  {| warnings := performanceWarnings;
     nodeData := nodeDetailsMap plan;
     mermaidCode :=
       match nodes plan with
       | [] => []
       | _ =>
           js "graph TD" ++ newline ++ join newline (nodes plan) ++ newline
           ++ join newline (edges plan) ++ newline
           ++ join newline (styles plan)
       end |}.

End Diagram.

(* ================================================================= *)
(** ** More notions *)

Module Shape.

(** A text with a line that is not blank. *)
Definition has_content (text : jsstring) : Prop :=
  exists c, In c text /\ is_space c = false.

(** The keys of a plan's [Map] of normalized nodes. *)
Definition plan_keys (text theme : jsstring) : list jsstring :=
  map fst (normalizedNodes (nodeDetailsMap (parseExplainToMermaid text theme))).

(** Membership in a list of strings. *)
Definition mem (l : list jsstring) (x : jsstring) : bool :=
  existsb (str_eqb x) l.

(** The entry [comparePlans] pushes to [addedNodes] or [removedNodes] for
    a key of the plan whose [Map] is [normalized] and whose node map is
    [m]. *)
Definition single_of (normalized : js_map) (m : js_object node_detail)
  (key : jsstring) : single :=
  let id := match map_get key normalized with
            | Some i => i
            | None => js "undefined"
            end in
  {| s_nodeId := id; s_node := obj_get id m |}.

(** A cost that gets a style: a double above zero, Infinity included. *)
Definition positive_cost (x : num) : Prop :=
  valid x /\ num_gtb x zero = true.

(** The text of a number in a cost annotation: digits and points, at least
    one of them. *)
Definition number_text (a : jsstring) : Prop :=
  a <> [] /\ Forall (fun c => digit_or_dot c = true) a.

(** A text that does not go on with a digit or a point. *)
Definition ends_number (post : jsstring) : Prop :=
  match post with
  | [] => True
  | c :: _ => digit_or_dot c = false
  end.

(** A part as the loop makes them: a text is never empty, and the text and
    the URL of a link are not empty and hold no closing bracket of their
    own kind. *)
Definition part_ok (p : part) : Prop :=
  match p with
  | Text s => s <> []
  | Link text url =>
      text <> [] /\ url <> [] /\ ~ In 93%N text /\ ~ In 41%N url
  end.

End Shape.
Export Shape.

(* ================================================================= *)
(** ** Strings and regular expressions *)

Section RegexFacts.

Lemma str_eqb_eq (a b : jsstring) : str_eqb a b = true <-> a = b.
Proof.
  unfold str_eqb. destruct (list_eq_dec N.eq_dec a b); split; congruence.
Qed.

Lemma str_eqb_refl (a : jsstring) : str_eqb a a = true.
Proof. now apply str_eqb_eq. Qed.

Lemma str_eqb_neq (a b : jsstring) : str_eqb a b = false <-> a <> b.
Proof.
  unfold str_eqb. destruct (list_eq_dec N.eq_dec a b); split; congruence.
Qed.

Lemma skipn_head_in {A} (x : A) (k : nat) (l rest : list A) :
  skipn k l = x :: rest -> In x l.
Proof.
  revert l. induction k as [|k IH]; intros [|y l]; simpl;
    try discriminate.
  - intros [= -> _]. now left.
  - intros H. right. now apply IH.
Qed.

(** What a successful match of a pattern starting with a greedy item
    implies: the rest of the pattern matched after some number of code
    units was consumed. *)
Lemma match_here_greedy min p cap r s res :
  match_here (Greedy min p cap :: r) s = Some res ->
  exists k res', match_here r (skipn k s) = Some res'.
Proof.
  simpl. generalize (run_length p s). intros n. induction n as [|n IH].
  - destruct (0 <? min); [discriminate|].
    destruct (match_here r (skipn 0 s)) as [[rest caps]|] eqn:E;
      [|discriminate].
    intros _. now exists 0, (rest, caps).
  - destruct (S n <? min); [discriminate|].
    destruct (match_here r (skipn (S n) s)) as [[rest caps]|] eqn:E.
    + intros _. now exists (S n), (rest, caps).
    + exact IH.
Qed.

Lemma match_here_one p r s res :
  match_here (One p :: r) s = Some res ->
  exists c s', s = c :: s' /\ p c = true /\ match_here r s' = Some res.
Proof.
  simpl. destruct s as [|c s']; [discriminate|].
  destruct (p c) eqn:E; [|discriminate]. intros H. now exists c, s'.
Qed.

(** A subject matched by [costRegex] holds a backslash. *)
Lemma costRegex_needs_backslash s res :
  match_here costRegex s = Some res -> In 92%N s.
Proof.
  unfold costRegex. cbn [lits js map list_ascii_of_string app].
  intros H.
  repeat (apply match_here_one in H;
          destruct H as (? & ? & -> & _ & H); right).
  apply match_here_greedy in H. destruct H as (k & res' & H).
  apply match_here_one in H. destruct H as (c & s' & E & Hc & _).
  unfold lit in Hc. apply N.eqb_eq in Hc. subst c.
  now apply skipn_head_in in E.
Qed.

Lemma exec_from_costRegex_none s i :
  ~ In 92%N s -> exec_from costRegex i s = None.
Proof.
  revert i. induction s as [|c s IH]; intros i Hs.
  - cbn [exec_from]. destruct (match_here costRegex []) as [[rest caps]|] eqn:E;
      [|reflexivity].
    apply costRegex_needs_backslash in E. contradiction.
  - cbn [exec_from].
    destruct (match_here costRegex (c :: s)) as [[rest caps]|] eqn:E.
    + apply costRegex_needs_backslash in E. contradiction.
    + apply IH. intros H. apply Hs. now right.
Qed.

(** No line of a plan in the documented notation, which has no backslash,
    gets a cost from [costRegex]. *)
Lemma line_cost_without_backslash content :
  ~ In 92%N content -> line_cost content = zero.
Proof.
  intros H. unfold line_cost, exec. now rewrite exec_from_costRegex_none.
Qed.

(** Replacing every double quote by a double quote changes nothing. *)
Lemma replace_quote_identity s :
  replace_all [One (lit quote)] [quote] s = s.
Proof.
  unfold replace_all. induction s as [|c s IH]; [reflexivity|].
  cbn [replace_all_from match_here].
  unfold lit at 1. destruct (c =? quote)%N eqn:E.
  - apply N.eqb_eq in E. subst c.
    replace (List.length (quote :: s) - List.length s) with 1
      by (cbn [List.length]; lia).
    cbn [app]. now rewrite IH.
  - now rewrite IH.
Qed.

Lemma label_keeps_quotes details cost :
  label details cost =
  join (js "<br/>")
    (details ++ [js "<b>Self Cost: " ++ toFixed2 cost ++ js "</b>"]).
Proof. unfold label. apply replace_quote_identity. Qed.

(** The marker is stripped only when a backslash follows it. *)
Lemma arrow_kept content rest :
  match_here arrowRegex content = Some rest -> nth_error content 2 = Some 92%N.
Proof.
  unfold arrowRegex. cbn [lits js map list_ascii_of_string app].
  intros H.
  do 2 (apply match_here_one in H; destruct H as (? & ? & -> & _ & H)).
  apply match_here_one in H. destruct H as (c & s & -> & Hc & _).
  unfold lit in Hc. apply N.eqb_eq in Hc. now subst.
Qed.

Lemma nodeText_unchanged content :
  nth_error content 2 <> Some 92%N ->
  replace_anchored arrowRegex [] content = content.
Proof.
  intros H. unfold replace_anchored.
  destruct (match_here arrowRegex content) as [[rest caps]|] eqn:E;
    [|reflexivity].
  apply arrow_kept in E. contradiction.
Qed.

End RegexFacts.

(* ================================================================= *)
(** ** Cost annotations, child markers and labels on the sample plans *)

(** C1, evaluated on the plan notation.  The line
    [XN Seq Scan on a  (cost=0.00..59.00 rows=1000 width=4)] holds a cost
    annotation whose second number is 59, yet its cost is 0, and so is the
    total cost of all four nodes of the default plan: [costRegex] wants a
    backslash between the two numbers.  The pattern of [normalizeNode]
    finds the same annotation. *)
Theorem cost_annotation_not_recognised :
  line_cost scan_line = zero /\
  map totalCost (nodeInfos (scan (plan_lines default_plan)))
  = [zero; zero; zero; zero] /\
  exec costAnnotation scan_line = Some (19, []) /\
  parseFloat (js "59.00") = of_Z 59 /\
  num_eqb zero (of_Z 59) = false.
Proof. vm_compute. repeat split. Qed.

(** C2, evaluated on a child line.  The node made from the line
    [  ->  XN Seq Scan on a] keeps the marker in its operator text:
    [/^->\\s*/] strips it only when a backslash follows. *)
Theorem child_marker_not_stripped :
  map details
    (nodeInfos
       (scan (plan_lines (text_of [js "XN Hash Join";
                                   js "  ->  XN Seq Scan on a"]))))
  = [[js "XN Hash Join"]; [js "->  XN Seq Scan on a"]] /\
  startsWith (js "->  XN Seq Scan on a") (js "->") = true.
Proof. vm_compute. split; reflexivity. Qed.

(** C6, evaluated on a plan with a quoted name.  The node declaration of
    [XN Seq Scan on "t"] holds the two double quotes of the detail line as
    they are, between the quotes that delimit the label. *)
Theorem label_quotes_not_escaped :
  nodes (parseExplainToMermaid quoted_plan (js "light"))
  = [js "node0[" ++ [quote] ++ js "XN Seq Scan on " ++ [quote] ++ js "t"
     ++ [quote] ++ js "<br/><b>Self Cost: 0.00</b>" ++ [quote] ++ js "]"].
Proof. vm_compute. reflexivity. Qed.

(** C7, evaluated on a plan whose only node costs 0.000001.  Exactly one
    exclusive cost is positive and the high threshold is 0.00001, but the
    node is below it: it is classified medium and styled so. *)
Theorem single_tiny_cost_is_medium :
  let infos := nodeInfos (scan (plan_lines tiny_cost_plan)) in
  allExclusiveCosts infos = [of_decimal 1 6] /\
  highCostThreshold infos = of_decimal 1 5 /\
  num_gtb (of_decimal 1 6) zero = true /\
  classify infos (of_decimal 1 6) = Medium /\
  styles (parseExplainToMermaid tiny_cost_plan (js "light"))
  = [js "style node0 fill:#ffffcc,stroke:#333,stroke-width:2px"].
Proof. vm_compute. repeat split. Qed.

(* ================================================================= *)
(** ** Empty plans *)

Section EmptyPlan.

Lemma trimStart_blank s : blank s -> trimStart s = [].
Proof.
  induction 1 as [|c s Hc _ IH]; [reflexivity|].
  cbn [trimStart]. now rewrite Hc.
Qed.

Lemma trim_blank s : blank s -> trim s = [].
Proof.
  intros H. unfold trim, trimEnd. now rewrite (trimStart_blank s H).
Qed.

Lemma split_newline_blank text :
  blank text -> Forall blank (split_newline text).
Proof.
  induction 1 as [|c s Hc Hs IH]; cbn [split_newline].
  - repeat constructor.
  - destruct (c =? 10)%N.
    + constructor; [constructor | exact IH].
    + destruct (split_newline s) as [|l ls]; inversion IH; subst;
        repeat constructor; auto.
Qed.

Lemma plan_lines_blank text : blank text -> plan_lines text = [].
Proof.
  intros H. apply split_newline_blank in H. unfold plan_lines.
  induction H as [|l ls Hl _ IH]; [reflexivity|].
  cbn [filter]. now rewrite (trim_blank l Hl).
Qed.

End EmptyPlan.

(** C9.  A text made of white space only (spaces, tabs, line ends, none at
    all) parses to no node, no edge, no style and an empty node map, and
    the analyzer finds no warning in that map. *)
Theorem blank_text_parses_to_nothing
  (toLocaleString : num -> jsstring) (text theme : jsstring) :
  Forall (fun c => is_space c = true) text ->
  parseExplainToMermaid text theme
  = {| nodes := []; edges := []; styles := []; nodeDetailsMap := [] |} /\
  analyzePerformanceWarnings toLocaleString
    (as_values (nodeDetailsMap (parseExplainToMermaid text theme))) = [].
Proof.
  intros H. unfold parseExplainToMermaid.
  rewrite (plan_lines_blank text H). split; reflexivity.
Qed.

Lemma blank_text_parses_to_nothing_witness :
  Forall (fun c => is_space c = true) [32; 9; 10; 32; 13; 10]%N /\
  parseExplainToMermaid [32; 9; 10; 32; 13; 10]%N (js "dark")
  = {| nodes := []; edges := []; styles := []; nodeDetailsMap := [] |} /\
  analyzePerformanceWarnings toLocaleString_enUS
    (as_values
       (nodeDetailsMap
          (parseExplainToMermaid [32; 9; 10; 32; 13; 10]%N (js "dark"))))
  = [].
Proof.
  assert (H : Forall (fun c => is_space c = true) [32; 9; 10; 32; 13; 10]%N)
    by (repeat constructor).
  split; [exact H|].
  exact (blank_text_parses_to_nothing toLocaleString_enUS _ (js "dark") H).
Defined.

(* ================================================================= *)
(** ** The warning analyzer *)

Section AnalyzerFacts.

Variable toLocaleString : num -> jsstring.

Lemma existsb_message m seen :
  existsb (str_eqb m) seen = true <-> In m seen.
Proof.
  rewrite existsb_exists. split.
  - intros (x & Hx & E). apply str_eqb_eq in E. now subst.
  - intros H. exists m. split; [exact H | apply str_eqb_refl].
Qed.

(** Where [findIndex] lands in an array cut in two. *)
Lemma findIndex_app m prefix l :
  findIndex m (prefix ++ l) =
  match findIndex m prefix with
  | Some i => Some i
  | None => option_map (Nat.add (List.length prefix)) (findIndex m l)
  end.
Proof.
  induction prefix as [|w prefix IH]; cbn [app findIndex List.length].
  - now destruct (findIndex m l).
  - destruct (str_eqb (message w) m); [reflexivity|].
    rewrite IH. destruct (findIndex m prefix); [reflexivity|].
    now destruct (findIndex m l).
Qed.

Lemma findIndex_bound m l i : findIndex m l = Some i -> i < List.length l.
Proof.
  revert i. induction l as [|w l IH]; intros i; cbn [findIndex List.length];
    [discriminate|].
  destruct (str_eqb (message w) m).
  - intros [= <-]. lia.
  - destruct (findIndex m l) as [j|]; [|discriminate].
    intros [= <-]. specialize (IH j eq_refl). lia.
Qed.

Lemma findIndex_none m l :
  findIndex m l = None <-> ~ In m (map message l).
Proof.
  induction l as [|w l IH]; cbn [findIndex map In].
  - tauto.
  - destruct (str_eqb (message w) m) eqn:E.
    + apply str_eqb_eq in E. split; [discriminate | tauto].
    + apply str_eqb_neq in E.
      destruct (findIndex m l); cbn [option_map].
      * split; [discriminate|]. intros H.
        assert (X : Some n = None) by (apply IH; tauto). discriminate.
      * split; [|reflexivity]. intros _ [H|H]; [contradiction|].
        now apply IH.
Qed.

(** The index filter of the source keeps the first occurrence of every
    message. *)
Lemma filter_indexed_first_occurrences l :
  forall prefix seen,
    (forall m, In m seen <-> In m (map message prefix)) ->
    filter_indexed (prefix ++ l) (List.length prefix) l
    = first_occurrences seen l.
Proof.
  induction l as [|w rest IH]; intros prefix seen Hseen; [reflexivity|].
  cbn [filter_indexed first_occurrences].
  assert (Hnext : prefix ++ w :: rest = (prefix ++ [w]) ++ rest)
    by now rewrite <- app_assoc.
  assert (Hlen : S (List.length prefix) = List.length (prefix ++ [w]))
    by (rewrite length_app; cbn; lia).
  rewrite findIndex_app.
  destruct (findIndex (message w) prefix) as [i|] eqn:Ei.
  - pose proof (findIndex_bound _ _ _ Ei) as Hi.
    replace (Nat.eqb (List.length prefix) i) with false
      by (symmetry; apply Nat.eqb_neq; lia).
    assert (Hin : In (message w) seen).
    { apply Hseen.
      destruct (in_dec (list_eq_dec N.eq_dec) (message w)
                  (map message prefix)) as [H|H]; [exact H|].
      apply findIndex_none in H. congruence. }
    apply existsb_message in Hin. rewrite Hin.
    rewrite Hnext, Hlen. apply IH. intros m. rewrite map_app, in_app_iff.
    cbn [map In]. rewrite <- Hseen. split; [tauto|].
    intros [H|[<-|[]]]; [exact H|]. now apply existsb_message.
  - cbn [findIndex]. rewrite str_eqb_refl. cbn [option_map].
    rewrite Nat.add_0_r, Nat.eqb_refl.
    assert (Hout : existsb (str_eqb (message w)) seen = false).
    { apply not_true_is_false. intros H. apply existsb_message in H.
      apply Hseen in H. now apply findIndex_none in Ei. }
    rewrite Hout. f_equal.
    rewrite Hnext, Hlen. apply IH. intros m. rewrite map_app, in_app_iff.
    cbn [map In]. rewrite <- Hseen. tauto.
Qed.

Lemma uniqueWarnings_first_occurrences l :
  uniqueWarnings l = first_occurrences [] l.
Proof.
  unfold uniqueWarnings.
  apply (filter_indexed_first_occurrences l [] []). intros m. tauto.
Qed.

Lemma first_occurrences_messages l :
  forall seen m,
    In m (map message (first_occurrences seen l))
    <-> In m (map message l) /\ ~ In m seen.
Proof.
  induction l as [|w rest IH]; intros seen m; cbn [first_occurrences map In].
  - tauto.
  - destruct (existsb (str_eqb (message w)) seen) eqn:E.
    + apply existsb_message in E. rewrite IH. split; [tauto|].
      intros [[<-|H] Hm]; [contradiction | tauto].
    + assert (Hw : ~ In (message w) seen).
      { intros H. apply existsb_message in H. congruence. }
      cbn [map In]. rewrite IH. cbn [In].
      destruct (list_eq_dec N.eq_dec (message w) m) as [<-|Hne]; tauto.
Qed.

Lemma first_occurrences_NoDup l :
  forall seen, NoDup (map message (first_occurrences seen l)).
Proof.
  induction l as [|w rest IH]; intros seen; cbn [first_occurrences].
  - constructor.
  - destruct (existsb (str_eqb (message w)) seen); [apply IH|].
    cbn [map]. constructor; [|apply IH].
    rewrite first_occurrences_messages. cbn [In]. tauto.
Qed.

Lemma first_occurrences_incl l :
  forall seen w, In w (first_occurrences seen l) -> In w l.
Proof.
  induction l as [|x rest IH]; intros seen w; cbn [first_occurrences];
    [tauto|].
  destruct (existsb (str_eqb (message x)) seen).
  - intros H. right. now apply (IH seen).
  - intros [<-|H]; [now left | right; now apply (IH (message x :: seen))].
Qed.

(** What each rule emits. *)
Lemma rules_emit id content cost w :
  In w (rules toLocaleString id content cost) ->
  nodeId w = id /\
  (severity w = js "high" \/ severity w = js "medium") /\
  (w_type w = js "warning" \/
   w_type w = js "info" /\ message w = ds_bcast_message /\
   includes content (js "DS_BCAST") = true).
Proof.
  unfold rules. rewrite !in_app_iff.
  intros [H|[H|[H|H]]].
  - destruct (includes content (js "Nested Loop")); [|destruct H].
    destruct H as [<-|[]]. cbn. tauto.
  - destruct (includes content (js "Seq Scan")); [|destruct H].
    destruct (exec rowsRegex content) as [[i caps]|]; [|destruct H].
    destruct (num_gtb _ _); [|destruct H].
    destruct H as [<-|[]]. cbn. tauto.
  - destruct (includes content (js "DS_BCAST")) eqn:E; [|destruct H].
    destruct H as [<-|[]]. cbn. tauto.
  - destruct (_ && _); [|destruct H].
    destruct H as [<-|[]]. cbn. tauto.
Qed.

Lemma collectWarnings_origin nodeInfos w :
  In w (collectWarnings toLocaleString nodeInfos) ->
  exists content rest cost,
    In (nodeId w, NodeObject (DetailsArray (content :: rest)) cost) nodeInfos
    /\ In w (rules toLocaleString (nodeId w) content cost).
Proof.
  unfold collectWarnings. rewrite in_flat_map.
  intros ([id node] & Hin & Hw). cbn [fst snd] in Hw.
  destruct node as [|[|text|[|content rest]] cost]; try destruct Hw.
  cbn [node_warnings] in Hw.
  destruct (rules_emit _ _ _ _ Hw) as [E _]. subst id.
  now exists content, rest, cost.
Qed.

Lemma collectWarnings_skips nodeInfos :
  collectWarnings toLocaleString
    (filter (fun kv => has_details (snd kv)) nodeInfos)
  = collectWarnings toLocaleString nodeInfos.
Proof.
  unfold collectWarnings.
  induction nodeInfos as [|[id node] rest IH]; [reflexivity|].
  cbn [filter flat_map fst snd].
  destruct node as [|[|text|[|content items]] cost]; cbn [has_details];
    cbn [flat_map fst snd node_warnings app]; try exact IH.
  now rewrite IH.
Qed.

End AnalyzerFacts.

(** The analyzer on the sample map: the second nested loop adds nothing,
    nor does the entry without details. *)
Example analyzer_on_sample :
  analyzePerformanceWarnings toLocaleString_enUS sample_nodes
  = [ {| w_type := js "warning"; message := nested_loop_message;
         severity := js "high"; nodeId := js "node0" |};
      {| w_type := js "info"; message := ds_bcast_message;
         severity := js "medium"; nodeId := js "node0" |};
      {| w_type := js "warning";
         message := seq_scan_message (js "1,234,567");
         severity := js "medium"; nodeId := js "node1" |};
      {| w_type := js "warning"; message := hash_message (js "60.50");
         severity := js "medium"; nodeId := js "node4" |} ].
Proof. vm_compute. reflexivity. Qed.

(** C8.  The analyzer returns the first occurrence of every message the
    rules produced, in the order of these first occurrences: no message
    occurs twice in its result, and every message produced, by however
    many nodes, occurs in it exactly once. *)
Theorem warnings_deduplicated
  (toLocaleString : num -> jsstring) (nodeInfos : js_object node_value) :
  let produced := collectWarnings toLocaleString nodeInfos in
  let returned := analyzePerformanceWarnings toLocaleString nodeInfos in
  returned = first_occurrences [] produced /\
  NoDup (map message returned) /\
  Forall (fun w => count_occ (list_eq_dec N.eq_dec) (map message returned)
                     (message w) = 1) produced.
Proof.
  intros produced returned.
  assert (E : returned = first_occurrences [] produced)
    by apply uniqueWarnings_first_occurrences.
  assert (N : NoDup (map message returned))
    by (rewrite E; apply first_occurrences_NoDup).
  repeat split; trivial.
  apply Forall_forall. intros w Hw.
  apply NoDup_count_occ'; [exact N|].
  rewrite E. apply first_occurrences_messages. split; [|intros []].
  now apply in_map.
Qed.

(** C10.  Every warning the analyzer returns carries the key of an entry
    of its argument whose [details] is a non-empty array; its severity is
    [high] or [medium]; its type is [warning], or it is [info] and then
    the warning is the broadcast one, raised on an operator line holding
    [DS_BCAST].  Entries that are falsy or whose [details] is missing, not
    an array or empty contribute nothing: without them the result is the
    same. *)
Theorem analyzer_warnings_well_formed
  (toLocaleString : num -> jsstring) (nodeInfos : js_object node_value) :
  Forall
    (fun w =>
       (severity w = js "high" \/ severity w = js "medium") /\
       exists content rest cost,
         In (nodeId w, NodeObject (DetailsArray (content :: rest)) cost)
            nodeInfos /\
         (w_type w = js "warning" \/
          w_type w = js "info" /\ message w = ds_bcast_message /\
          includes content (js "DS_BCAST") = true))
    (analyzePerformanceWarnings toLocaleString nodeInfos) /\
  analyzePerformanceWarnings toLocaleString
    (filter (fun kv => has_details (snd kv)) nodeInfos)
  = analyzePerformanceWarnings toLocaleString nodeInfos.
Proof.
  split.
  - apply Forall_forall. intros w Hw.
    unfold analyzePerformanceWarnings in Hw.
    rewrite uniqueWarnings_first_occurrences in Hw.
    apply first_occurrences_incl in Hw.
    destruct (collectWarnings_origin _ _ _ Hw)
      as (content & rest & cost & Hin & Hrule).
    destruct (rules_emit _ _ _ _ _ Hrule) as (_ & Hsev & Hty).
    split; [exact Hsev|]. now exists content, rest, cost.
  - unfold analyzePerformanceWarnings. now rewrite collectWarnings_skips.
Qed.

(* ================================================================= *)
(** ** The numbers against the primitive binary64 floats *)

Section FloatSamples.

Local Open Scope float_scope.

Example add_agrees :
  Prim2SF (1 / 10 + 2 / 10)
  = to_spec (num_add (of_decimal 1 1) (of_decimal 2 1)).
Proof. vm_compute. reflexivity. Qed.

Example sub_agrees :
  Prim2SF (118 - (59 + 119 / 2))
  = to_spec (num_sub (of_Z 118) (num_add (of_Z 59) (of_decimal 595 1))).
Proof. vm_compute. reflexivity. Qed.

Example mul_agrees :
  Prim2SF (1 / 1000000 * (33 / 100))
  = to_spec (num_mul (of_decimal 1 6) (of_decimal 33 2)).
Proof. vm_compute. reflexivity. Qed.

Example div_agrees :
  Prim2SF ((59 + 1 / 3) / 2)
  = to_spec (num_div (num_add (of_Z 59) (num_div (of_Z 1) (of_Z 3)))
                     (of_Z 2)).
Proof. vm_compute. reflexivity. Qed.

Example subnormal_tie_agrees :
  Prim2SF (0x3p-1074 / 2) = to_spec (num_div (Fin 3) (of_Z 2)).
Proof. vm_compute. reflexivity. Qed.

Example overflow_agrees :
  Prim2SF (0x1.fffffffffffffp+1023 + 0x1p+970)
  = to_spec (num_add (Fin ((2 ^ 53 - 1) * 2 ^ 2045)) (Fin (2 ^ 2044))) /\
  Prim2SF (0x1.fffffffffffffp+1023 + 0x1p+969)
  = to_spec (num_add (Fin ((2 ^ 53 - 1) * 2 ^ 2045)) (Fin (2 ^ 2043))).
Proof. vm_compute. split; reflexivity. Qed.

Example large_integer_agrees :
  Prim2SF 0x1.8ee90ff6c373ep+96
  = to_spec (parseFloat (js "123456789012345678901234567890")).
Proof. vm_compute. reflexivity. Qed.

End FloatSamples.

(* ================================================================= *)
(** ** Rounding *)

Section NumberFacts.
Local Open Scope Z_scope.

Ltac leb_lia := first [reflexivity | apply Z.leb_le; lia].

Lemma pow2_pos b : 0 <= b -> 0 < 2 ^ b.
Proof. intros. now apply Z.pow_pos_nonneg. Qed.

Lemma ulp_exp_nonneg q : 0 <= ulp_exp q.
Proof. unfold ulp_exp. lia. Qed.

Lemma ulp_exp_mono a b : a <= b -> ulp_exp a <= ulp_exp b.
Proof.
  intros H. unfold ulp_exp. pose proof (Z.log2_le_mono a b H). lia.
Qed.

(** A multiple of 2^b is a multiple of every smaller power of two. *)
Lemma mul_pow2_mod m b e : 0 <= e <= b -> (m * 2 ^ b) mod 2 ^ e = 0.
Proof.
  intros H. replace b with (b - e + e) by lia.
  rewrite Z.pow_add_r by lia. rewrite Z.mul_assoc.
  apply Z_mod_mult.
Qed.

(** A significand of at most 53 bits (or 2^53 itself) scaled by a power of
    two is a double. *)
Lemma significand_representable c b :
  0 <= c <= 2 ^ 53 -> 0 <= b ->
  (c * 2 ^ b) mod 2 ^ ulp_exp (c * 2 ^ b) = 0.
Proof.
  intros Hc Hb.
  destruct (Z.eq_dec c 0) as [->|Hc0].
  { rewrite Z.mul_0_l. apply Zmod_0_l. }
  assert (Hlog : Z.log2 (c * 2 ^ b) = b + Z.log2 c)
    by (apply Z.log2_mul_pow2; lia).
  assert (H53 : Z.log2 c <= 53).
  { replace 53 with (Z.log2 (2 ^ 53)) by (now rewrite Z.log2_pow2).
    apply Z.log2_le_mono. lia. }
  unfold ulp_exp. rewrite Hlog.
  destruct (Z.eq_dec (Z.log2 c) 53) as [E|E].
  - assert (c = 2 ^ 53).
    { destruct (Z.log2_spec c) as [Hlo _]; [lia|]. rewrite E in Hlo. lia. }
    subst c. rewrite <- Z.pow_add_r by lia.
    replace (Z.max 0 (b + Z.log2 (2 ^ 53) - 52)) with (b + 1)
      by (rewrite Z.log2_pow2; lia).
    replace (53 + b) with (52 + (b + 1)) by lia.
    rewrite Z.pow_add_r by lia. apply Z_mod_mult.
  - apply mul_pow2_mod. lia.
Qed.

Lemma div_pow2_bound q b :
  0 <= q -> ulp_exp q <= b -> q / 2 ^ b < 2 ^ 53.
Proof.
  intros Hq Hb. unfold ulp_exp in Hb.
  assert (0 <= b) by lia.
  apply Z.div_lt_upper_bound; [now apply pow2_pos|].
  rewrite <- Z.pow_add_r by lia.
  destruct (Z.eq_dec q 0) as [->|H0]; [apply pow2_pos; lia|].
  destruct (Z.log2_spec q) as [_ Hhi]; [lia|].
  eapply Z.lt_le_trans; [exact Hhi|].
  apply Z.pow_le_mono_r; lia.
Qed.

(** Rounding a non-negative quotient gives a non-negative double or
    overflows. *)
Lemma round_pos_valid n d :
  0 <= n -> 0 < d ->
  round_pos n d = Inf false \/
  exists k, round_pos n d = Fin k /\ 0 <= k /\ representable k.
Proof.
  intros Hn Hd. unfold round_pos.
  set (b := ulp_exp (n / d)).
  assert (Hb : 0 <= b) by apply ulp_exp_nonneg.
  assert (Hu : 0 < d * 2 ^ b) by (pose proof (pow2_pos b Hb); nia).
  set (c := n / (d * 2 ^ b)).
  assert (Hc : 0 <= c < 2 ^ 53).
  { split; [apply Z.div_pos; lia|].
    unfold c. rewrite <- Z.div_div by (try apply pow2_pos; lia).
    apply div_pow2_bound; [apply Z.div_pos; lia | unfold b; lia]. }
  set (c' := match 2 * (n mod (d * 2 ^ b)) ?= d * 2 ^ b with
             | Lt => c | Gt => c + 1
             | Eq => if Z.even c then c else c + 1 end).
  assert (Hc' : 0 <= c' <= 2 ^ 53).
  { unfold c'. destruct (_ ?= _); [destruct (Z.even c)| |]; lia. }
  destruct (c' * 2 ^ b <? 2 ^ 2098) eqn:E; [right | now left].
  exists (c' * 2 ^ b). apply Z.ltb_lt in E.
  assert (0 <= c' * 2 ^ b) by (pose proof (pow2_pos b Hb); nia).
  split; [reflexivity|]. split; [assumption|].
  unfold representable. rewrite Z.abs_eq by assumption.
  split; [assumption|]. now apply significand_representable.
Qed.

(** Rounding an integer number of units that lies below a double never
    passes that double. *)
Lemma round_pos_le v t :
  0 <= v <= t -> representable t ->
  exists k, round_pos v 1 = Fin k /\ 0 <= k <= t.
Proof.
  intros Hv [Hmax Hmod]. rewrite Z.abs_eq in Hmax, Hmod by lia.
  unfold round_pos. rewrite Z.div_1_r, Z.mul_1_l.
  set (b := ulp_exp v).
  assert (Hb : 0 <= b) by apply ulp_exp_nonneg.
  pose proof (pow2_pos b Hb) as Hu.
  assert (Ht : t mod 2 ^ b = 0).
  { pose proof (ulp_exp_mono v t (proj2 Hv)) as Hle. fold b in Hle.
    apply Z.mod_divide in Hmod; [|pose proof (pow2_pos _ (ulp_exp_nonneg t)); lia].
    destruct Hmod as [m ->]. apply mul_pow2_mod. lia. }
  apply Z.mod_divide in Ht; [|lia]. destruct Ht as [t' ->].
  pose proof (Z.div_mod v (2 ^ b) ltac:(lia)) as Hdm.
  pose proof (Z.mod_pos_bound v (2 ^ b) Hu) as Hr.
  set (c := v / 2 ^ b) in *. set (r := v mod 2 ^ b) in *.
  assert (Hc0 : 0 <= c) by (apply Z.div_pos; lia).
  set (c' := match 2 * r ?= 2 ^ b with
             | Lt => c | Gt => c + 1
             | Eq => if Z.even c then c else c + 1 end).
  assert (Hc' : c <= c' /\ (c' = c \/ 0 < r /\ c' = c + 1)).
  { unfold c'. destruct (2 * r ?= 2 ^ b) eqn:E.
    - apply Z.compare_eq in E. destruct (Z.even c); lia.
    - lia.
    - apply Z.compare_gt_iff in E. lia. }
  assert (Hk : c' * 2 ^ b <= t' * 2 ^ b).
  { clearbody c r. destruct Hc' as [_ [->|[Hr0 ->]]]; [lia|].
    apply Z.mul_le_mono_nonneg_r; [lia|].
    assert (c < t'); [|lia].
    apply (Z.mul_lt_mono_pos_r (2 ^ b)); lia. }
  exists (c' * 2 ^ b).
  replace (c' * 2 ^ b <? 2 ^ 2098) with true
    by (symmetry; apply Z.ltb_lt; lia).
  split; [reflexivity|]. nia.
Qed.

Lemma representable_0 : representable 0.
Proof. split; reflexivity. Qed.

Lemma num_add_unsigned x y :
  unsigned_sum x -> unsigned_sum y -> unsigned_sum (num_add x y).
Proof.
  destruct x as [|[]|a], y as [|[]|b]; cbn; try tauto; try discriminate.
  intros Ha Hb. unfold round_ratio.
  replace (a + b <? 0) with false by (symmetry; apply Z.ltb_ge; lia).
  destruct (round_pos_valid (a + b) 1) as [->|(k & -> & Hk & _)];
    cbn; lia.
Qed.

(** The clamped difference of a finite cost and a sum of unsigned costs
    lies between zero and the cost. *)
Lemma clamped_difference_bounds t s :
  0 <= t -> representable t -> unsigned_sum s ->
  let e := num_sub (Fin t) s in
  let x := if num_ltb e zero then zero else e in
  num_leb zero x = true /\ num_leb x (Fin t) = true.
Proof.
  intros Ht Hrep Hs.
  destruct s as [|[]|sk]; cbn in Hs; try contradiction; try discriminate.
  - cbn. split; leb_lia.
  - cbn [num_sub num_neg num_add]. unfold round_ratio.
    destruct (t + - sk <? 0) eqn:E.
    + apply Z.ltb_lt in E.
      destruct (round_pos_valid (- (t + - sk)) 1) as [->|(k & -> & Hk & _)];
        [lia | lia | |].
      * cbn. split; leb_lia.
      * cbn [num_neg num_ltb zero].
        destruct (- k <? 0) eqn:E'; cbn; split; leb_lia.
    + apply Z.ltb_ge in E.
      destruct (round_pos_le (t + - sk) t) as (k & -> & Hk); [lia|assumption|].
      cbn [num_ltb zero].
      replace (k <? 0) with false by (symmetry; apply Z.ltb_ge; lia).
      cbn. split; leb_lia.
Qed.

(** Whatever the operands, a clamped value is not below zero. *)
Lemma clamped_not_negative e :
  num_ltb (if num_ltb e zero then zero else e) zero = false.
Proof. destruct (num_ltb e zero) eqn:E; [reflexivity | exact E]. Qed.

End NumberFacts.

(* ================================================================= *)
(** ** The scan keeps its invariant *)

Section ParserFacts.

Lemma length_update k f l : List.length (update k f l) = List.length l.
Proof.
  revert k. induction l as [|x l IH]; intros [|k]; cbn; auto.
Qed.

Lemma nth_error_update k f l i :
  nth_error (update k f l) i =
  if Nat.eqb i k then option_map f (nth_error l i) else nth_error l i.
Proof.
  revert k i. induction l as [|x l IH]; intros [|k] [|i]; cbn; auto;
    now destruct (Nat.eqb _ _).
Qed.

Lemma assign_fresh l v : assign l (List.length l) v = l ++ [v].
Proof. unfold assign. now rewrite Nat.ltb_irrefl. Qed.

Lemma children_of_update_same k f l :
  (forall n, children (f n) = children n) ->
  forall i, children_of (update k f l) i = children_of l i.
Proof.
  intros Hf i. unfold children_of. rewrite nth_error_update.
  destruct (Nat.eqb i k); [|reflexivity].
  destruct (nth_error l i); cbn; auto.
Qed.

Lemma children_of_push k child l i :
  k < List.length l ->
  children_of (update k (push_child child) l) i =
  if Nat.eqb i k then children_of l i ++ [child] else children_of l i.
Proof.
  intros Hk. unfold children_of. rewrite nth_error_update.
  destruct (Nat.eqb i k) eqn:E; [|reflexivity].
  apply Nat.eqb_eq in E. subst i.
  destruct (nth_error l k) eqn:E; [reflexivity|].
  apply nth_error_None in E. lia.
Qed.

Lemma children_of_snoc l v i :
  children_of (l ++ [v]) i =
  if Nat.eqb i (List.length l) then children v else children_of l i.
Proof.
  unfold children_of. destruct (Nat.eqb i (List.length l)) eqn:E.
  - apply Nat.eqb_eq in E. subst i. now rewrite nth_error_app2, Nat.sub_diag.
  - apply Nat.eqb_neq in E.
    destruct (Nat.lt_ge_cases i (List.length l)) as [H|H].
    + now rewrite nth_error_app1.
    + rewrite (proj2 (nth_error_None _ _)) by (rewrite length_app; cbn; lia).
      now rewrite (proj2 (nth_error_None _ _)) by lia.
Qed.

(** Positions below the last one read the same after a push. *)
Lemma nth_snoc_old (ind : list nat) x k :
  k < List.length ind -> nth k (ind ++ [x]) 0 = nth k ind 0.
Proof. intros H. now apply app_nth1. Qed.

Lemma nth_snoc_new (ind : list nat) x :
  nth (List.length ind) (ind ++ [x]) 0 = x.
Proof. now rewrite app_nth2, Nat.sub_diag by lia. Qed.

Lemma stack_inv_snoc ind x stack hi v :
  hi <= List.length ind ->
  stack_inv ind stack hi v -> stack_inv (ind ++ [x]) stack hi v.
Proof.
  revert hi v. induction stack as [|e rest IH]; intros hi v Hhi; cbn.
  - intros H k Hk. rewrite nth_snoc_old by lia. auto.
  - intros (H1 & H2 & H3 & H4 & H5).
    repeat split; auto.
    + rewrite nth_snoc_old by lia. exact H2.
    + intros k Hk. rewrite nth_snoc_old by lia. auto.
    + apply IH; [lia | exact H5].
Qed.

(** Popping down to the first entry indented less than [x]. *)
Lemma pop_while_inv ind x n stack hi v :
  hi <= n ->
  stack_inv ind stack hi v ->
  x <= v ->
  (forall k, hi <= k < n -> x <= nth k ind 0) ->
  stack_inv ind (pop_while x stack) n x.
Proof.
  revert hi v. induction stack as [|e rest IH]; intros hi v Hhi Hinv Hx Hk.
  - cbn in *. intros k Hlt.
    destruct (Nat.lt_ge_cases k hi) as [H|H]; [|apply Hk; lia].
    specialize (Hinv k H). lia.
  - cbn [pop_while]. destruct Hinv as (H1 & H2 & H3 & H4 & H5).
    assert (Hmid : forall k, entry_id e < k < n -> x <= nth k ind 0).
    { intros k Hlt.
      destruct (Nat.lt_ge_cases k hi) as [H|H]; [|apply Hk; lia].
      specialize (H4 k (conj (proj1 Hlt) H)). lia. }
    destruct (x <=? entry_indentation e) eqn:E.
    + apply Nat.leb_le in E.
      apply (IH (entry_id e) (entry_indentation e)); auto; [lia|].
      intros k Hlt.
      destruct (Nat.eq_dec k (entry_id e)) as [->|Hne]; [lia|].
      apply Hmid. lia.
    + apply Nat.leb_gt in E. cbn. repeat split; auto; lia.
Qed.

Lemma pop_while_top_inv ind x stack :
  stack_top_inv ind stack ->
  stack_inv ind (pop_while x stack) (List.length ind) x.
Proof.
  destruct stack as [|top rest]; cbn [stack_top_inv pop_while].
  - intros ->. cbn. intros k Hk. lia.
  - intros (H1 & H2 & H3).
    destruct (x <=? entry_indentation top) eqn:E.
    + apply Nat.leb_le in E.
      apply (pop_while_inv ind x _ rest (entry_id top)
               (entry_indentation top)); auto; [lia|].
      intros k Hk. replace k with (entry_id top) by lia. lia.
    + apply Nat.leb_gt in E. cbn. repeat split; auto; try lia.
Qed.


Lemma child_of_bound ind i j : child_of ind i j -> i < j < List.length ind.
Proof. now intros [H _]. Qed.

Lemma child_of_snoc_old ind x i j :
  j < List.length ind -> child_of (ind ++ [x]) i j <-> child_of ind i j.
Proof.
  intros Hj. unfold child_of. rewrite length_app. cbn [List.length].
  split; intros (H1 & H2 & H3).
  - rewrite !nth_snoc_old in H2 by lia. repeat split; try lia.
    intros k Hk. specialize (H3 k Hk). now rewrite !nth_snoc_old in H3 by lia.
  - rewrite !nth_snoc_old by lia. repeat split; try lia.
    intros k Hk. rewrite nth_snoc_old by lia. auto.
Qed.

Lemma child_of_snoc_new ind x i :
  child_of (ind ++ [x]) i (List.length ind) <->
  i < List.length ind /\ nth i ind 0 < x /\
  forall k, i < k < List.length ind -> x <= nth k ind 0.
Proof.
  unfold child_of. rewrite length_app, nth_snoc_new. cbn [List.length].
  split.
  - intros (H1 & H2 & H3). rewrite nth_snoc_old in H2 by lia.
    repeat split; try lia.
    intros k Hk. specialize (H3 k Hk). now rewrite nth_snoc_old in H3 by lia.
  - intros (H1 & H2 & H3). rewrite nth_snoc_old by lia.
    repeat split; try lia.
    intros k Hk. rewrite nth_snoc_old by lia. auto.
Qed.

(** After the pops, the top of the stack is the one node the new line is
    directly below; an empty stack means there is none. *)
Lemma parent_unique ind x e rest i :
  stack_inv ind (e :: rest) (List.length ind) x ->
  (i < List.length ind /\ nth i ind 0 < x /\
   forall k, i < k < List.length ind -> x <= nth k ind 0)
  <-> i = entry_id e.
Proof.
  cbn. intros (H1 & H2 & H3 & H4 & _). split.
  - intros (Hi & Hlt & Hbetween).
    destruct (Nat.lt_trichotomy i (entry_id e)) as [H|[H|H]]; [|exact H|].
    + specialize (Hbetween (entry_id e) (conj H H1)). lia.
    + specialize (H4 i (conj H Hi)). lia.
  - intros ->. repeat split; try lia. exact H4.
Qed.

Lemma no_parent ind x i :
  stack_inv ind [] (List.length ind) x ->
  ~ (i < List.length ind /\ nth i ind 0 < x /\
     forall k, i < k < List.length ind -> x <= nth k ind 0).
Proof.
  cbn. intros H (Hi & Hlt & _). specialize (H i Hi). lia.
Qed.

Lemma StronglySorted_snoc (l : list nat) n :
  StronglySorted lt l -> (forall x, In x l -> x < n) ->
  StronglySorted lt (l ++ [n]).
Proof.
  induction 1 as [|a l Hs IH Ha]; intros Hn; cbn.
  - repeat constructor.
  - constructor.
    + apply IH. intros x Hx. apply Hn. now right.
    + apply Forall_app. split; [exact Ha|].
      constructor; [|constructor]. apply Hn. now left.
Qed.

Lemma Forall_update (P : node_info -> Prop) k f l :
  (forall n, P n -> P (f n)) -> Forall P l -> Forall P (update k f l).
Proof.
  intros Hf H. revert k. induction H as [|x l Hx Hl IH]; intros [|k]; cbn;
    constructor; auto.
Qed.

Lemma run_length_prefix p s :
  Forall (fun c => p c = true) (firstn (run_length p s) s).
Proof.
  induction s as [|c s IH]; cbn; [constructor|].
  destruct (p c) eqn:E; cbn; constructor; auto.
Qed.

Lemma digits_value_nonneg s :
  Forall (fun c => is_digit c = true) s ->
  forall acc, (0 <= acc -> 0 <= digits_value acc s)%Z.
Proof.
  induction 1 as [|c s Hc _ IH]; intros acc Hacc; cbn [digits_value];
    [exact Hacc|].
  apply IH. unfold is_digit in Hc. apply andb_prop in Hc.
  destruct Hc as [Hc _]. apply N.leb_le in Hc. lia.
Qed.

Lemma of_decimal_unsigned n f :
  (0 <= n)%Z -> unsigned_cost (of_decimal n f).
Proof.
  intros Hn. unfold of_decimal, round_ratio.
  assert (Hu : (0 < unit)%Z) by (unfold unit; apply pow2_pos; lia).
  assert (Hnu : (0 <= n * unit)%Z) by (apply Z.mul_nonneg_nonneg; lia).
  replace (n * unit <? 0)%Z with false by (symmetry; apply Z.ltb_ge; lia).
  destruct (round_pos_valid (n * unit) (10 ^ Z.of_nat f))
    as [->|(k & -> & Hk & Hrep)]; cbn; auto.
  apply Z.pow_pos_nonneg; lia.
Qed.

Lemma parseFloat_unsigned s : unsigned_cost (parseFloat s).
Proof.
  unfold parseFloat.
  set (int_part := firstn (run_length is_digit s) s).
  set (frac_part := match skipn (run_length is_digit s) s with
                    | c :: rest =>
                        if (c =? 46)%N
                        then firstn (run_length is_digit rest) rest else []
                    | [] => []
                    end).
  assert (Hd : Forall (fun c => is_digit c = true) (int_part ++ frac_part)).
  { apply Forall_app. split; [apply run_length_prefix|].
    unfold frac_part. destruct (skipn _ s) as [|c rest]; [constructor|].
    destruct (c =? 46)%N; [apply run_length_prefix | constructor]. }
  pose proof (of_decimal_unsigned _ (List.length frac_part)
                (digits_value_nonneg _ Hd 0%Z (Z.le_refl 0))) as H.
  destruct int_part, frac_part; cbn; auto.
Qed.

Lemma line_cost_unsigned content : unsigned_cost (line_cost content).
Proof.
  unfold line_cost. destruct (exec costRegex content) as [[i caps]|].
  - apply parseFloat_unsigned.
  - cbn. split; [lia | apply representable_0].
Qed.

Lemma push_detail_unsigned content cost n :
  unsigned_cost cost -> unsigned_cost (totalCost n) ->
  unsigned_cost (totalCost (push_detail content cost n)).
Proof. intros Hc Hn. cbn. now destruct (_ && _). Qed.

(** The three things a line can do. *)
Lemma step_arrow st line :
  is_arrow line = true ->
  step st line =
  let stack := pop_while (search_nonspace_or_end line) (nodeStack st) in
  {| idCounter := S (idCounter st);
     nodeStack := {| entry_id := idCounter st;
                     entry_indentation := search_nonspace_or_end line |}
                  :: stack;
     nodeInfos :=
       assign
         match stack with
         | parent :: _ =>
             update (entry_id parent) (push_child (idCounter st))
               (nodeInfos st)
         | [] => nodeInfos st
         end
         (idCounter st)
         {| details := [replace_anchored arrowRegex [] (trim line)];
            totalCost := line_cost (trim line); children := [] |};
     edgeList :=
       match stack with
       | parent :: _ =>
           edgeList st
           ++ [node_id (entry_id parent) ++ js " --> "
               ++ node_id (idCounter st)]
       | [] => edgeList st
       end |}.
Proof. unfold is_arrow, step. now intros ->. Qed.

Lemma step_root st line :
  is_arrow line = false -> nodeStack st = [] ->
  step st line =
  {| idCounter := S (idCounter st);
     nodeStack := [ {| entry_id := idCounter st;
                       entry_indentation := search_nonspace_or_end line |} ];
     nodeInfos := assign (nodeInfos st) (idCounter st)
                    {| details := [trim line];
                       totalCost := line_cost (trim line);
                       children := [] |};
     edgeList := edgeList st |}.
Proof. unfold is_arrow, step. now intros -> ->. Qed.

Lemma step_continuation st line last rest :
  is_arrow line = false -> nodeStack st = last :: rest ->
  step st line =
  {| idCounter := idCounter st;
     nodeStack := nodeStack st;
     nodeInfos := update (entry_id last)
                    (push_detail (trim line) (line_cost (trim line)))
                    (nodeInfos st);
     edgeList := edgeList st |}.
Proof. unfold is_arrow, step. intros -> E. now rewrite E. Qed.


Lemma invariant_initial : invariant initial [].
Proof.
  constructor; cbn; auto.
  - intros i j. unfold children_of, child_of.
    destruct i; cbn; split; intros; try contradiction; lia.
  - intros i. unfold children_of. destruct i; cbn; constructor.
  - intros e. split; [intros []|]. intros (i & j & H & _).
    apply child_of_bound in H. cbn in H. lia.
Qed.

Lemma old_children_below st ind i j :
  invariant st ind -> In j (children_of (nodeInfos st) i) ->
  j < List.length (nodeInfos st).
Proof.
  intros Hinv H. apply (inv_children _ _ Hinv) in H.
  apply child_of_bound in H. rewrite <- (inv_length _ _ Hinv). lia.
Qed.

Lemma arrow_preserves st ind line :
  is_arrow line = true ->
  invariant st ind ->
  invariant (step st line) (ind ++ [search_nonspace_or_end line]).
Proof.
  intros Ea Hinv. pose proof Hinv as [Hc Hl Hs Hch Hso Hed Hco].
  rewrite (step_arrow _ _ Ea). cbv zeta.
  set (x := search_nonspace_or_end line).
  pose proof (pop_while_top_inv ind x _ Hs) as Hpop.
  set (stack := pop_while x (nodeStack st)) in *.
  rewrite Hc, <- Hl.
  set (infos' := match stack with
                 | parent :: _ =>
                     update (entry_id parent) (push_child (List.length ind))
                       (nodeInfos st)
                 | [] => nodeInfos st
                 end).
  assert (Hlen : List.length infos' = List.length ind).
  { unfold infos'. rewrite Hl.
    destruct stack; [reflexivity | apply length_update]. }
  assert (Hfresh : forall v, assign infos' (List.length ind) v = infos' ++ [v]).
  { intros v. rewrite <- Hlen. apply assign_fresh. }
  rewrite Hfresh.
  assert (Hold : forall i j,
             In j (children_of (nodeInfos st) i) -> j < List.length ind).
  { intros i j H. rewrite Hl. apply (old_children_below st ind i j Hinv H). }
  assert (Hpush : forall e rest i, stack = e :: rest ->
             children_of infos' i =
             if Nat.eqb i (entry_id e)
             then children_of (nodeInfos st) i ++ [List.length ind]
             else children_of (nodeInfos st) i).
  { intros e rest i E. unfold infos'. rewrite E. rewrite E in Hpop.
    destruct Hpop as (Hp & _). apply children_of_push. lia. }
  assert (Hnone : stack = [] -> infos' = nodeInfos st).
  { intros E. unfold infos'. now rewrite E. }
  assert (Hco' : Forall (fun n => unsigned_cost (totalCost n)) infos').
  { unfold infos'. destruct stack; [exact Hco|].
    apply Forall_update; [|exact Hco]. now intros []. }
  clearbody infos'.
  constructor; cbn [idCounter nodeStack nodeInfos].
  - rewrite length_app, Hlen. cbn. lia.
  - rewrite !length_app, Hlen. cbn. lia.
  - cbn. rewrite length_app. cbn [List.length].
    rewrite nth_snoc_new. repeat split; [lia|].
    apply stack_inv_snoc; [lia | exact Hpop].
  - intros i j. rewrite children_of_snoc, Hlen. cbn [children].
    destruct (Nat.eqb i (List.length ind)) eqn:Ei.
    { apply Nat.eqb_eq in Ei. subst i. split; [intros []|].
      intros H. apply child_of_bound in H. rewrite length_app in H.
      cbn in H. lia. }
    apply Nat.eqb_neq in Ei.
    destruct (Nat.lt_trichotomy j (List.length ind)) as [Hj|[Hj|Hj]].
    + rewrite child_of_snoc_old by lia. rewrite <- Hch.
      destruct stack as [|e rest] eqn:Es; [now rewrite Hnone|].
      rewrite (Hpush e rest i eq_refl).
      destruct (Nat.eqb i (entry_id e)); [|tauto].
      rewrite in_app_iff. cbn. split; [|tauto].
      intros [H|[H|[]]]; [exact H | lia].
    + subst j. rewrite child_of_snoc_new.
      destruct stack as [|e rest] eqn:Es.
      * rewrite Hnone by reflexivity.
        split; [intros H; apply Hold in H; lia|].
        intros H. exfalso. revert H. now apply no_parent.
      * rewrite (parent_unique ind x e rest i Hpop).
        rewrite (Hpush e rest i eq_refl).
        destruct (Nat.eqb i (entry_id e)) eqn:E.
        -- apply Nat.eqb_eq in E. rewrite in_app_iff. cbn. tauto.
        -- apply Nat.eqb_neq in E. split; [|tauto].
           intros H. apply Hold in H. lia.
    + split.
      * intros H. exfalso.
        assert (j < List.length ind \/ j = List.length ind); [|lia].
        destruct stack as [|e rest] eqn:Es.
        -- rewrite Hnone in H by reflexivity. left. now apply (Hold i).
        -- rewrite (Hpush e rest i eq_refl) in H.
           destruct (Nat.eqb i (entry_id e)).
           ++ apply in_app_iff in H. cbn in H.
              destruct H as [H|[H|[]]]; [left; now apply (Hold i) | now right].
           ++ left. now apply (Hold i).
      * intros H. apply child_of_bound in H. rewrite length_app in H.
        cbn in H. lia.
  - intros i. rewrite children_of_snoc, Hlen. cbn [children].
    destruct (Nat.eqb i (List.length ind)); [constructor|].
    destruct stack as [|e rest] eqn:Es; [rewrite Hnone by reflexivity; apply Hso|].
    rewrite (Hpush e rest i eq_refl).
    destruct (Nat.eqb i (entry_id e)); [|apply Hso].
    apply StronglySorted_snoc; [apply Hso | apply Hold].
  - intros t. cbn [edgeList].
    assert (Hkeep : (exists i j, child_of ind i j /\
                       t = node_id i ++ js " --> " ++ node_id j) ->
                    exists i j, child_of (ind ++ [x]) i j /\
                       t = node_id i ++ js " --> " ++ node_id j).
    { intros (i & j & H & E). exists i, j. split; [|exact E].
      apply child_of_snoc_old; [|exact H]. apply child_of_bound in H. lia. }
    assert (Hsplit : (exists i j, child_of (ind ++ [x]) i j /\
                        t = node_id i ++ js " --> " ++ node_id j) ->
                     (exists i j, child_of ind i j /\
                        t = node_id i ++ js " --> " ++ node_id j) \/
                     exists i, child_of (ind ++ [x]) i (List.length ind) /\
                        t = node_id i ++ js " --> "
                            ++ node_id (List.length ind)).
    { intros (i & j & H & E).
      destruct (Nat.eq_dec j (List.length ind)) as [->|Hne].
      - right. now exists i.
      - left. exists i, j. split; [|exact E].
        apply (child_of_snoc_old ind x); [|exact H].
        apply child_of_bound in H. rewrite length_app in H. cbn in H. lia. }
    destruct stack as [|e rest] eqn:Es.
    + rewrite Hed. split; [exact Hkeep|].
      intros H. destruct (Hsplit H) as [H'|(i & H' & _)]; [exact H'|].
      apply child_of_snoc_new in H'. exfalso. revert H'. now apply no_parent.
    + rewrite in_app_iff, Hed. cbn [In]. split.
      * intros [H|[<-|[]]]; [now apply Hkeep|].
        exists (entry_id e), (List.length ind). split; [|reflexivity].
        apply child_of_snoc_new. now apply (parent_unique ind x e rest).
      * intros H. destruct (Hsplit H) as [H'|(i & H' & E)]; [now left|].
        right. left. apply child_of_snoc_new in H'.
        apply (parent_unique ind x e rest i Hpop) in H'. now subst i.
  - apply Forall_app. split; [exact Hco'|].
    constructor; [|constructor]. cbn. apply line_cost_unsigned.
Qed.

Lemma root_preserves st ind line :
  is_arrow line = false -> nodeStack st = [] ->
  invariant st ind ->
  invariant (step st line) (ind ++ [search_nonspace_or_end line]).
Proof.
  intros Ea Es [Hc Hl Hs Hch Hso Hed Hco].
  rewrite (step_root _ _ Ea Es). rewrite Es in Hs. cbn in Hs. subst ind.
  destruct (nodeInfos st) as [|? ?] eqn:Ei; [|discriminate].
  rewrite Hc. cbn.
  constructor; cbn; auto.
  - repeat split. intros k Hk. lia.
  - intros i j. unfold children_of, child_of. cbn.
    destruct i as [|[|i]]; cbn; split; intros; try contradiction; lia.
  - intros i. unfold children_of. destruct i as [|[|i]]; cbn; constructor.
  - intros e. rewrite Hed. split; intros (i & j & H & _);
      apply child_of_bound in H; cbn in H; lia.
  - constructor; [|constructor]. cbn. apply line_cost_unsigned.
Qed.

Lemma continuation_preserves st ind line last rest :
  is_arrow line = false -> nodeStack st = last :: rest ->
  invariant st ind ->
  invariant (step st line) ind.
Proof.
  intros Ea Es [Hc Hl Hs Hch Hso Hed Hco].
  rewrite (step_continuation _ _ _ _ Ea Es).
  constructor; cbn [idCounter nodeStack nodeInfos];
    rewrite ?length_update; auto.
  - intros i j. rewrite children_of_update_same by reflexivity. apply Hch.
  - intros i. rewrite children_of_update_same by reflexivity. apply Hso.
  - apply Forall_update; [|exact Hco].
    intros n Hn. apply push_detail_unsigned; [apply line_cost_unsigned|exact Hn].
Qed.

Lemma ghost_step_preserves si line :
  invariant (fst si) (snd si) ->
  invariant (fst (ghost_step si line)) (snd (ghost_step si line)).
Proof.
  destruct si as [st ind]. unfold ghost_step, opens_node. cbn [fst snd].
  intros Hinv. destruct (is_arrow line) eqn:Ea; cbn [orb].
  - now apply arrow_preserves.
  - destruct (nodeStack st) as [|last rest] eqn:Es.
    + now apply root_preserves.
    + now apply (continuation_preserves st ind line last rest).
Qed.

Lemma ghost_fold_invariant lines :
  forall si, invariant (fst si) (snd si) ->
  invariant (fst (fold_left ghost_step lines si))
            (snd (fold_left ghost_step lines si)).
Proof.
  induction lines as [|line rest IH]; intros si H; [exact H|].
  cbn [fold_left]. apply IH. now apply ghost_step_preserves.
Qed.

Lemma ghost_fold_state lines :
  forall si, fst (fold_left ghost_step lines si) = fold_left step lines (fst si).
Proof.
  induction lines as [|line rest IH]; intros si; [reflexivity|].
  cbn [fold_left]. now rewrite IH.
Qed.

Lemma step_stack_nonempty st line : nodeStack (step st line) <> [].
Proof.
  unfold step. destruct (startsWith _ _); [discriminate|].
  destruct (nodeStack st); cbn; discriminate.
Qed.

Lemma ghost_fold_indents lines :
  forall si, nodeStack (fst si) <> [] ->
  snd (fold_left ghost_step lines si)
  = snd si ++ map search_nonspace_or_end (filter is_arrow lines).
Proof.
  induction lines as [|line rest IH]; intros [st ind] Hne; cbn [fold_left].
  - cbn. now rewrite app_nil_r.
  - rewrite IH by (cbn; apply step_stack_nonempty).
    cbn [ghost_step fst snd filter]. unfold opens_node.
    cbn [fst snd] in Hne.
    destruct (is_arrow line); cbn [orb map].
    + now rewrite <- app_assoc.
    + destruct (nodeStack st); [contradiction | reflexivity].
Qed.

Lemma map_update (A : Type) (g : node_info -> A) (P : node_info -> Prop)
  k f l :
  (forall n, P n -> g (f n) = g n) -> Forall P l ->
  map g (update k f l) = map g l.
Proof.
  intros Hf H. revert k. induction H as [|x l Hx Hl IH]; intros [|k]; cbn;
    try reflexivity.
  - now rewrite Hf.
  - now rewrite IH.
Qed.

Lemma step_details st texts line :
  details_invariant st texts ->
  details_invariant (step st line)
    (if opens_node st line then texts ++ [operator_text line] else texts).
Proof.
  intros [Hc Hf Hn]. unfold opens_node, operator_text.
  destruct (is_arrow line) eqn:Ea; cbn [orb].
  - rewrite (step_arrow _ _ Ea). cbv zeta.
    set (infos' := match pop_while _ (nodeStack st) with
                   | parent :: _ =>
                       update (entry_id parent) (push_child (idCounter st))
                         (nodeInfos st)
                   | [] => nodeInfos st
                   end).
    assert (Hlen : List.length infos' = idCounter st).
    { unfold infos'. rewrite Hc.
      destruct (pop_while _ _); [reflexivity | apply length_update]. }
    assert (Hf' : map (fun n => hd [] (details n)) infos' = texts).
    { unfold infos'. destruct (pop_while _ _); [exact Hf|].
      rewrite <- Hf. apply (map_update _ _ (fun _ => True)).
      - reflexivity.
      - apply Forall_forall. trivial. }
    assert (Hn' : Forall (fun n => details n <> []) infos').
    { unfold infos'. destruct (pop_while _ _); [exact Hn|].
      apply Forall_update; [|exact Hn]. now intros []. }
    clearbody infos'. rewrite <- Hlen, assign_fresh.
    constructor; cbn [idCounter nodeInfos].
    + rewrite length_app. cbn. lia.
    + rewrite map_app, Hf'. reflexivity.
    + apply Forall_app. split; [exact Hn'|]. repeat constructor. discriminate.
  - destruct (nodeStack st) as [|last rest] eqn:Es.
    + rewrite (step_root _ _ Ea Es), Hc, assign_fresh.
      constructor; cbn [idCounter nodeInfos].
      * rewrite length_app. cbn. lia.
      * rewrite map_app, Hf. reflexivity.
      * apply Forall_app. split; [exact Hn|]. repeat constructor. discriminate.
    + rewrite (step_continuation _ _ _ _ Ea Es).
      constructor; cbn [idCounter nodeInfos].
      * now rewrite length_update.
      * rewrite <- Hf.
        apply (map_update _ _ (fun n => details n <> [])); [|exact Hn].
        intros n Hne. cbn. now destruct (details n).
      * apply Forall_update; [|exact Hn].
        intros n _. cbn. now destruct (details n).
Qed.

Lemma fold_details lines :
  forall st texts,
    details_invariant st texts -> nodeStack st <> [] ->
    details_invariant (fold_left step lines st)
      (texts ++ map operator_text (filter is_arrow lines)).
Proof.
  induction lines as [|line rest IH]; intros st texts H Hne; cbn [fold_left].
  - cbn. now rewrite app_nil_r.
  - pose proof (step_details st texts line H) as H'.
    unfold opens_node in H'. cbn [filter].
    destruct (nodeStack st) as [|top more] eqn:Es; [contradiction|].
    rewrite orb_false_r in H'.
    destruct (is_arrow line); cbn [map].
    + replace (texts ++ operator_text line :: map operator_text
                 (filter is_arrow rest))
        with ((texts ++ [operator_text line])
              ++ map operator_text (filter is_arrow rest))
        by now rewrite <- app_assoc.
      apply IH; [exact H' | apply step_stack_nonempty].
    + apply IH; [exact H' | apply step_stack_nonempty].
Qed.

(** Every node keeps, as its first detail line, the operator text of the
    line that opened it. *)
Lemma scan_details lines :
  map (fun n => hd [] (details n)) (nodeInfos (scan lines))
  = map operator_text (opening_lines lines).
Proof.
  unfold scan. destruct lines as [|line rest]; [reflexivity|].
  cbn [fold_left opening_lines map].
  assert (H0 : details_invariant initial []) by (constructor; constructor).
  pose proof (step_details initial [] line H0) as H1.
  unfold opens_node in H1. cbn [initial nodeStack] in H1.
  rewrite orb_true_r in H1. cbn [app] in H1.
  apply (di_first _ _
           (fold_details rest _ _ H1 (step_stack_nonempty initial line))).
Qed.

(** The state reached on the lines of a plan satisfies the invariant for
    the indentations of its node-opening lines. *)
Lemma scan_invariant lines : invariant (scan lines) (opening_indents lines).
Proof.
  unfold scan.
  pose proof (ghost_fold_invariant lines (initial, []) invariant_initial) as H.
  rewrite ghost_fold_state in H. cbn [fst] in H.
  replace (opening_indents lines)
    with (snd (fold_left ghost_step lines (initial, []))); [exact H|].
  destruct lines as [|line rest]; [reflexivity|].
  cbn [fold_left]. rewrite ghost_fold_indents
    by (cbn; apply step_stack_nonempty).
  cbn [ghost_step fst snd]. unfold opens_node. cbn [initial nodeStack].
  rewrite orb_true_r. reflexivity.
Qed.

End ParserFacts.

(* ================================================================= *)
(** ** The tree and the exclusive costs *)

Section TreeFacts.

Lemma truthy_or_zero x :
  (if truthy x then x else zero)
  = (if is_nan x then zero else x).
Proof.
  destruct x as [| |k]; cbn; try reflexivity.
  destruct (k =? 0)%Z eqn:E; cbn; [|reflexivity].
  apply Z.eqb_eq in E. now subst.
Qed.

(** Children that all exist are read as the nodes themselves. *)
Lemma resolve_children (infos : list node_info) l :
  (forall j, In j l -> j < List.length infos) ->
  exists kids, map (nth_error infos) l = map Some kids.
Proof.
  induction l as [|j l IH]; intros H.
  - now exists [].
  - destruct IH as [kids E]; [intros; apply H; now right|].
    destruct (nth_error infos j) as [kid|] eqn:Ej.
    + exists (kid :: kids). cbn. now rewrite Ej, E.
    + apply nth_error_None in Ej. specialize (H j (or_introl eq_refl)). lia.
Qed.

Lemma children_sum (infos : list node_info) l :
  forall kids acc,
    map (nth_error infos) l = map Some kids ->
    fold_left
      (fun sum childId =>
         num_add sum
           match nth_error infos childId with
           | Some child =>
               if truthy (totalCost child) then totalCost child else zero
           | None => zero
           end) l acc
    = fold_left num_add (map counted_cost kids) acc.
Proof.
  induction l as [|j l IH]; intros [|kid kids] acc E; try discriminate;
    [reflexivity|].
  cbn in E. injection E as Ej E. cbn [fold_left map].
  rewrite Ej, truthy_or_zero. now apply IH.
Qed.

Lemma counted_cost_unsigned kid :
  unsigned_cost (totalCost kid) -> unsigned_sum (counted_cost kid).
Proof.
  unfold counted_cost. destruct (totalCost kid) as [|s|k]; cbn; try tauto.
  lia.
Qed.

Lemma sum_unsigned l :
  forall acc, unsigned_sum acc -> Forall unsigned_sum l ->
              unsigned_sum (fold_left num_add l acc).
Proof.
  induction l as [|x l IH]; intros acc Hacc H; [exact Hacc|].
  inversion H; subst. cbn [fold_left]. apply IH; [|assumption].
  now apply num_add_unsigned.
Qed.

Lemma map_snd_numbered {A} (g : node_info -> A) infos :
  map (fun kn => g (snd kn)) (numbered infos) = map g infos.
Proof.
  unfold numbered. generalize 0.
  induction infos as [|x l IH]; intros a; [reflexivity|].
  cbn. now rewrite IH.
Qed.

(** The maps of the result follow the nodes of the scan. *)
Lemma nodeDetailsMap_costs text theme :
  map (fun kv => nd_exclusiveCost (snd kv))
      (nodeDetailsMap (parseExplainToMermaid text theme))
  = map (exclusiveCost (nodeInfos (scan (plan_lines text))))
        (nodeInfos (scan (plan_lines text))).
Proof.
  unfold parseExplainToMermaid.
  destruct (plan_lines text) as [|l ls]; [reflexivity|].
  cbn [nodeDetailsMap]. rewrite map_map. cbn [snd nd_exclusiveCost].
  apply (map_snd_numbered
           (exclusiveCost (nodeInfos (scan (l :: ls))))).
Qed.

Lemma edges_of_scan text theme :
  edges (parseExplainToMermaid text theme) = edgeList (scan (plan_lines text)).
Proof.
  unfold parseExplainToMermaid. now destruct (plan_lines text).
Qed.

End TreeFacts.

(** C3, as the code has it.  In every parsed plan each child id of a node
    names a node, and the node's exclusive cost is its inclusive cost minus
    the sum of its children's inclusive costs (a NaN among them counting as
    zero), replaced by zero when that difference is negative; this is the
    cost put in the node map.  The exclusive cost is never below zero, and
    when the inclusive cost is a finite number it lies between zero and
    the inclusive cost, however large the children's sum. *)
Theorem exclusive_cost_clamped (text theme : jsstring) :
  let infos := nodeInfos (scan (plan_lines text)) in
  map (fun kv => nd_exclusiveCost (snd kv))
      (nodeDetailsMap (parseExplainToMermaid text theme))
  = map (exclusiveCost infos) infos /\
  Forall
    (fun node =>
       exists kids,
         map (nth_error infos) (children node) = map Some kids /\
         let difference :=
           num_sub (totalCost node)
                   (fold_left num_add (map counted_cost kids) zero) in
         exclusiveCost infos node
         = (if num_ltb difference zero then zero else difference) /\
         num_ltb (exclusiveCost infos node) zero = false /\
         match totalCost node with
         | Fin _ =>
             num_leb zero (exclusiveCost infos node) = true /\
             num_leb (exclusiveCost infos node) (totalCost node) = true
         | _ => True
         end)
    infos.
Proof.
  intros infos. split; [apply nodeDetailsMap_costs|].
  pose proof (scan_invariant (plan_lines text)) as Hinv. fold infos in Hinv.
  apply Forall_forall. intros node Hnode.
  destruct (In_nth_error _ _ Hnode) as [i Hi].
  assert (Hkids : forall j, In j (children node) -> j < List.length infos).
  { intros j Hj. apply (old_children_below _ _ i j Hinv).
    unfold children_of. fold infos. now rewrite Hi. }
  destruct (resolve_children infos _ Hkids) as [kids E].
  exists kids. split; [exact E|]. cbv zeta.
  assert (Hsum : childrenTotalCost infos node
                 = fold_left num_add (map counted_cost kids) zero)
    by (apply children_sum; exact E).
  unfold exclusiveCost. rewrite Hsum.
  split; [reflexivity|]. split; [apply clamped_not_negative|].
  destruct (totalCost node) as [| |t] eqn:Et; trivial.
  pose proof (inv_costs _ _ Hinv) as Hcosts. fold infos in Hcosts.
  rewrite Forall_forall in Hcosts.
  pose proof (Hcosts node Hnode) as Hn. rewrite Et in Hn. destruct Hn as [Ht Hr].
  apply clamped_difference_bounds; trivial.
  apply sum_unsigned; [cbn; lia|].
  apply Forall_forall. intros x Hx. apply in_map_iff in Hx.
  destruct Hx as (kid & <- & Hkid). apply counted_cost_unsigned.
  apply Hcosts.
  assert (Hin : In (Some kid) (map (nth_error infos) (children node)))
    by (rewrite E; now apply in_map).
  apply in_map_iff in Hin. destruct Hin as (j & Hj & _).
  now apply nth_error_In in Hj.
Qed.

(** The clamp at work on finite costs: 100 - (59 + 59.5) is negative, and
    the join gets the exclusive cost 0. *)
Example overdrawn_join_costs_nothing :
  let infos := nodeInfos (scan (plan_lines overdrawn_plan)) in
  map totalCost infos = [of_Z 100; of_Z 59; of_decimal 595 1] /\
  map (exclusiveCost infos) infos = [zero; of_Z 59; of_decimal 595 1].
Proof. vm_compute. split; reflexivity. Qed.

(** C3 as stated fails on a plan whose cost annotation ends in a lone
    point: the inclusive cost is NaN, the exclusive cost is NaN, and NaN is
    neither at least zero nor at most the inclusive cost. *)
Lemma exclusive_cost_nan :
  let infos := nodeInfos (scan (plan_lines point_cost_plan)) in
  map totalCost infos = [NaN] /\
  map (exclusiveCost infos) infos = [NaN] /\
  ~ Forall
      (fun node =>
         num_leb zero (exclusiveCost infos node) = true /\
         num_leb (exclusiveCost infos node) (totalCost node) = true)
      infos.
Proof.
  cbv zeta.
  assert (E : nodeInfos (scan (plan_lines point_cost_plan))
              = [ {| details := [point_cost_plan]; totalCost := NaN;
                     children := [] |} ])
    by (vm_compute; reflexivity).
  rewrite E. repeat split; try reflexivity.
  intros H. apply Forall_inv in H. destruct H as [H _]. discriminate H.
Qed.

(** C4, as the code has it.  Node [k] is the one opened by the [k]-th
    node-opening line, whose operator text is its first detail line; the
    children recorded for a node are, in the order
    of the text, exactly the later nodes indented strictly deeper than it
    such that every node-opening line in between is indented at least as
    deep as the child; the edges of the result are these pairs.  This is
    what popping the stack while its top is indented at least as deep as
    the line, and attaching the line to the remaining top, computes. *)
Theorem children_are_directly_nested (text theme : jsstring) :
  let lines := plan_lines text in
  let infos := nodeInfos (scan lines) in
  let ind := opening_indents lines in
  List.length infos = List.length ind /\
  map (fun n => hd [] (details n)) infos
  = map operator_text (opening_lines lines) /\
  (forall i j, In j (children_of infos i) <-> child_of ind i j) /\
  (forall i, StronglySorted lt (children_of infos i)) /\
  (forall e, In e (edges (parseExplainToMermaid text theme)) <->
             exists i j, child_of ind i j /\
                         e = node_id i ++ js " --> " ++ node_id j).
Proof.
  intros lines infos ind.
  pose proof (scan_invariant lines) as Hinv.
  split; [symmetry; apply (inv_length _ _ Hinv)|].
  split; [apply scan_details|].
  split; [exact (inv_children _ _ Hinv)|].
  split; [exact (inv_sorted _ _ Hinv)|].
  intros e. rewrite edges_of_scan. apply (inv_edges _ _ Hinv).
Qed.

(** C4 as stated fails on the default plan: the last line lies below the
    root, indented deeper than it with no line as shallow as the root in
    between, but it is a child of the [XN Hash] line, not of the root. *)
Lemma nested_line_is_not_a_child :
  let lines := plan_lines default_plan in
  let infos := nodeInfos (scan lines) in
  opening_indents lines = [0; 2; 2; 8] /\
  children_of infos 0 = [1; 2] /\
  children_of infos 2 = [3] /\
  ~ (forall i j, In j (children_of infos i)
                 <-> in_block_of (opening_indents lines) i j).
Proof.
  cbv zeta.
  assert (Ei : opening_indents (plan_lines default_plan) = [0; 2; 2; 8])
    by (vm_compute; reflexivity).
  assert (E0 : children_of (nodeInfos (scan (plan_lines default_plan))) 0
               = [1; 2]) by (vm_compute; reflexivity).
  assert (E2 : children_of (nodeInfos (scan (plan_lines default_plan))) 2
               = [3]) by (vm_compute; reflexivity).
  repeat split; trivial.
  intros H. specialize (H 0 3). rewrite E0, Ei in H.
  destruct H as [_ H].
  assert (Hb : in_block_of [0; 2; 2; 8] 0 3).
  { split; [cbn; lia|]. intros k Hk.
    destruct k as [|[|[|[|k]]]]; cbn; lia. }
  specialize (H Hb). cbn in H. lia.
Qed.

(* ================================================================= *)
(** ** A plan compared with itself *)

Section DifferFacts.

Lemma map_set_keys key value m :
  map fst (map_set key value m) =
  if existsb (str_eqb key) (map fst m) then map fst m
  else map fst m ++ [key].
Proof.
  induction m as [|[k v] m IH]; [reflexivity|].
  cbn [map_set map fst existsb].
  destruct (str_eqb k key) eqn:E.
  - apply str_eqb_eq in E. subst k. now rewrite str_eqb_refl.
  - replace (str_eqb key k) with false.
    + cbn [orb map fst]. rewrite IH.
      now destruct (existsb (str_eqb key) (map fst m)).
    + symmetry. apply str_eqb_neq. apply str_eqb_neq in E. congruence.
Qed.

Lemma map_get_set key value m k v :
  map_get k (map_set key value m) = Some v ->
  v = value \/ map_get k m = Some v.
Proof.
  induction m as [|[k' v'] m IH]; cbn [map_set map_get].
  - destruct (str_eqb key k); [intros [= <-]; now left | discriminate].
  - destruct (str_eqb k' key) eqn:E; cbn [map_get].
    + destruct (str_eqb k' k); [intros [= <-]; now left | now right].
    + destruct (str_eqb k' k); [now right | exact IH].
Qed.

Lemma map_get_present k m :
  In k (map fst m) -> exists v, map_get k m = Some v.
Proof.
  induction m as [|[k' v'] m IH]; cbn [map fst In map_get]; [intros []|].
  intros [->|H].
  - rewrite str_eqb_refl. now exists v'.
  - destruct (str_eqb k' k); [now exists v' | now apply IH].
Qed.

Lemma obj_get_present {V} k (o : js_object V) :
  In k (map fst o) -> exists v, obj_get k o = Some v /\ In v (map snd o).
Proof.
  induction o as [|[k' v'] o IH]; cbn [map fst snd In obj_get]; [intros []|].
  intros H. destruct (str_eqb k' k) eqn:E.
  - exists v'. split; [reflexivity | now left].
  - destruct H as [->|H]; [now rewrite str_eqb_refl in E|].
    destruct (IH H) as (v & Hv & Hin). exists v. split; [exact Hv | now right].
Qed.

(** The keys of the [Map] are the distinct normalization keys, in the
    order of their first nodes. *)
Lemma fold_map_set_keys l :
  forall m seen,
    (forall x, In x seen <-> In x (map fst m)) ->
    map fst (fold_left (fun m kv => map_set (normal_key kv) (fst kv) m) l m)
    = map fst m ++ unique_strings seen (map normal_key l).
Proof.
  induction l as [|kv l IH]; intros m seen Hseen; cbn [fold_left map].
  - cbn. now rewrite app_nil_r.
  - cbn [unique_strings].
    assert (Hsame : existsb (str_eqb (normal_key kv)) (map fst m)
                    = existsb (str_eqb (normal_key kv)) seen).
    { destruct (existsb (str_eqb (normal_key kv)) seen) eqn:E.
      - apply existsb_message. apply Hseen. now apply existsb_message.
      - apply not_true_is_false. intros H. apply existsb_message in H.
        apply Hseen in H. apply existsb_message in H. congruence. }
    destruct (existsb (str_eqb (normal_key kv)) seen) eqn:E.
    + rewrite (IH _ seen); rewrite map_set_keys, Hsame; [reflexivity|].
      exact Hseen.
    + rewrite (IH _ (normal_key kv :: seen));
        rewrite map_set_keys, Hsame.
      * now rewrite <- app_assoc.
      * intros x. rewrite in_app_iff. cbn [In]. rewrite Hseen. tauto.
Qed.

Lemma normalizedNodes_keys m :
  map fst (normalizedNodes m) = unique_strings [] (map normal_key m).
Proof.
  assert (H : forall x : jsstring, In x [] <-> In x (map fst (@nil (jsstring * jsstring))))
    by (intros x; tauto).
  exact (fold_map_set_keys m [] [] H).
Qed.

Lemma fold_map_set_values (ids : list jsstring) l :
  forall m,
    (forall k v, map_get k m = Some v -> In v ids) ->
    Forall (fun kv => In (fst kv) ids) l ->
    forall k v,
      map_get k (fold_left (fun m kv => map_set (normal_key kv) (fst kv) m)
                   l m) = Some v ->
      In v ids.
Proof.
  induction l as [|kv l IH]; intros m Hm Hl; cbn [fold_left]; [exact Hm|].
  inversion Hl; subst. apply IH; [|assumption].
  intros k v H. apply map_get_set in H. destruct H as [->|H]; eauto.
Qed.

Lemma normalizedNodes_values m k v :
  map_get k (normalizedNodes m) = Some v -> In v (map fst m).
Proof.
  apply (fold_map_set_values (map fst m) m []).
  - intros ? ? [=].
  - apply Forall_forall. intros kv H. now apply in_map.
Qed.

Lemma unique_strings_length seen l :
  List.length (unique_strings seen l) <= List.length l.
Proof.
  revert seen. induction l as [|x l IH]; intros seen; cbn; [lia|].
  destruct (existsb (str_eqb x) seen); cbn; [specialize (IH seen)
                                            | specialize (IH (x :: seen))]; lia.
Qed.

(** When no key occurs twice, every node has its own. *)
Lemma unique_strings_NoDup l :
  NoDup l ->
  forall seen, (forall x, In x seen -> ~ In x l) -> unique_strings seen l = l.
Proof.
  induction 1 as [|x l Hx _ IH]; intros seen Hseen; [reflexivity|].
  cbn [unique_strings].
  replace (existsb (str_eqb x) seen) with false.
  - f_equal. apply IH. intros y [<-|Hy]; [exact Hx|].
    intros H. apply (Hseen y Hy). now right.
  - symmetry. apply not_true_is_false. intros H. apply existsb_message in H.
    apply (Hseen x H). now left.
Qed.

Lemma num_eqb_self x : num_eqb x x = negb (is_nan x).
Proof.
  destruct x as [|s|k]; cbn; [reflexivity | now destruct s | apply Z.eqb_refl].
Qed.

Variable m : js_object node_detail.

(** One key of a plan compared with itself: the node found on both sides
    is the same, and goes to [changedNodes] only for a NaN cost. *)
Lemma classify_self_fold ks :
  forall c,
    Forall (fun k => In k (map fst (normalizedNodes m))) ks ->
    Forall (changed_on_self m) (changedNodes c) ->
    Forall (unchanged_on_self m) (unchangedNodes c) ->
    exists c',
      fold_left (classify_key (normalizedNodes m) (normalizedNodes m) m m) ks
        (Some c) = Some c' /\
      addedNodes c' = addedNodes c /\
      List.length (changedNodes c') + List.length (unchangedNodes c')
      = List.length (changedNodes c) + List.length (unchangedNodes c)
        + List.length ks /\
      Forall (changed_on_self m) (changedNodes c') /\
      Forall (unchanged_on_self m) (unchangedNodes c').
Proof.
  induction ks as [|k ks IH]; intros c Hks Hch Hun.
  - exists c. cbn. repeat split; auto.
  - inversion Hks as [|? ? Hk Hks']; subst.
    destruct (map_get_present k (normalizedNodes m) Hk) as [id Hid].
    pose proof (normalizedNodes_values m k id Hid) as Hin.
    destruct (obj_get_present id m Hin) as (node & Hnode & Hnin).
    cbn [fold_left]. unfold classify_key at 2. unfold map_has.
    rewrite Hid, Hnode, str_eqb_refl, num_eqb_self. cbn [negb orb].
    set (entry := {| nodeId1 := id; nodeId2 := id;
                     node1 := node; node2 := node |}).
    destruct (is_nan (nd_exclusiveCost node)) eqn:En; cbn [negb].
    + edestruct IH as (c' & E & Ha & Hlen & Hch' & Hun');
        [exact Hks' | | | exists c'; split; [exact E|]].
      * cbn. apply Forall_app. split; [exact Hch|].
        repeat constructor; auto.
      * exact Hun.
      * cbn in Ha, Hlen. rewrite length_app in Hlen. cbn in Hlen.
        cbn [List.length]. repeat split; auto. lia.
    + edestruct IH as (c' & E & Ha & Hlen & Hch' & Hun');
        [exact Hks' | | | exists c'; split; [exact E|]].
      * exact Hch.
      * cbn. apply Forall_app. split; [exact Hun|].
        repeat constructor; auto.
      * cbn in Ha, Hlen. rewrite length_app in Hlen. cbn in Hlen.
        cbn [List.length]. repeat split; auto. lia.
Qed.

Lemma removed_self ks :
  Forall (fun k => In k (map fst (normalizedNodes m))) ks ->
  flat_map (removed_key (normalizedNodes m) (normalizedNodes m) m) ks = [].
Proof.
  induction 1 as [|k ks Hk _ IH]; [reflexivity|].
  cbn [flat_map]. rewrite IH. unfold removed_key, map_has.
  destruct (map_get_present k (normalizedNodes m) Hk) as [id ->]. reflexivity.
Qed.

Lemma classifyNodes_self :
  exists c,
    classifyNodes m m = Some c /\
    addedNodes c = [] /\ removedNodes c = [] /\
    List.length (changedNodes c) + List.length (unchangedNodes c)
    = List.length (unique_strings [] (map normal_key m)) /\
    Forall (changed_on_self m) (changedNodes c) /\
    Forall (unchanged_on_self m) (unchangedNodes c).
Proof.
  assert (Hall : Forall (fun k => In k (map fst (normalizedNodes m)))
                    (map fst (normalizedNodes m)))
    by (apply Forall_forall; auto).
  destruct (classify_self_fold (map fst (normalizedNodes m))
              {| addedNodes := []; removedNodes := [];
                 changedNodes := []; unchangedNodes := [] |}
              Hall (Forall_nil _) (Forall_nil _))
    as (c & E & Ha & Hlen & Hch & Hun).
  unfold classifyNodes. rewrite E.
  eexists. split; [reflexivity|]. cbn.
  rewrite (removed_self _ Hall). repeat split; auto.
  cbn in Hlen. rewrite Hlen.
  now rewrite <- normalizedNodes_keys, length_map.
Qed.

End DifferFacts.

Lemma nodes_length text theme :
  List.length (nodes (parseExplainToMermaid text theme))
  = List.length (nodeDetailsMap (parseExplainToMermaid text theme)).
Proof.
  unfold parseExplainToMermaid.
  destruct (plan_lines text); [reflexivity|].
  cbn [nodes nodeDetailsMap]. now rewrite !length_map.
Qed.

(** C5, as the code has it.  Comparing a non-empty plan text with itself
    ends with the summary; nothing is added and nothing removed; every
    distinct normalization key is classified once, with the same node on
    both sides, as unchanged, or as changed when the exclusive cost of the
    node is NaN.  The classified nodes are thus as many as the distinct
    keys, at most the nodes of the plan, and as many as the nodes when no
    two of them have the same key. *)
Theorem self_comparison (text theme : jsstring) :
  text <> [] ->
  let plan := parseExplainToMermaid text theme in
  let m := nodeDetailsMap plan in
  exists c,
    comparePlans text text theme = Compared c /\
    addedNodes (classes c) = [] /\
    removedNodes (classes c) = [] /\
    List.length (changedNodes (classes c))
    + List.length (unchangedNodes (classes c))
    = List.length (unique_strings [] (map normal_key m)) /\
    List.length (unique_strings [] (map normal_key m))
    <= List.length (nodes plan) /\
    (NoDup (map normal_key m) ->
     List.length (unique_strings [] (map normal_key m))
     = List.length (nodes plan)) /\
    Forall (changed_on_self m) (changedNodes (classes c)) /\
    Forall (unchanged_on_self m) (unchangedNodes (classes c)).
Proof.
  intros Hne plan m.
  destruct (classifyNodes_self m) as (c & E & Ha & Hr & Hlen & Hch & Hun).
  assert (Hle : List.length (unique_strings [] (map normal_key m))
                <= List.length (nodes plan)).
  { unfold plan. rewrite nodes_length. fold plan. fold m.
    rewrite <- (length_map normal_key m). apply unique_strings_length. }
  assert (Heq : NoDup (map normal_key m) ->
                List.length (unique_strings [] (map normal_key m))
                = List.length (nodes plan)).
  { intros Hnd. rewrite (unique_strings_NoDup _ Hnd) by (intros x []).
    unfold plan. rewrite nodes_length. apply length_map. }
  unfold comparePlans. destruct text as [|ch text']; [contradiction|].
  fold plan. fold m. rewrite E, Ha, Hr. cbn [single_declarations fold_right].
  eexists. split; [reflexivity|]. cbn [classes]. auto 10.
Qed.

Lemma self_comparison_witness :
  default_plan <> [] /\
  exists c,
    comparePlans default_plan default_plan (js "light") = Compared c /\
    addedNodes (classes c) = [] /\
    removedNodes (classes c) = [] /\
    List.length (changedNodes (classes c)) = 0 /\
    List.length (unchangedNodes (classes c)) = 4.
Proof.
  assert (Hne : default_plan <> []) by (vm_compute; discriminate).
  split; [exact Hne|].
  destruct (self_comparison default_plan (js "light") Hne)
    as (c & E & Ha & Hr & _).
  exists c. split; [exact E|]. split; [exact Ha|]. split; [exact Hr|].
  revert E. vm_compute. intros [= <-]. split; reflexivity.
Defined.

(** C5 as stated fails on a plan with two equal lines: the three nodes
    have two normalization keys, and two nodes are counted unchanged. *)
Lemma twin_lines_counted_once :
  List.length (nodes (parseExplainToMermaid twin_plan (js "light"))) = 3 /\
  ~ exists c,
      comparePlans twin_plan twin_plan (js "light") = Compared c /\
      List.length (addedNodes (classes c)) = 0 /\
      List.length (removedNodes (classes c)) = 0 /\
      List.length (changedNodes (classes c)) = 0 /\
      List.length (unchangedNodes (classes c))
      = List.length (nodes (parseExplainToMermaid twin_plan (js "light"))).
Proof.
  split; [vm_compute; reflexivity|].
  intros (c & E & _ & _ & _ & H). revert E H. vm_compute.
  intros [= <-]. cbn. discriminate.
Qed.

(* ================================================================= *)
(** ** Nodes and lines *)

Section MoreParserFacts.

Lemma scan_snoc lines line : scan (lines ++ [line]) = step (scan lines) line.
Proof. unfold scan. now rewrite fold_left_app. Qed.

(** The top of the stack is the node opened last. *)
Lemma scan_top lines :
  match nodeStack (scan lines) with
  | [] => nodeInfos (scan lines) = []
  | top :: _ => S (entry_id top) = List.length (nodeInfos (scan lines))
  end.
Proof.
  pose proof (scan_invariant lines) as [_ Hl Hs _ _ _ _].
  destruct (nodeStack (scan lines)) as [|top rest]; cbn in Hs.
  - rewrite Hs in Hl. cbn in Hl.
    now destruct (nodeInfos (scan lines)).
  - destruct Hs as [Hs _]. now rewrite <- Hl.
Qed.

Lemma update_last (f : node_info -> node_info) l x :
  update (List.length l) f (l ++ [x]) = l ++ [f x].
Proof. induction l as [|y l IH]; cbn; [reflexivity | now rewrite IH]. Qed.

Lemma last_node (l : list node_info) k :
  S k = List.length l -> exists init x, l = init ++ [x] /\ List.length init = k.
Proof.
  intros H. destruct (exists_last (l := l)) as (init & x & ->).
  - intros ->. discriminate.
  - exists init, x. split; [reflexivity|].
    rewrite length_app in H. cbn in H. lia.
Qed.

(** Every line that is not blank is kept once, in the order of the text,
    as a detail line of the node opened last before it. *)
Lemma scan_keeps_lines lines :
  List.concat (map details (nodeInfos (scan lines))) = map operator_text lines.
Proof.
  induction lines as [|line lines IH] using rev_ind; [reflexivity|].
  rewrite scan_snoc, map_app. cbn [map].
  pose proof (scan_invariant lines) as Hinv.
  pose proof (inv_counter _ _ Hinv) as Hc.
  pose proof (scan_top lines) as Htop.
  unfold operator_text at 2.
  destruct (is_arrow line) eqn:Ea.
  - rewrite (step_arrow _ _ Ea). cbv zeta. cbn [nodeInfos].
    set (infos' := match pop_while _ _ with
                   | parent :: _ => update (entry_id parent) _ _
                   | [] => nodeInfos (scan lines)
                   end).
    assert (Hlen : List.length infos' = idCounter (scan lines)).
    { unfold infos'. rewrite Hc.
      destruct (pop_while _ _); [reflexivity | apply length_update]. }
    assert (Hd : map details infos' = map details (nodeInfos (scan lines))).
    { unfold infos'. destruct (pop_while _ _); [reflexivity|].
      apply (map_update _ _ (fun _ => True)); [reflexivity|].
      apply Forall_forall. trivial. }
    clearbody infos'. rewrite <- Hlen, assign_fresh, map_app, concat_app, Hd, IH.
    reflexivity.
  - destruct (nodeStack (scan lines)) as [|last rest] eqn:Es.
    + rewrite (step_root _ _ Ea Es). cbn [nodeInfos].
      rewrite Hc, assign_fresh, map_app, concat_app, IH. reflexivity.
    + rewrite (step_continuation _ _ _ _ Ea Es). cbn [nodeInfos].
      destruct (last_node _ _ Htop) as (init & x & E & Hlen).
      rewrite E in IH |- *. rewrite <- Hlen, update_last.
      rewrite !map_app, !concat_app in IH |- *. cbn in IH |- *.
      rewrite !app_nil_r in IH |- *. rewrite <- IH. now rewrite <- app_assoc.
Qed.

Lemma scan_node_count lines :
  List.length (nodeInfos (scan lines)) = List.length (opening_lines lines).
Proof.
  pose proof (scan_invariant lines) as Hinv.
  rewrite <- (inv_length _ _ Hinv). unfold opening_indents. apply length_map.
Qed.

(** The recorded children make a forest. *)
Lemma one_parent ind i i' j :
  child_of ind i j -> child_of ind i' j -> i = i'.
Proof.
  intros (H1 & H2 & H3) (H1' & H2' & H3').
  destruct (Nat.lt_trichotomy i i') as [H|[H|H]]; [|exact H|].
  - specialize (H3 i' (conj H (proj1 H1'))). lia.
  - specialize (H3' i (conj H (proj1 H1))). lia.
Qed.

(** A line opens one node and at most one edge, none on an empty stack, or
    it opens nothing. *)
Lemma step_counts st line :
  idCounter st = List.length (nodeInfos st) ->
  (List.length (nodeInfos (step st line)) = S (List.length (nodeInfos st)) /\
   List.length (edgeList (step st line)) <= S (List.length (edgeList st)) /\
   (nodeStack st = [] -> edgeList (step st line) = edgeList st)) \/
  (List.length (nodeInfos (step st line)) = List.length (nodeInfos st) /\
   edgeList (step st line) = edgeList st /\ nodeStack st <> []).
Proof.
  intros Hc. destruct (is_arrow line) eqn:Ea.
  - left. rewrite (step_arrow _ _ Ea). cbv zeta. cbn [nodeInfos edgeList].
    set (stack := pop_while _ (nodeStack st)).
    assert (Hs : nodeStack st = [] -> stack = [])
      by (unfold stack; now intros ->).
    set (infos' := match stack with
                   | parent :: _ => update (entry_id parent) _ _
                   | [] => nodeInfos st
                   end).
    assert (Hlen : List.length infos' = idCounter st).
    { unfold infos'. rewrite Hc.
      destruct stack; [reflexivity | apply length_update]. }
    clearbody infos'. rewrite <- Hlen, assign_fresh, length_app, Hlen, Hc.
    split; [cbn; lia|].
    split; [destruct stack; rewrite ?length_app; cbn; lia|].
    intros E. now rewrite (Hs E).
  - destruct (nodeStack st) as [|last rest] eqn:Es.
    + left. rewrite (step_root _ _ Ea Es). cbn [nodeInfos edgeList].
      rewrite Hc, assign_fresh, length_app. cbn.
      split; [lia|]. split; [lia | reflexivity].
    + right. rewrite (step_continuation _ _ _ _ Ea Es).
      cbn [nodeInfos edgeList]. rewrite length_update.
      split; [reflexivity|]. split; [reflexivity | discriminate].
Qed.

(** Fewer edges than nodes. *)
Lemma scan_edge_count lines :
  lines <> [] ->
  List.length (edgeList (scan lines)) < List.length (nodeInfos (scan lines)).
Proof.
  induction lines as [|line lines IH] using rev_ind; [contradiction|].
  intros _. rewrite scan_snoc.
  pose proof (inv_counter _ _ (scan_invariant lines)) as Hc.
  destruct (step_counts (scan lines) line Hc)
    as [(Hn & He & H0)|(Hn & He & Hs)].
  - destruct lines as [|l ls].
    + change (scan []) with initial in *. rewrite (H0 eq_refl), Hn. cbn. lia.
    + specialize (IH ltac:(discriminate)). lia.
  - destruct lines as [|l ls]; [now cbn in Hs|].
    specialize (IH ltac:(discriminate)). rewrite Hn, He. exact IH.
Qed.

End MoreParserFacts.

(* ================================================================= *)
(** ** Node ids *)

Section NodeIds.

(** Reading the decimal digits of a number gives the number back. *)
Lemma digits_fuel_value fuel :
  forall n acc,
    (n < 2 ^ N.of_nat fuel)%N ->
    exists len : nat,
      forall a,
        digits_value a (digits_fuel fuel n acc)
        = digits_value (a * 10 ^ Z.of_nat len + Z.of_N n)%Z acc.
Proof.
  induction fuel as [|fuel IH]; intros n acc Hn.
  - exists 0. intros a. cbn in *. f_equal. lia.
  - cbn [digits_fuel]. destruct (n <? 10)%N eqn:E.
    + apply N.ltb_lt in E. exists 1. intros a. cbn [digits_value].
      f_equal. rewrite N.mod_small by exact E. lia.
    + apply N.ltb_ge in E.
      destruct (IH (n / 10)%N ((48 + n mod 10)%N :: acc)) as [len Hlen].
      { rewrite Nat2N.inj_succ, N.pow_succ_r' in Hn.
        apply N.Div0.div_lt_upper_bound. lia. }
      exists (S len). intros a. rewrite Hlen. cbn [digits_value]. f_equal.
      rewrite Nat2Z.inj_succ, Z.pow_succ_r by lia.
      pose proof (N.div_mod n 10 ltac:(lia)) as Hdm. lia.
Qed.

Lemma decimal_value n : digits_value 0 (decimal n) = Z.of_N n.
Proof.
  unfold decimal.
  destruct (digits_fuel_value (S (N.to_nat (N.log2 n))) n []) as [len H].
  - rewrite Nat2N.inj_succ, N2Nat.id.
    destruct (N.eq_dec n 0) as [->|Hn]; [reflexivity|].
    apply N.log2_spec. lia.
  - rewrite H. cbn. lia.
Qed.

Lemma decimal_inj a b : decimal a = decimal b -> a = b.
Proof.
  intros H. apply N2Z.inj. rewrite <- !decimal_value. now rewrite H.
Qed.

(** Distinct counters make distinct ids. *)
Lemma node_id_inj a b : node_id a = node_id b -> a = b.
Proof.
  unfold node_id. intros H. apply app_inv_head in H.
  apply decimal_inj in H. lia.
Qed.

Lemma node_id_eqb a b : str_eqb (node_id a) (node_id b) = Nat.eqb a b.
Proof.
  destruct (Nat.eqb a b) eqn:E.
  - apply Nat.eqb_eq in E. subst. apply str_eqb_refl.
  - apply str_eqb_neq. intros H. apply node_id_inj in H.
    apply Nat.eqb_neq in E. contradiction.
Qed.

Lemma obj_get_numbered {V} (h : nat -> node_info -> V) l :
  forall a k,
    obj_get (node_id (a + k))
      (map (fun kn => (node_id (fst kn), h (fst kn) (snd kn)))
           (combine (seq a (List.length l)) l))
    = option_map (h (a + k)) (nth_error l k).
Proof.
  induction l as [|x l IH]; intros a k; cbn [List.length seq combine map obj_get].
  - now destruct k.
  - cbn [fst snd]. rewrite node_id_eqb. destruct k as [|k].
    + rewrite Nat.add_0_r, Nat.eqb_refl. reflexivity.
    + replace (Nat.eqb a (a + S k)) with false
        by (symmetry; apply Nat.eqb_neq; lia).
      replace (a + S k) with (S a + k) by lia. apply IH.
Qed.

Lemma keys_numbered {V} (h : nat -> node_info -> V) l :
  forall a,
    map fst (map (fun kn => (node_id (fst kn), h (fst kn) (snd kn)))
               (combine (seq a (List.length l)) l))
    = map node_id (seq a (List.length l)).
Proof.
  induction l as [|x l IH]; intros a; [reflexivity|].
  cbn. now rewrite IH.
Qed.

Lemma node_ids_NoDup a n : NoDup (map node_id (seq a n)).
Proof.
  revert a. induction n as [|n IH]; intros a; cbn; constructor; [|apply IH].
  rewrite in_map_iff. intros (x & E & Hx). apply node_id_inj in E.
  apply in_seq in Hx. lia.
Qed.

(** The node map of a plan, entry by entry. *)
Lemma nodeDetailsMap_numbered text theme :
  let infos := nodeInfos (scan (plan_lines text)) in
  nodeDetailsMap (parseExplainToMermaid text theme)
  = map (fun kn => (node_id (fst kn),
                    {| nd_details := details (snd kn);
                       nd_exclusiveCost := exclusiveCost infos (snd kn) |}))
        (combine (seq 0 (List.length infos)) infos).
Proof.
  unfold parseExplainToMermaid.
  destruct (plan_lines text) as [|l ls]; reflexivity.
Qed.

End NodeIds.

Lemma nodeDetailsMap_keys text theme :
  map fst (nodeDetailsMap (parseExplainToMermaid text theme))
  = map node_id (seq 0 (List.length (opening_lines (plan_lines text)))).
Proof.
  rewrite nodeDetailsMap_numbered. cbv zeta.
  rewrite (keys_numbered
             (fun _ node =>
                {| nd_details := details node;
                   nd_exclusiveCost :=
                     exclusiveCost (nodeInfos (scan (plan_lines text)))
                       node |})).
  now rewrite scan_node_count.
Qed.

(** X1.  The node map has one entry per node-opening line of the text,
    under the keys [node0], [node1], ... in the order of the text; no key
    occurs twice, and there are as many node declarations. *)
Theorem node_map_keys (text theme : jsstring) :
  let plan := parseExplainToMermaid text theme in
  let n := List.length (opening_lines (plan_lines text)) in
  map fst (nodeDetailsMap plan) = map node_id (seq 0 n) /\
  NoDup (map fst (nodeDetailsMap plan)) /\
  List.length (nodes plan) = n.
Proof.
  intros plan n.
  assert (E : map fst (nodeDetailsMap plan) = map node_id (seq 0 n))
    by apply nodeDetailsMap_keys.
  split; [exact E|]. split; [rewrite E; apply node_ids_NoDup|].
  unfold plan. rewrite nodes_length. fold plan.
  rewrite <- (length_map fst), E, length_map. apply length_seq.
Qed.

(** X2.  Reading the node map at the id made from counter [k] gives the
    details and the exclusive cost of the [k]-th node of the scan, and
    nothing when there is no such node. *)
Theorem node_map_lookup (text theme : jsstring) (k : nat) :
  let infos := nodeInfos (scan (plan_lines text)) in
  obj_get (node_id k) (nodeDetailsMap (parseExplainToMermaid text theme))
  = option_map
      (fun node => {| nd_details := details node;
                      nd_exclusiveCost := exclusiveCost infos node |})
      (nth_error infos k).
Proof.
  intros infos. rewrite nodeDetailsMap_numbered. fold infos.
  apply (obj_get_numbered
           (fun _ node => {| nd_details := details node;
                             nd_exclusiveCost := exclusiveCost infos node |})
           infos 0 k).
Qed.

Lemma details_numbered {V} (h : nat -> node_info -> V) (g : V -> list jsstring)
  l :
  (forall k node, g (h k node) = details node) ->
  forall a,
    map (fun kv => g (snd kv))
      (map (fun kn => (node_id (fst kn), h (fst kn) (snd kn)))
           (combine (seq a (List.length l)) l))
    = map details l.
Proof.
  intros Hg. induction l as [|x l IH]; intros a; [reflexivity|].
  cbn. now rewrite Hg, IH.
Qed.

(** X3.  Nothing of the text is lost or repeated: the detail lines of the
    nodes, taken node after node, are the lines of the text that are not
    blank, one for one and in order (the operator text for a node-opening
    line, the trimmed line otherwise). *)
Theorem plan_lines_kept (text theme : jsstring) :
  List.concat
    (map (fun kv => nd_details (snd kv))
         (nodeDetailsMap (parseExplainToMermaid text theme)))
  = map operator_text (plan_lines text).
Proof.
  rewrite nodeDetailsMap_numbered. cbv zeta.
  rewrite (details_numbered
             (fun _ node =>
                {| nd_details := details node;
                   nd_exclusiveCost :=
                     exclusiveCost (nodeInfos (scan (plan_lines text)))
                       node |}) nd_details); [|reflexivity].
  apply scan_keeps_lines.
Qed.

(** X4.  The recorded children make a forest: a child comes after its
    parent in the text, no node has two parents, no child is recorded
    twice, and there are fewer edges than nodes. *)
Theorem children_form_forest (text theme : jsstring) :
  let infos := nodeInfos (scan (plan_lines text)) in
  let plan := parseExplainToMermaid text theme in
  (forall i j, In j (children_of infos i) -> i < j < List.length (nodes plan))
  /\
  (forall i i' j, In j (children_of infos i) -> In j (children_of infos i') ->
                  i = i') /\
  (forall i, NoDup (children_of infos i)) /\
  List.length (edges plan) <= Nat.pred (List.length (nodes plan)).
Proof.
  intros infos plan.
  pose proof (scan_invariant (plan_lines text)) as Hinv.
  assert (Hn : List.length (nodes plan) = List.length infos).
  { unfold plan. rewrite nodes_length, nodeDetailsMap_numbered. cbv zeta.
    now rewrite length_map, length_combine, length_seq, Nat.min_id. }
  split; [|split; [|split]].
  - intros i j H. apply (inv_children _ _ Hinv) in H.
    apply child_of_bound in H. rewrite Hn. unfold infos.
    rewrite <- (inv_length _ _ Hinv). exact H.
  - intros i i' j H H'.
    apply (inv_children _ _ Hinv) in H, H'. exact (one_parent _ _ _ _ H H').
  - intros i. pose proof (inv_sorted _ _ Hinv i) as Hs. fold infos in Hs.
    induction Hs as [|a l Hl IH Ha]; constructor; [|exact IH].
    intros Hin. rewrite Forall_forall in Ha. specialize (Ha a Hin). lia.
  - unfold plan at 1. rewrite edges_of_scan, Hn. unfold infos.
    destruct (plan_lines text) as [|l ls]; [cbn; lia|].
    pose proof (scan_edge_count (l :: ls) ltac:(discriminate)) as H. lia.
Qed.

(* ================================================================= *)
(** ** Plans without cost annotations the parser reads *)

Section PlainPlans.

Lemma in_trimStart c s : In c (trimStart s) -> In c s.
Proof.
  induction s as [|x s IH]; cbn; [tauto|].
  destruct (is_space x); [right; now apply IH | exact (fun H => H)].
Qed.

Lemma in_trim c s : In c (trim s) -> In c s.
Proof.
  unfold trim, trimEnd. intros H. apply in_rev in H.
  apply in_trimStart in H. apply in_rev in H. now apply in_trimStart.
Qed.

Lemma in_split_newline text :
  forall l c, In l (split_newline text) -> In c l -> In c text.
Proof.
  induction text as [|x text IH]; intros l c; cbn [split_newline].
  - intros [<-|[]] [].
  - destruct (x =? 10)%N.
    + intros [<-|H] Hc; [destruct Hc | right; now apply (IH l)].
    + destruct (split_newline text) as [|l0 ls] eqn:E.
      * intros [<-|[]] [->|[]]. now left.
      * intros [<-|H] Hc.
        -- destruct Hc as [->|Hc]; [now left | right].
           apply (IH l0); [now left | exact Hc].
        -- right. apply (IH l); [now right | exact Hc].
Qed.

Lemma in_plan_lines text l c :
  In l (plan_lines text) -> In c l -> In c text.
Proof.
  unfold plan_lines. intros H. apply filter_In in H.
  apply in_split_newline. tauto.
Qed.

Lemma push_detail_zero content n :
  totalCost n = zero -> totalCost (push_detail content zero n) = zero.
Proof. intros H. cbn. now destruct (_ && _). Qed.

Lemma scan_costs_zero lines :
  Forall (fun l => ~ In 92%N l) lines ->
  Forall (fun n => totalCost n = zero) (nodeInfos (scan lines)).
Proof.
  induction lines as [|line lines IH] using rev_ind; [constructor|].
  intros H. apply Forall_app in H. destruct H as [Hl Hline].
  apply Forall_inv in Hline. specialize (IH Hl).
  assert (Hcost : line_cost (trim line) = zero).
  { apply line_cost_without_backslash. intros H. now apply in_trim in H. }
  rewrite scan_snoc.
  pose proof (inv_counter _ _ (scan_invariant lines)) as Hc.
  destruct (is_arrow line) eqn:Ea.
  - rewrite (step_arrow _ _ Ea). cbv zeta. cbn [nodeInfos].
    set (infos' := match pop_while _ _ with
                   | parent :: _ => update (entry_id parent) _ _
                   | [] => nodeInfos (scan lines)
                   end).
    assert (Hlen : List.length infos' = idCounter (scan lines)).
    { unfold infos'. rewrite Hc.
      destruct (pop_while _ _); [reflexivity | apply length_update]. }
    assert (H0 : Forall (fun n => totalCost n = zero) infos').
    { unfold infos'. destruct (pop_while _ _); [exact IH|].
      apply Forall_update; [|exact IH]. now intros []. }
    clearbody infos'. rewrite <- Hlen, assign_fresh.
    apply Forall_app. split; [exact H0|]. now repeat constructor.
  - destruct (nodeStack (scan lines)) as [|last rest] eqn:Es.
    + rewrite (step_root _ _ Ea Es). cbn [nodeInfos].
      rewrite Hc, assign_fresh. apply Forall_app. split; [exact IH|].
      now repeat constructor.
    + rewrite (step_continuation _ _ _ _ Ea Es). cbn [nodeInfos].
      rewrite Hcost. apply Forall_update; [|exact IH].
      intros n. apply push_detail_zero.
Qed.

Lemma zero_plus_zero : num_add zero zero = zero.
Proof. vm_compute. reflexivity. Qed.

Lemma zero_minus_zero : num_sub zero zero = zero.
Proof. vm_compute. reflexivity. Qed.

Lemma exclusiveCost_zero infos node :
  Forall (fun n => totalCost n = zero) infos ->
  totalCost node = zero ->
  exclusiveCost infos node = zero.
Proof.
  intros H Hn. unfold exclusiveCost, childrenTotalCost.
  assert (Hsum : forall l,
             fold_left
               (fun sum childId =>
                  num_add sum
                    match nth_error infos childId with
                    | Some child =>
                        if truthy (totalCost child) then totalCost child
                        else zero
                    | None => zero
                    end) l zero = zero).
  { induction l as [|j l IHl]; [reflexivity|]. cbn [fold_left].
    replace (match nth_error infos j with
             | Some child =>
                 if truthy (totalCost child) then totalCost child else zero
             | None => zero
             end) with zero.
    - now rewrite zero_plus_zero.
    - destruct (nth_error infos j) as [child|] eqn:E; [|reflexivity].
      rewrite Forall_forall in H.
      rewrite (H child (nth_error_In _ _ E)). reflexivity. }
  rewrite Hsum, Hn, zero_minus_zero. reflexivity.
Qed.

Lemma styles_none theme infos l :
  Forall (fun n => exclusiveCost infos n = zero) l ->
  forall a,
    List.concat
      (map (fun kn => style_declaration theme infos (fst kn)
                        (exclusiveCost infos (snd kn)))
           (combine (seq a (List.length l)) l)) = [].
Proof.
  induction 1 as [|n l Hn _ IH]; intros a; [reflexivity|].
  cbn [List.length seq combine map List.concat fst snd].
  rewrite Hn, IH. reflexivity.
Qed.

End PlainPlans.

(** X5.  A text without a backslash, as every plan in the documented
    notation, gets no style at all, and every exclusive cost in its node
    map is zero. *)
Theorem plain_plan_costs_nothing (text theme : jsstring) :
  ~ In 92%N text ->
  let plan := parseExplainToMermaid text theme in
  styles plan = [] /\
  Forall (fun kv => nd_exclusiveCost (snd kv) = zero) (nodeDetailsMap plan).
Proof.
  intros Hb plan.
  assert (Hz : Forall (fun n => totalCost n = zero)
                 (nodeInfos (scan (plan_lines text)))).
  { apply scan_costs_zero. apply Forall_forall. intros l Hl Hc.
    apply Hb. exact (in_plan_lines text l _ Hl Hc). }
  assert (He : Forall (fun n => exclusiveCost
                                  (nodeInfos (scan (plan_lines text))) n
                                = zero)
                 (nodeInfos (scan (plan_lines text)))).
  { apply Forall_forall. intros n Hn. apply exclusiveCost_zero; [exact Hz|].
    rewrite Forall_forall in Hz. now apply Hz. }
  split.
  - unfold plan, parseExplainToMermaid.
    destruct (plan_lines text) as [|l ls]; [reflexivity|].
    cbn [styles]. exact (styles_none theme _ _ He 0).
  - apply Forall_forall. intros kv Hkv.
    assert (Hin : In (nd_exclusiveCost (snd kv))
                    (map (fun kv => nd_exclusiveCost (snd kv))
                         (nodeDetailsMap plan)))
      by (apply in_map_iff; now exists kv).
    unfold plan in Hin. rewrite nodeDetailsMap_costs in Hin.
    apply in_map_iff in Hin. destruct Hin as (n & <- & Hn).
    rewrite Forall_forall in He. now apply He.
Qed.

Lemma plain_plan_costs_nothing_witness :
  ~ In 92%N default_plan /\
  styles (parseExplainToMermaid default_plan (js "light")) = [] /\
  Forall (fun kv => nd_exclusiveCost (snd kv) = zero)
         (nodeDetailsMap (parseExplainToMermaid default_plan (js "light"))).
Proof.
  assert (H : ~ In 92%N default_plan).
  { intros H.
    assert (E : existsb (N.eqb 92) default_plan = true)
      by (apply existsb_exists; exists 92%N; split; [exact H|reflexivity]).
    vm_compute in E. discriminate E. }
  split; [exact H|].
  exact (plain_plan_costs_nothing default_plan (js "light") H).
Defined.

(* ================================================================= *)
(** ** Reports *)

Section ReportFacts.

Variable toLocaleString : num -> jsstring.

Lemma returned_messages nodeInfos m :
  In m (map message (analyzePerformanceWarnings toLocaleString nodeInfos))
  <-> In m (map message (collectWarnings toLocaleString nodeInfos)).
Proof.
  unfold analyzePerformanceWarnings.
  rewrite uniqueWarnings_first_occurrences, first_occurrences_messages.
  cbn. tauto.
Qed.

Lemma produced_by_entry nodeInfos id content rest cost w :
  In (id, NodeObject (DetailsArray (content :: rest)) cost) nodeInfos ->
  In w (rules toLocaleString id content cost) ->
  In (message w)
     (map message (analyzePerformanceWarnings toLocaleString nodeInfos)).
Proof.
  intros Hin Hw. apply returned_messages. apply in_map.
  unfold collectWarnings. apply in_flat_map.
  exists (id, NodeObject (DetailsArray (content :: rest)) cost).
  split; [exact Hin | exact Hw].
Qed.

Lemma obj_get_NoDup {V} (o : js_object V) k v :
  NoDup (map fst o) -> In (k, v) o -> obj_get k o = Some v.
Proof.
  induction o as [|[k' v'] o IH]; cbn [map fst obj_get In]; [intros _ []|].
  intros Hnd [E|Hin]; inversion Hnd as [|? ? Hk Hnd']; subst.
  - injection E as -> ->. now rewrite str_eqb_refl.
  - destruct (str_eqb k' k) eqn:E.
    + apply str_eqb_eq in E. subst k'. exfalso. apply Hk.
      change k with (fst (k, v)). now apply in_map.
    + now apply IH.
Qed.

End ReportFacts.

(** X6.  No match goes unreported: when the operator line of an entry of
    the node map meets the condition of a rule, the message of that rule is
    among the messages returned. *)
Theorem analyzer_reports_every_match
  (toLocaleString : num -> jsstring) (nodeInfos : js_object node_value)
  (id content : jsstring) (rest : list jsstring) (cost : num) :
  In (id, NodeObject (DetailsArray (content :: rest)) cost) nodeInfos ->
  let returned :=
    map message (analyzePerformanceWarnings toLocaleString nodeInfos) in
  (includes content (js "Nested Loop") = true ->
   In nested_loop_message returned) /\
  (includes content (js "DS_BCAST") = true -> In ds_bcast_message returned) /\
  (includes content (js "Hash") = true -> num_gtb cost (of_Z 50) = true ->
   In (hash_message (toFixed2 cost)) returned) /\
  (includes content (js "Seq Scan") = true ->
   forall i caps,
     exec rowsRegex content = Some (i, caps) ->
     num_gtb (parseInt (group caps 1)) (of_Z 10000) = true ->
     In (seq_scan_message (toLocaleString (parseInt (group caps 1))))
        returned).
Proof.
  intros Hin returned.
  assert (Hr : forall w, In w (rules toLocaleString id content cost) ->
                         In (message w) returned)
    by (intros w; now apply (produced_by_entry _ _ id content rest cost)).
  repeat split.
  - intros E.
    apply (Hr {| w_type := js "warning"; message := nested_loop_message;
                 severity := js "high"; nodeId := id |}).
    unfold rules. rewrite E. now left.
  - intros E.
    apply (Hr {| w_type := js "info"; message := ds_bcast_message;
                 severity := js "medium"; nodeId := id |}).
    unfold rules. rewrite E. rewrite !in_app_iff. right. right. left.
    now left.
  - intros E Hc.
    apply (Hr {| w_type := js "warning";
                 message := hash_message (toFixed2 cost);
                 severity := js "medium"; nodeId := id |}).
    unfold rules. rewrite E, Hc. rewrite !in_app_iff. right. right. right.
    now left.
  - intros E i caps Hx Hrows.
    apply (Hr {| w_type := js "warning";
                 message := seq_scan_message
                              (toLocaleString (parseInt (group caps 1)));
                 severity := js "medium"; nodeId := id |}).
    unfold rules. rewrite E, Hx, Hrows. rewrite !in_app_iff. right. left.
    now left.
Qed.

Lemma analyzer_reports_every_match_witness :
  In (js "node1",
      NodeObject (DetailsArray [js "->  XN Seq Scan on a  (rows=1234567)"])
                 zero) sample_nodes /\
  In (seq_scan_message (js "1,234,567"))
     (map message
          (analyzePerformanceWarnings toLocaleString_enUS sample_nodes)).
Proof.
  assert (H : In (js "node1",
                  NodeObject
                    (DetailsArray [js "->  XN Seq Scan on a  (rows=1234567)"])
                    zero) sample_nodes)
    by (right; left; reflexivity).
  split; [exact H|].
  destruct (analyzer_reports_every_match toLocaleString_enUS _ _ _ _ _ H)
    as (_ & _ & _ & Hs).
  apply (Hs eq_refl 23 [js "1234567"]); vm_compute; reflexivity.
Defined.

(** X7.  What [generateDiagram] stores is consistent: the id of every
    warning is a key of the node data stored with it, and the node found
    under it is the one whose operator line raised the warning. *)
Theorem warnings_point_to_nodes
  (toLocaleString : num -> jsstring) (text theme : jsstring) :
  let st := Diagram.generateDiagram toLocaleString text theme in
  Forall
    (fun w =>
       exists content rest cost,
         obj_get (nodeId w) (Diagram.nodeData st)
         = Some {| nd_details := content :: rest; nd_exclusiveCost := cost |}
         /\ In w (rules toLocaleString (nodeId w) content cost))
    (Diagram.warnings st).
Proof.
  intros st. apply Forall_forall. intros w Hw.
  cbn [st Diagram.generateDiagram Diagram.warnings Diagram.nodeData] in *.
  unfold analyzePerformanceWarnings in Hw.
  rewrite uniqueWarnings_first_occurrences in Hw.
  apply first_occurrences_incl in Hw.
  destruct (collectWarnings_origin _ _ _ Hw)
    as (content & rest & cost & Hin & Hrule).
  exists content, rest, cost. split; [|exact Hrule].
  unfold as_values in Hin. apply in_map_iff in Hin.
  destruct Hin as ([k [d c]] & E & Hin). cbn in E.
  injection E as -> -> ->.
  apply obj_get_NoDup; [|exact Hin].
  rewrite nodeDetailsMap_keys. apply node_ids_NoDup.
Qed.

(* ================================================================= *)
(** ** Blank texts and the diagram *)

Section BlankFacts.

Lemma trimStart_nil s : trimStart s = [] -> blank s.
Proof.
  induction s as [|c s IH]; cbn; [constructor|].
  destruct (is_space c) eqn:E; [|discriminate].
  intros H. constructor; [exact E | now apply IH].
Qed.

Lemma trimStart_keeps_end s c :
  is_space c = false -> trimStart (s ++ [c]) <> [].
Proof.
  intros Hc. induction s as [|x s IH]; cbn.
  - rewrite Hc. discriminate.
  - destruct (is_space x); [exact IH | discriminate].
Qed.

Lemma trim_nil s : trim s = [] -> blank s.
Proof.
  unfold trim, trimEnd. intros H.
  destruct (trimStart s) as [|c t] eqn:E; [now apply trimStart_nil|].
  exfalso.
  assert (Hc : is_space c = false).
  { destruct s as [|x s]; [discriminate|]. revert E. clear.
    revert x. induction s as [|y s IH]; intros x; cbn.
    - destruct (is_space x) eqn:Ex; [discriminate|]. now intros [= <- _].
    - destruct (is_space x) eqn:Ex; [apply IH | now intros [= <- _]]. }
  apply (f_equal (@rev _)) in H. rewrite rev_involutive in H. cbn in H.
  now apply (trimStart_keeps_end (rev t) c Hc).
Qed.

Lemma split_newline_covers text :
  forall c, In c text -> c <> 10%N ->
            exists l, In l (split_newline text) /\ In c l.
Proof.
  induction text as [|x text IH]; intros c; [intros []|].
  cbn [split_newline In]. intros Hin Hc.
  destruct (x =? 10)%N eqn:E.
  - apply N.eqb_eq in E. subst x.
    destruct Hin as [E|Hin]; [congruence|].
    destruct (IH c Hin Hc) as (l & Hl & Hcl). exists l. split; [now right|auto].
  - destruct (split_newline text) as [|l0 ls] eqn:Es.
    + destruct Hin as [->|Hin]; [exists [c]; split; now left|].
      destruct (IH c Hin Hc) as (l & [] & _).
    + destruct Hin as [->|Hin]; [exists (c :: l0); split; now left|].
      destruct (IH c Hin Hc) as (l & [<-|Hl] & Hcl).
      * exists (x :: l0). split; [now left | now right].
      * exists l. split; [now right | exact Hcl].
Qed.

Lemma plan_lines_nil text : plan_lines text = [] -> blank text.
Proof.
  intros H. apply Forall_forall. intros c Hc.
  destruct (N.eq_dec c 10) as [->|Hn]; [reflexivity|].
  destruct (split_newline_covers text c Hc Hn) as (l & Hl & Hcl).
  assert (Ht : trim l = []).
  { destruct (str_eqb (trim l) []) eqn:E; [now apply str_eqb_eq in E|].
    exfalso. assert (Hin : In l (plan_lines text)).
    { unfold plan_lines. apply filter_In. split; [exact Hl|]. now rewrite E. }
    rewrite H in Hin. destruct Hin. }
  apply trim_nil in Ht. unfold blank in Ht. rewrite Forall_forall in Ht. auto.
Qed.

Lemma nodes_nil text theme :
  nodes (parseExplainToMermaid text theme) = [] <-> blank text.
Proof.
  split.
  - intros H. apply plan_lines_nil.
    apply (f_equal (@List.length _)) in H.
    rewrite nodes_length, <- (length_map fst), nodeDetailsMap_keys in H.
    rewrite length_map, length_seq in H. cbn in H.
    destruct (plan_lines text); [reflexivity | discriminate].
  - intros H. unfold parseExplainToMermaid.
    unfold blank in H. now rewrite (plan_lines_blank text H).
Qed.

Lemma startsWith_app_l prefix s p :
  startsWith (prefix ++ s) (prefix ++ p) = startsWith s p.
Proof.
  induction prefix as [|c prefix IH]; [reflexivity|].
  cbn. now rewrite N.eqb_refl.
Qed.

Lemma startsWith_app_r p :
  forall s t, startsWith s p = true -> startsWith (s ++ t) p = true.
Proof.
  induction p as [|a p IH]; intros s t; [now destruct (s ++ t)|].
  destruct s as [|c s]; cbn; [discriminate|].
  destruct (a =? c)%N; [apply IH | discriminate].
Qed.

Lemma first_node text theme d rest :
  nodes (parseExplainToMermaid text theme) = d :: rest ->
  startsWith d (js "node0[" ++ [quote]) = true.
Proof.
  unfold parseExplainToMermaid.
  destruct (plan_lines text) as [|l ls]; [discriminate|].
  cbn [nodes]. unfold numbered.
  destruct (nodeInfos (scan (l :: ls))) as [|n infos]; [discriminate|].
  cbn [List.length seq combine map fst snd]. intros [= <- _].
  unfold node_declaration.
  replace (node_id 0) with (js "node0") by (vm_compute; reflexivity).
  cbn. now destruct (label _ _ ++ _).
Qed.

End BlankFacts.

(** X8.  [generateDiagram] stores an empty diagram exactly for a text of
    white space only, with no warning and no node data; for any other text
    the diagram starts with the header line and the declaration of
    [node0]. *)
Theorem diagram_empty_iff_blank
  (toLocaleString : num -> jsstring) (text theme : jsstring) :
  let st := Diagram.generateDiagram toLocaleString text theme in
  (Diagram.mermaidCode st = [] <-> blank text) /\
  (blank text /\ Diagram.warnings st = [] /\ Diagram.nodeData st = [] \/
   startsWith (Diagram.mermaidCode st)
     (js "graph TD" ++ newline ++ js "node0[" ++ [quote]) = true).
Proof.
  intros st.
  cbn [st Diagram.generateDiagram Diagram.mermaidCode Diagram.warnings
       Diagram.nodeData].
  pose proof (nodes_nil text theme) as Hnil.
  destruct (nodes (parseExplainToMermaid text theme)) as [|d rest] eqn:E.
  - split; [split; intros; [now apply Hnil | reflexivity]|].
    left. assert (Hb : blank text) by now apply Hnil.
    split; [exact Hb|].
    unfold parseExplainToMermaid. rewrite (plan_lines_blank text Hb).
    split; reflexivity.
  - split.
    + split; [discriminate|]. intros Hb. apply Hnil in Hb. discriminate.
    + right. pose proof (first_node text theme d rest E) as Hd.
      rewrite !(app_assoc (js "graph TD") newline).
      rewrite startsWith_app_l.
      destruct rest; cbn [join]; rewrite <- ?app_assoc;
        now apply startsWith_app_r.
Qed.

(* ================================================================= *)
(** ** Two plans compared *)

Section CompareFacts.

Lemma mem_In l x : mem l x = true <-> In x l.
Proof. unfold mem. apply existsb_message. Qed.

Lemma map_has_mem k (m : js_map) : map_has k m = mem (map fst m) k.
Proof.
  unfold map_has, mem. induction m as [|[k' v] m IH]; [reflexivity|].
  cbn [map_get map fst existsb].
  destruct (str_eqb k' k) eqn:E.
  - apply str_eqb_eq in E. subst. now rewrite str_eqb_refl.
  - replace (str_eqb k k') with false; [exact IH|].
    symmetry. apply str_eqb_neq. apply str_eqb_neq in E. congruence.
Qed.

Lemma unique_strings_spec l :
  forall seen,
    NoDup (unique_strings seen l) /\
    forall x, In x (unique_strings seen l) <-> In x l /\ ~ In x seen.
Proof.
  induction l as [|y l IH]; intros seen; cbn [unique_strings].
  - split; [constructor | cbn; tauto].
  - destruct (existsb (str_eqb y) seen) eqn:E.
    + apply existsb_message in E. destruct (IH seen) as [Hn Hx].
      split; [exact Hn|]. intros x. rewrite Hx. cbn [In]. split; [tauto|].
      intros [[<-|H] Hs]; [contradiction | tauto].
    + assert (Hy : ~ In y seen).
      { intros H. apply existsb_message in H. congruence. }
      destruct (IH (y :: seen)) as [Hn Hx]. split.
      * constructor; [|exact Hn]. rewrite Hx. cbn [In]. tauto.
      * intros x. cbn [In]. rewrite Hx. cbn [In].
        destruct (list_eq_dec N.eq_dec y x) as [<-|Hne]; tauto.
Qed.

Lemma normalizedNodes_NoDup m : NoDup (map fst (normalizedNodes m)).
Proof. rewrite normalizedNodes_keys. apply unique_strings_spec. Qed.

(** Every key of the [Map] leads to a node of its plan. *)
Lemma key_resolves (m : js_object node_detail) k :
  In k (map fst (normalizedNodes m)) ->
  exists id node,
    map_get k (normalizedNodes m) = Some id /\ obj_get id m = Some node.
Proof.
  intros Hk. destruct (map_get_present k _ Hk) as [id Hid].
  destruct (obj_get_present id m (normalizedNodes_values m k id Hid))
    as (node & Hnode & _).
  now exists id, node.
Qed.

Variables mA mB : js_object node_detail.

Lemma classify_fold ks :
  forall c,
    Forall (fun k => In k (map fst (normalizedNodes mB))) ks ->
    exists c',
      fold_left (classify_key (normalizedNodes mA) (normalizedNodes mB) mA mB)
        ks (Some c) = Some c' /\
      addedNodes c'
      = addedNodes c
        ++ map (single_of (normalizedNodes mB) mB)
             (filter (fun k => negb (mem (map fst (normalizedNodes mA)) k))
                     ks) /\
      removedNodes c' = removedNodes c /\
      List.length (changedNodes c') + List.length (unchangedNodes c')
      = List.length (changedNodes c) + List.length (unchangedNodes c)
        + List.length (filter (mem (map fst (normalizedNodes mA))) ks).
Proof.
  induction ks as [|k ks IH]; intros c Hks.
  - exists c. cbn. rewrite app_nil_r. repeat split; lia.
  - inversion Hks as [|? ? Hk Hks']; subst.
    destruct (key_resolves mB k Hk) as (id2 & node2 & Hid2 & Hnode2).
    cbn [fold_left filter]. unfold classify_key at 2.
    rewrite Hid2, Hnode2, map_has_mem.
    destruct (mem (map fst (normalizedNodes mA)) k) eqn:Em; cbn [negb].
    + apply mem_In in Em.
      destruct (key_resolves mA k Em) as (id1 & node1 & Hid1 & Hnode1).
      rewrite Hid1, Hnode1.
      destruct (negb _ || negb _).
      * edestruct IH as (c' & E & Ha & Hr & Hlen);
          [exact Hks' | exists c'; split; [exact E|]].
        cbn in Ha, Hr, Hlen. rewrite length_app in Hlen. cbn in Hlen.
        cbn [List.length]. repeat split; auto. lia.
      * edestruct IH as (c' & E & Ha & Hr & Hlen);
          [exact Hks' | exists c'; split; [exact E|]].
        cbn in Ha, Hr, Hlen. rewrite length_app in Hlen. cbn in Hlen.
        cbn [List.length]. repeat split; auto. lia.
    + edestruct IH as (c' & E & Ha & Hr & Hlen);
        [exact Hks' | exists c'; split; [exact E|]].
      cbn [addedNodes removedNodes changedNodes unchangedNodes] in Ha, Hr, Hlen.
      cbn [map]. rewrite <- app_assoc in Ha. cbn [app] in Ha.
      split; [|split; [exact Hr | exact Hlen]].
      rewrite Ha.
      replace (single_of (normalizedNodes mB) mB k)
        with {| s_nodeId := id2; s_node := Some node2 |}; [reflexivity|].
      unfold single_of. rewrite Hid2. cbv zeta. now rewrite Hnode2.
Qed.

Lemma removed_flat_map ks :
  flat_map (removed_key (normalizedNodes mA) (normalizedNodes mB) mA) ks
  = map (single_of (normalizedNodes mA) mA)
        (filter (fun k => negb (mem (map fst (normalizedNodes mB)) k)) ks).
Proof.
  induction ks as [|k ks IH]; [reflexivity|].
  cbn [flat_map filter]. unfold removed_key at 1. rewrite map_has_mem, IH.
  now destruct (mem (map fst (normalizedNodes mB)) k).
Qed.

Lemma classifyNodes_general :
  exists c,
    classifyNodes mA mB = Some c /\
    addedNodes c
    = map (single_of (normalizedNodes mB) mB)
        (filter (fun k => negb (mem (map fst (normalizedNodes mA)) k))
                (map fst (normalizedNodes mB))) /\
    removedNodes c
    = map (single_of (normalizedNodes mA) mA)
        (filter (fun k => negb (mem (map fst (normalizedNodes mB)) k))
                (map fst (normalizedNodes mA))) /\
    List.length (changedNodes c) + List.length (unchangedNodes c)
    = List.length (filter (mem (map fst (normalizedNodes mA)))
                          (map fst (normalizedNodes mB))).
Proof.
  destruct (classify_fold (map fst (normalizedNodes mB))
              {| addedNodes := []; removedNodes := [];
                 changedNodes := []; unchangedNodes := [] |})
    as (c & E & Ha & Hr & Hlen); [apply Forall_forall; auto|].
  unfold classifyNodes. rewrite E. eexists. split; [reflexivity|].
  cbn [addedNodes removedNodes changedNodes unchangedNodes].
  split; [exact Ha|]. split; [apply removed_flat_map | exact Hlen].
Qed.

End CompareFacts.

Section Declarations.

Lemma single_declarations_total kind fill stroke normalized m ks :
  Forall (fun k => In k (map fst (normalizedNodes m))) ks ->
  normalized = normalizedNodes m ->
  exists r,
    single_declarations kind fill stroke (map (single_of normalized m) ks)
    = Some r.
Proof.
  intros H ->. induction H as [|k ks Hk _ [r IH]]; [now exists []|].
  destruct (key_resolves m k Hk) as (id & node & Hid & Hnode).
  cbn [map single_declarations fold_right].
  unfold single_declarations in IH. rewrite IH.
  unfold single_of at 1 2 3. rewrite Hid. cbn [s_node s_nodeId].
  rewrite Hnode. eexists. reflexivity.
Qed.

Lemma filter_exclusive {A} (f g : A -> bool) l :
  (forall x, In x l -> f x = true -> g x = false) ->
  List.length (filter (fun x => f x || g x) l)
  = List.length (filter f l) + List.length (filter g l).
Proof.
  induction l as [|x l IH]; intros H; [reflexivity|].
  cbn [filter]. specialize (IH (fun y Hy => H y (or_intror Hy))).
  specialize (H x (or_introl eq_refl)).
  destruct (f x); cbn [orb].
  - rewrite (H eq_refl). cbn. lia.
  - destruct (g x); cbn; lia.
Qed.

Lemma filter_one l x :
  NoDup l ->
  List.length (filter (fun y => str_eqb y x) l) = if mem l x then 1 else 0.
Proof.
  unfold mem. induction 1 as [|y l Hy _ IH]; [reflexivity|].
  cbn [filter existsb].
  destruct (str_eqb y x) eqn:E.
  - apply str_eqb_eq in E. subst y. rewrite str_eqb_refl. cbn.
    replace (existsb (str_eqb x) l) with false in IH; [lia|].
    symmetry. apply not_true_is_false. intros H.
    now apply existsb_message in H.
  - replace (str_eqb x y) with false; [exact IH|].
    symmetry. apply str_eqb_neq. apply str_eqb_neq in E. congruence.
Qed.

(** Two lists without repetition have as many elements of the one in the
    other as of the other in the one. *)
Lemma common_count l1 :
  forall l2, NoDup l1 -> NoDup l2 ->
             List.length (filter (mem l2) l1) = List.length (filter (mem l1) l2).
Proof.
  induction l1 as [|x l1 IH]; intros l2 H1 H2.
  - assert (E : filter (mem []) l2 = [])
      by (clear; induction l2; cbn; auto).
    now rewrite E.
  - inversion H1 as [|? ? Hx H1']; subst. cbn [filter].
    assert (E : filter (mem (x :: l1)) l2
                = filter (fun y => str_eqb y x || mem l1 y) l2).
    { apply filter_ext. intros y. reflexivity. }
    rewrite E, filter_exclusive, (filter_one l2 x H2), <- (IH l2 H1' H2).
    + destruct (mem l2 x); cbn; lia.
    + intros y _ Hy. apply str_eqb_eq in Hy. subst y.
      apply not_true_is_false. intros H. now apply mem_In in H.
Qed.

End Declarations.

Section CompareOutcome.

(** Two texts that are not empty are compared to the end, and the four
    lists hold what [classifyNodes_general] says. *)
Lemma comparePlans_general textA textB theme :
  textA <> [] -> textB <> [] ->
  let mA := nodeDetailsMap (parseExplainToMermaid textA theme) in
  let mB := nodeDetailsMap (parseExplainToMermaid textB theme) in
  exists c,
    comparePlans textA textB theme = Compared c /\
    addedNodes (classes c)
    = map (single_of (normalizedNodes mB) mB)
        (filter (fun k => negb (mem (map fst (normalizedNodes mA)) k))
                (map fst (normalizedNodes mB))) /\
    removedNodes (classes c)
    = map (single_of (normalizedNodes mA) mA)
        (filter (fun k => negb (mem (map fst (normalizedNodes mB)) k))
                (map fst (normalizedNodes mA))) /\
    List.length (changedNodes (classes c))
    + List.length (unchangedNodes (classes c))
    = List.length (filter (mem (map fst (normalizedNodes mA)))
                          (map fst (normalizedNodes mB))).
Proof.
  intros HA HB mA mB.
  destruct (classifyNodes_general mA mB) as (c & E & Ha & Hr & Hlen).
  destruct (single_declarations_total (js "Removed") (js "#ffcccc")
              (js "#f44336") (normalizedNodes mA) mA
              (filter (fun k => negb (mem (map fst (normalizedNodes mB)) k))
                      (map fst (normalizedNodes mA))))
    as [removed Hrem]; [|reflexivity|].
  { apply Forall_forall. intros k Hk. apply filter_In in Hk. tauto. }
  destruct (single_declarations_total (js "Added") (js "#cce0ff")
              (js "#2196F3") (normalizedNodes mB) mB
              (filter (fun k => negb (mem (map fst (normalizedNodes mA)) k))
                      (map fst (normalizedNodes mB))))
    as [added Hadd]; [|reflexivity|].
  { apply Forall_forall. intros k Hk. apply filter_In in Hk. tauto. }
  unfold comparePlans.
  destruct textA as [|a textA']; [contradiction|].
  destruct textB as [|b textB']; [contradiction|].
  fold mA. fold mB. rewrite E, Hr, Ha, Hrem, Hadd.
  eexists. split; [reflexivity|]. cbn [classes]. auto.
Qed.

End CompareOutcome.

(** X9.  Two plan texts that are not empty are compared without a
    TypeError, and every normalization key is counted once: the keys of
    the second plan are the added, changed and unchanged nodes, the keys of
    the first the removed, changed and unchanged ones. *)
Theorem compare_classifies_every_key (textA textB theme : jsstring) :
  textA <> [] -> textB <> [] ->
  exists c,
    comparePlans textA textB theme = Compared c /\
    List.length (addedNodes (classes c))
    + List.length (changedNodes (classes c))
    + List.length (unchangedNodes (classes c))
    = List.length (plan_keys textB theme) /\
    List.length (removedNodes (classes c))
    + List.length (changedNodes (classes c))
    + List.length (unchangedNodes (classes c))
    = List.length (plan_keys textA theme).
Proof.
  intros HA HB.
  destruct (comparePlans_general textA textB theme HA HB)
    as (c & E & Ha & Hr & Hlen).
  exists c. split; [exact E|]. unfold plan_keys.
  set (kA := map fst (normalizedNodes
                        (nodeDetailsMap (parseExplainToMermaid textA theme))))
    in *.
  set (kB := map fst (normalizedNodes
                        (nodeDetailsMap (parseExplainToMermaid textB theme))))
    in *.
  rewrite Ha, Hr, !length_map. split.
  - rewrite <- (filter_length (mem kA) kB). lia.
  - rewrite <- (filter_length (mem kB) kA).
    rewrite (common_count kA kB) by apply normalizedNodes_NoDup. lia.
Qed.

Lemma compare_classifies_every_key_witness :
  default_plan <> [] /\ twin_plan <> [] /\
  exists c,
    comparePlans default_plan twin_plan (js "light") = Compared c /\
    List.length (addedNodes (classes c)) = 2 /\
    List.length (removedNodes (classes c)) = 4.
Proof.
  assert (HA : default_plan <> []) by (vm_compute; discriminate).
  assert (HB : twin_plan <> []) by (vm_compute; discriminate).
  split; [exact HA|]. split; [exact HB|].
  destruct (compare_classifies_every_key default_plan twin_plan (js "light")
              HA HB) as (c & E & _).
  exists c. split; [exact E|].
  revert E. vm_compute. intros [= <-]. split; reflexivity.
Defined.

(** X10.  Comparing in the other direction turns the added nodes into
    the removed ones and back, entry for entry, and classifies as many
    nodes as changed or unchanged. *)
Theorem compare_swapped (textA textB theme : jsstring) :
  textA <> [] -> textB <> [] ->
  exists c c',
    comparePlans textA textB theme = Compared c /\
    comparePlans textB textA theme = Compared c' /\
    addedNodes (classes c) = removedNodes (classes c') /\
    removedNodes (classes c) = addedNodes (classes c') /\
    List.length (changedNodes (classes c))
    + List.length (unchangedNodes (classes c))
    = List.length (changedNodes (classes c'))
      + List.length (unchangedNodes (classes c')).
Proof.
  intros HA HB.
  destruct (comparePlans_general textA textB theme HA HB)
    as (c & E & Ha & Hr & Hlen).
  destruct (comparePlans_general textB textA theme HB HA)
    as (c' & E' & Ha' & Hr' & Hlen').
  exists c, c'. split; [exact E|]. split; [exact E'|].
  split; [now rewrite Ha, Hr'|]. split; [now rewrite Hr, Ha'|].
  rewrite Hlen, Hlen'. symmetry.
  apply common_count; apply normalizedNodes_NoDup.
Qed.

Lemma compare_swapped_witness :
  default_plan <> [] /\ twin_plan <> [] /\
  exists c c',
    comparePlans default_plan twin_plan (js "light") = Compared c /\
    comparePlans twin_plan default_plan (js "light") = Compared c' /\
    addedNodes (classes c) = removedNodes (classes c').
Proof.
  assert (HA : default_plan <> []) by (vm_compute; discriminate).
  assert (HB : twin_plan <> []) by (vm_compute; discriminate).
  split; [exact HA|]. split; [exact HB|].
  destruct (compare_swapped default_plan twin_plan (js "light") HA HB)
    as (c & c' & E & E' & H & _).
  exists c, c'. split; [exact E|]. split; [exact E'|exact H].
Defined.


(* ================================================================= *)
(** ** Links in messages *)

Section LinkFacts.

Lemma match_here_greedy_capture min p cap r s rest caps :
  match_here (Greedy min p cap :: r) s = Some (rest, caps) ->
  exists k caps',
    min <= k <= run_length p s /\
    match_here r (skipn k s) = Some (rest, caps') /\
    caps = if cap then firstn k s :: caps' else caps'.
Proof.
  cbn [match_here].
  assert (H : forall n,
             (fix give_back (k : nat) : option (jsstring * list jsstring) :=
                if k <? min then None
                else match match_here r (skipn k s) with
                     | Some (rest, caps) =>
                         Some (rest, if cap then firstn k s :: caps else caps)
                     | None => match k with
                               | O => None
                               | S k' => give_back k'
                               end
                     end) n = Some (rest, caps) ->
             exists k caps',
               min <= k <= n /\
               match_here r (skipn k s) = Some (rest, caps') /\
               caps = if cap then firstn k s :: caps' else caps').
  { induction n as [|n IH].
    - destruct (0 <? min) eqn:E; [discriminate|]. apply Nat.ltb_ge in E.
      destruct (match_here r (skipn 0 s)) as [[rest' caps']|] eqn:Em;
        [|discriminate].
      intros [= <- <-]. exists 0, caps'. repeat split; auto.
    - destruct (S n <? min) eqn:E; [discriminate|]. apply Nat.ltb_ge in E.
      destruct (match_here r (skipn (S n) s)) as [[rest' caps']|] eqn:Em.
      + intros [= <- <-]. exists (S n), caps'. repeat split; auto.
      + intros H. destruct (IH H) as (k & caps' & Hk & Hm & Hc).
        exists k, caps'. repeat split; auto; lia. }
  apply H.
Qed.

Lemma run_length_firstn p s k :
  k <= run_length p s -> Forall (fun c => p c = true) (firstn k s).
Proof.
  revert k. induction s as [|c s IH]; intros k Hk.
  - destruct k; constructor.
  - destruct k as [|k]; [constructor|]. cbn in Hk |- *.
    destruct (p c) eqn:E; [|lia]. constructor; [exact E|].
    apply IH. lia.
Qed.

Lemma firstn_nonempty {A} (s : list A) k :
  1 <= k -> k <= List.length s -> firstn k s <> [].
Proof. destruct k, s; cbn; intros; try lia; discriminate. Qed.

Lemma run_length_le p s : run_length p s <= List.length s.
Proof. induction s as [|c s IH]; cbn; [lia|]. destruct (p c); lia. Qed.

(** What [linkRegex] matches at the head of a string. *)
Lemma linkRegex_match s rest caps :
  match_here linkRegex s = Some (rest, caps) ->
  exists text url,
    caps = [text; url] /\
    s = 91%N :: text ++ 93%N :: 40%N :: url ++ 41%N :: rest /\
    part_ok (Link text url).
Proof.
  unfold linkRegex. intros H.
  apply match_here_one in H. destruct H as (c0 & s0 & -> & Hc0 & H).
  apply match_here_greedy_capture in H.
  destruct H as (k & caps1 & Hk & H & ->).
  apply match_here_one in H. destruct H as (c1 & s1 & E1 & Hc1 & H).
  apply match_here_one in H. destruct H as (c2 & s2 & -> & Hc2 & H).
  apply match_here_greedy_capture in H.
  destruct H as (k' & caps2 & Hk' & H & ->).
  apply match_here_one in H. destruct H as (c3 & s3 & E3 & Hc3 & H).
  cbn in H. injection H as <- <-.
  unfold lit in *. apply N.eqb_eq in Hc0, Hc1, Hc2, Hc3. subst.
  exists (firstn k s0), (firstn k' s2). split; [reflexivity|]. split.
  - f_equal. rewrite <- (firstn_skipn k s0) at 1. f_equal.
    etransitivity; [exact E1|]. do 2 f_equal.
    rewrite <- (firstn_skipn k' s2) at 1. f_equal. exact E3.
  - pose proof (run_length_firstn _ s0 k (proj2 Hk)) as Ht.
    pose proof (run_length_firstn _ s2 k' (proj2 Hk')) as Hu.
    pose proof (run_length_le (fun c => negb (c =? 93)%N) s0).
    pose proof (run_length_le (fun c => negb (c =? 41)%N) s2).
    cbn. repeat split.
    + apply firstn_nonempty; lia.
    + apply firstn_nonempty; lia.
    + intros Hin. rewrite Forall_forall in Ht. specialize (Ht _ Hin).
      discriminate.
    + intros Hin. rewrite Forall_forall in Hu. specialize (Hu _ Hin).
      discriminate.
Qed.

Lemma flush_source pending :
  List.concat (map part_source (flush pending)) = pending.
Proof.
  destruct pending; cbn [flush map part_source List.concat];
    [reflexivity | apply app_nil_r].
Qed.

Lemma flush_ok pending : Forall part_ok (flush pending).
Proof. destruct pending; cbn; repeat constructor. discriminate. Qed.

Lemma parts_from_source s :
  forall skip pending,
    skip <= List.length s ->
    List.concat (map part_source (parts_from skip pending s))
    = pending ++ skipn skip s.
Proof.
  induction s as [|c s IH]; intros skip pending Hs.
  - cbn [parts_from]. rewrite flush_source.
    destruct skip; cbn [skipn]; now rewrite app_nil_r.
  - cbn [parts_from]. destruct skip as [|skip].
    + destruct (match_here linkRegex (c :: s)) as [[rest caps]|] eqn:E.
      * destruct (linkRegex_match _ _ _ E) as (text & url & -> & Es & _).
        injection Es as -> ->.
        set (M := text ++ 93%N :: 40%N :: url ++ [41%N]).
        assert (Hs' : text ++ 93%N :: 40%N :: url ++ 41%N :: rest = M ++ rest).
        { unfold M. rewrite <- !app_assoc. cbn. now rewrite <- !app_assoc. }
        rewrite Hs' in *.
        match goal with
        | |- context [parts_from ?n [] _] =>
            replace n with (List.length M)
              by (cbn [List.length]; rewrite length_app; lia)
        end.
        rewrite map_app, concat_app, flush_source.
        cbn [map List.concat].
        rewrite IH by (rewrite length_app; lia).
        rewrite skipn_app, skipn_all, Nat.sub_diag. cbn [skipn app group nth Nat.sub].
        change (part_source (Link text url)) with (91%N :: M).
        reflexivity.
      * rewrite IH by lia. cbn. now rewrite <- app_assoc.
    + rewrite IH by (cbn in Hs; lia). reflexivity.
Qed.

Lemma parts_from_ok s :
  forall skip pending, Forall part_ok (parts_from skip pending s).
Proof.
  induction s as [|c s IH]; intros skip pending; cbn [parts_from].
  - apply flush_ok.
  - destruct skip; [|apply IH].
    destruct (match_here linkRegex (c :: s)) as [[rest caps]|] eqn:E;
      [|apply IH].
    destruct (linkRegex_match _ _ _ E) as (text & url & -> & _ & Hok).
    apply Forall_app. split; [apply flush_ok|].
    constructor; [exact Hok | apply IH].
Qed.

Lemma parts_from_plain s :
  forall pending, ~ In 91%N s -> parts_from 0 pending s = flush (pending ++ s).
Proof.
  induction s as [|c s IH]; intros pending Hs; cbn [parts_from].
  - now rewrite app_nil_r.
  - destruct (match_here linkRegex (c :: s)) as [[rest caps]|] eqn:E.
    + destruct (linkRegex_match _ _ _ E) as (text & url & _ & Es & _).
      injection Es as -> _. exfalso. apply Hs. now left.
    + rewrite IH by (intros H; apply Hs; now right).
      now rewrite <- app_assoc.
Qed.

End LinkFacts.

(** X12.  The parts of a message, written back in its notation, are the
    message; no text part is empty, and the text and the URL of a link are
    not empty and hold no [\]] and no [)] respectively. *)
Theorem links_round_trip (message : jsstring) :
  List.concat (map part_source (renderMessageWithLinks message)) = message /\
  Forall part_ok (renderMessageWithLinks message).
Proof.
  split; [|apply parts_from_ok].
  unfold renderMessageWithLinks. now rewrite parts_from_source by lia.
Qed.

(** X13.  A message without an opening square bracket is a single text
    part, or no part at all when it is empty. *)
Theorem plain_message_is_one_text (message : jsstring) :
  ~ In 91%N message -> renderMessageWithLinks message = flush message.
Proof. intros H. unfold renderMessageWithLinks. now rewrite parts_from_plain. Qed.

Example nested_loop_message_parts :
  renderMessageWithLinks nested_loop_message
  = [Text (warning_sign ++ js " Nested Loop join detected. This can be very slow if the inner table is large. Consider adding proper join conditions or indexes. ");
     Link (js "Learn more") (js "https://docs.aws.amazon.com/redshift/latest/dg/c_Nested_loop_join.html")].
Proof. vm_compute. reflexivity. Qed.

Lemma plain_message_is_one_text_witness :
  ~ In 91%N (js "Broadcast of a small table") /\
  renderMessageWithLinks (js "Broadcast of a small table")
  = [Text (js "Broadcast of a small table")].
Proof.
  assert (H : ~ In 91%N (js "Broadcast of a small table")).
  { intros H.
    assert (E : existsb (N.eqb 91) (js "Broadcast of a small table") = true)
      by (apply existsb_exists; exists 91%N; split; [exact H|reflexivity]).
    vm_compute in E. discriminate E. }
  split; [exact H|].
  now rewrite (plain_message_is_one_text _ H).
Defined.

(* ================================================================= *)
(** ** The costliest node *)

Section CostOrder.
Local Open Scope Z_scope.

Lemma round_pos_le_ratio n d t :
  0 <= n <= t * d -> 0 < d -> representable t ->
  exists k, round_pos n d = Fin k /\ 0 <= k <= t.
Proof.
  intros Hn Hd [Hmax Hmod].
  assert (Ht0 : 0 <= t) by nia.
  rewrite Z.abs_eq in Hmax, Hmod by lia.
  unfold round_pos.
  set (b := ulp_exp (n / d)).
  assert (Hb : 0 <= b) by apply ulp_exp_nonneg.
  pose proof (pow2_pos b Hb) as Hp.
  assert (Hq : n / d <= t).
  { apply Z.div_le_upper_bound; [lia|]. lia. }
  assert (Ht : t mod 2 ^ b = 0).
  { pose proof (ulp_exp_mono (n / d) t Hq) as Hle. fold b in Hle.
    apply Z.mod_divide in Hmod;
      [|pose proof (pow2_pos _ (ulp_exp_nonneg t)); lia].
    destruct Hmod as [m ->]. apply mul_pow2_mod. lia. }
  apply Z.mod_divide in Ht; [|lia]. destruct Ht as [t' ->].
  set (u := d * 2 ^ b).
  assert (Hu : 0 < u) by (unfold u; nia).
  pose proof (Z.div_mod n u ltac:(lia)) as Hdm.
  pose proof (Z.mod_pos_bound n u Hu) as Hr.
  set (c := n / u) in *. set (r := n mod u) in *.
  assert (Hc0 : 0 <= c) by (apply Z.div_pos; lia).
  set (c' := match 2 * r ?= u with
             | Lt => c | Gt => c + 1
             | Eq => if Z.even c then c else c + 1 end).
  assert (Hc' : c <= c' /\ (c' = c \/ 0 < r /\ c' = c + 1)).
  { unfold c'. destruct (2 * r ?= u) eqn:E.
    - apply Z.compare_eq in E. destruct (Z.even c); lia.
    - lia.
    - apply Z.compare_gt_iff in E. lia. }
  assert (Hnu : n <= t' * u) by (unfold u; nia).
  assert (Hk : c' <= t').
  { clearbody c r. destruct Hc' as [_ [->|[Hr0 ->]]].
    - assert (c < t' + 1); [|lia].
      apply (Z.mul_lt_mono_pos_r u); [lia|]. nia.
    - assert (c < t'); [|lia].
      apply (Z.mul_lt_mono_pos_r u); [lia|]. nia. }
  exists (c' * 2 ^ b).
  assert (c' * 2 ^ b <= t' * 2 ^ b)
    by (apply Z.mul_le_mono_nonneg_r; lia).
  replace (c' * 2 ^ b <? 2 ^ 2098) with true
    by (symmetry; apply Z.ltb_lt; lia).
  split; [reflexivity|]. nia.
Qed.

Lemma round_pos_positive v :
  0 < v -> round_pos v 1 = Inf false \/ exists k, round_pos v 1 = Fin k /\ 0 < k.
Proof.
  intros Hv. unfold round_pos. rewrite Z.div_1_r, Z.mul_1_l.
  set (b := ulp_exp v).
  assert (Hb : 0 <= b) by apply ulp_exp_nonneg.
  pose proof (pow2_pos b Hb) as Hp.
  pose proof (Z.div_mod v (2 ^ b) ltac:(lia)) as Hdm.
  pose proof (Z.mod_pos_bound v (2 ^ b) Hp) as Hr.
  assert (Hc : 0 < v / 2 ^ b).
  { apply Z.div_str_pos. split; [lia|].
    unfold b, ulp_exp.
    destruct (Z.log2_spec v Hv) as [Hlo _].
    eapply Z.le_trans; [|exact Hlo].
    pose proof (Z.log2_nonneg v).
    apply Z.pow_le_mono_r; lia. }
  set (c := v / 2 ^ b) in *. set (r := v mod 2 ^ b) in *.
  set (c' := match 2 * r ?= 2 ^ b with
             | Lt => c | Gt => c + 1
             | Eq => if Z.even c then c else c + 1 end).
  assert (Hc' : c <= c').
  { unfold c'. destruct (2 * r ?= 2 ^ b); [destruct (Z.even c)| |]; lia. }
  destruct (c' * 2 ^ b <? 2 ^ 2098); [right | now left].
  exists (c' * 2 ^ b). split; [reflexivity|]. nia.
Qed.

Lemma representable_neg k : representable k -> representable (- k).
Proof. unfold representable. now rewrite Z.abs_opp. Qed.

Lemma representable_double k :
  0 < k -> 2 * k < 2 ^ 2098 -> representable k -> representable (2 * k).
Proof.
  intros Hk Hlt [_ Hmod]. rewrite Z.abs_eq in Hmod by lia.
  unfold representable. rewrite Z.abs_eq by lia. split; [assumption|].
  apply Z.mod_divide in Hmod;
    [|pose proof (pow2_pos _ (ulp_exp_nonneg k)); lia].
  destruct Hmod as [m Hm].
  pose proof (ulp_exp_nonneg k) as He.
  assert (E : 2 * k = m * 2 ^ (ulp_exp k + 1)).
  { rewrite Z.pow_add_r by lia. lia. }
  rewrite E at 1. apply mul_pow2_mod.
  split; [apply ulp_exp_nonneg|].
  unfold ulp_exp. rewrite Z.log2_double by lia. lia.
Qed.

Lemma num_add_valid x y : valid (num_add x y).
Proof.
  destruct x as [|[]|a], y as [|[]|b]; cbn; trivial.
  unfold round_ratio. destruct (a + b <? 0) eqn:E.
  - apply Z.ltb_lt in E.
    destruct (round_pos_valid (- (a + b)) 1) as [->|(k & -> & _ & Hk)];
      [lia|lia|exact I|].
    cbn. now apply representable_neg.
  - apply Z.ltb_ge in E.
    destruct (round_pos_valid (a + b) 1) as [->|(k & -> & _ & Hk)];
      [lia|lia|exact I|exact Hk].
Qed.

(** An exclusive cost is a double, whatever the costs it is made from. *)
Lemma exclusiveCost_valid infos node : valid (exclusiveCost infos node).
Proof.
  unfold exclusiveCost, num_sub.
  pose proof (num_add_valid (totalCost node)
                (num_neg (childrenTotalCost infos node))) as He.
  destruct (num_ltb _ zero); [apply representable_0|exact He].
Qed.

(** On positive costs the comparator of the sort is the order of the
    numbers. *)
Lemma comparator_is_order x y :
  positive_cost x -> positive_cost y ->
  num_ltb (num_sub y x) zero = num_ltb y x.
Proof.
  intros [_ Hx] [_ Hy].
  destruct x as [|[]|a], y as [|[]|b]; cbn in Hx, Hy; try discriminate;
    try reflexivity.
  apply Z.ltb_lt in Hx, Hy.
  cbn [num_sub num_neg num_add]. unfold round_ratio.
  destruct (b + - a <? 0) eqn:E.
  - apply Z.ltb_lt in E.
    destruct (round_pos_positive (- (b + - a))) as [->|(k & -> & Hk)];
      [lia| |]; cbn; symmetry; [apply Z.ltb_lt; lia|].
    transitivity true; [apply Z.ltb_lt; lia|symmetry; apply Z.ltb_lt; lia].
  - apply Z.ltb_ge in E.
    destruct (round_pos_valid (b + - a) 1) as [->|(k & -> & Hk & _)];
      [lia|lia| |]; cbn; symmetry.
    + apply Z.ltb_ge; lia.
    + transitivity false; [apply Z.ltb_ge; lia|symmetry; apply Z.ltb_ge; lia].
Qed.

Lemma num_leb_refl x : positive_cost x -> num_leb x x = true.
Proof.
  intros [_ Hx]. destruct x as [|[]|a]; cbn in *; try discriminate;
    [reflexivity|apply Z.leb_refl].
Qed.

Lemma num_leb_ltb_trans x y z :
  num_leb x y = true -> num_ltb y z = true -> num_leb x z = true.
Proof.
  destruct x as [|[]|a], y as [|[]|b], z as [|[]|c]; cbn;
    try discriminate; try reflexivity.
  intros H1 H2. apply Z.leb_le in H1. apply Z.ltb_lt in H2.
  apply Z.leb_le. lia.
Qed.

Lemma num_leb_total x y :
  positive_cost x -> positive_cost y ->
  num_ltb y x = false -> num_leb x y = true.
Proof.
  intros [_ Hx] [_ Hy].
  destruct x as [|[]|a], y as [|[]|b]; cbn in *;
    try discriminate; try reflexivity.
  intros H. apply Z.ltb_ge in H. now apply Z.leb_le.
Qed.

Lemma num_leb_antisym x y :
  num_leb x y = true -> num_leb y x = true -> x = y.
Proof.
  destruct x as [|[]|a], y as [|[]|b]; cbn;
    try discriminate; try reflexivity.
  intros H1 H2. apply Z.leb_le in H1, H2. f_equal. lia.
Qed.

Lemma same_value_zero_eq x y : same_value_zero x y = true <-> x = y.
Proof.
  destruct x as [|[]|a], y as [|[]|b]; cbn; split;
    try discriminate; try reflexivity.
  - intros H. apply Z.eqb_eq in H. now subst.
  - intros [= ->]. apply Z.eqb_refl.
Qed.

Lemma num_eq_dec (x y : num) : {x = y} + {x <> y}.
Proof. decide equality; [apply Bool.bool_dec|apply Z.eq_dec]. Qed.

Lemma set_values_In seen l x :
  In x (set_values seen l) <-> In x l /\ ~ In x seen.
Proof.
  revert seen. induction l as [|y l IH]; intros seen; cbn; [tauto|].
  destruct (existsb (same_value_zero y) seen) eqn:E.
  - apply existsb_exists in E. destruct E as (z & Hz & E).
    apply same_value_zero_eq in E. subst z.
    rewrite IH. split; [tauto|].
    intros [[->|H] Hn]; [contradiction|tauto].
  - assert (Hy : ~ In y seen).
    { intros H. apply not_true_iff_false in E. apply E.
      apply existsb_exists. exists y. split; [exact H|].
      now apply same_value_zero_eq. }
    cbn. rewrite IH. cbn. split.
    + intros [->|[H Hn]]; [tauto|]. tauto.
    + intros [[->|H] Hn]; [tauto|].
      destruct (num_eq_dec y x) as [->|Hne]; [tauto|]. right. tauto.
Qed.

(** The mean of a cost and a smaller one, as the code computes it, does
    not pass the cost. *)
Lemma midpoint_le k ks :
  0 < ks <= k -> representable k -> 2 * k < 2 ^ 2098 ->
  num_leb (num_div (num_add (Fin k) (Fin ks)) (of_Z 2)) (Fin k) = true.
Proof.
  intros Hks Hk Hlt.
  cbn [num_add]. unfold round_ratio.
  replace (k + ks <? 0) with false by (symmetry; apply Z.ltb_ge; lia).
  destruct (round_pos_le_ratio (k + ks) 1 (2 * k)) as (k1 & -> & Hk1);
    [lia|lia|apply representable_double; [lia|assumption|assumption]|].
  assert (E2 : of_Z 2 = Fin (2 * unit)) by (vm_compute; reflexivity).
  rewrite E2. unfold num_div.
  change (2 * unit =? 0) with false. change (2 * unit <? 0) with false.
  cbv iota.
  assert (Hu : 0 < unit) by reflexivity.
  unfold round_ratio.
  replace (k1 * unit <? 0) with false by (symmetry; apply Z.ltb_ge; nia).
  destruct (round_pos_le_ratio (k1 * unit) (2 * unit) k) as (k2 & -> & Hk2);
    [nia|lia|assumption|].
  cbn. apply Z.leb_le. lia.
Qed.

Lemma insert_sorted_In x y l : In x (insert_sorted y l) <-> x = y \/ In x l.
Proof.
  induction l as [|z l IH]; cbn; [intuition congruence|].
  destruct (num_ltb _ _); cbn; [intuition congruence|].
  rewrite IH. intuition congruence.
Qed.

Lemma sort_descending_In x l : In x (sort_descending l) <-> In x l.
Proof.
  induction l as [|y l IH]; cbn; [tauto|].
  rewrite insert_sorted_In. fold (sort_descending l). rewrite IH.
  intuition congruence.
Qed.

(** The sort puts a greatest cost first. *)
Lemma sort_descending_head l :
  Forall positive_cost l ->
  match sort_descending l with
  | [] => l = []
  | m :: _ => forall z, In z l -> num_leb z m = true
  end.
Proof.
  induction 1 as [|x l Hx Hl IH]; [reflexivity|].
  cbn [sort_descending fold_right]. fold (sort_descending l).
  pose proof (fun m => sort_descending_In m l) as HIn.
  destruct (sort_descending l) as [|m r].
  - subst l. cbn. intros z [<-|[]]. now apply num_leb_refl.
  - assert (Hm : positive_cost m).
    { rewrite Forall_forall in Hl. apply Hl. apply HIn. now left. }
    cbn [insert_sorted]. rewrite comparator_is_order by assumption.
    destruct (num_ltb m x) eqn:C.
    + intros z [<-|Hz]; [now apply num_leb_refl|].
      eapply num_leb_ltb_trans; [apply IH, Hz|exact C].
    + intros z [<-|Hz]; [now apply num_leb_total|]. now apply IH.
Qed.

Lemma allExclusiveCosts_In infos x :
  In x (allExclusiveCosts infos) <->
  exists node, In node infos /\ exclusiveCost infos node = x /\
               num_gtb x zero = true.
Proof.
  unfold allExclusiveCosts. rewrite filter_In, in_map_iff.
  split.
  - intros [(node & E & H) Hp]. now exists node.
  - intros (node & H & E & Hp). split; [now exists node|exact Hp].
Qed.

End CostOrder.

Lemma between_fin a b x :
  num_leb (Fin a) x = true -> num_ltb x (Fin b) = true ->
  exists k, x = Fin k /\ (a <= k < b)%Z.
Proof.
  destruct x as [|[]|k]; cbn; try discriminate.
  intros H1 H2. apply Z.leb_le in H1. apply Z.ltb_lt in H2.
  exists k. split; [reflexivity|lia].
Qed.

Lemma single_cost_threshold :
  exists k0, of_decimal 1 5 = Fin k0 /\ (0 < k0)%Z.
Proof. eexists. split; [vm_compute; reflexivity|reflexivity]. Qed.

(** X14.  The node with the greatest exclusive cost gets the colour of a
    high cost, when that cost is at least 0.00001 and below 2^1023: the
    high threshold, the mean of the two greatest distinct costs or 0.00001
    when there is one cost only, never passes the greatest cost. *)
Theorem costliest_node_is_high (infos : list node_info) (node : node_info) :
  In node infos ->
  let cost := exclusiveCost infos node in
  (forall other, In other infos ->
     num_gtb (exclusiveCost infos other) zero = true ->
     num_leb (exclusiveCost infos other) cost = true) ->
  num_leb (of_decimal 1 5) cost = true ->
  num_ltb cost (Fin (2 ^ 2097)) = true ->
  classify infos cost = High.
Proof.
  intros Hin cost Hmax Hlo Hhi.
  destruct single_cost_threshold as (k0 & E0 & Hk0).
  assert (Hv : valid cost) by apply exclusiveCost_valid.
  assert (Hk : exists k, cost = Fin k /\ (0 < k)%Z /\ (2 * k < 2 ^ 2098)%Z).
  { rewrite E0 in Hlo.
    destruct (between_fin _ _ _ Hlo Hhi) as (k & Ek & Hk).
    exists k. split; [exact Ek|]. split; [lia|].
    assert (HM : (2 ^ 2098 = 2 * 2 ^ 2097)%Z) by reflexivity.
    rewrite HM. lia. }
  destruct Hk as (k & Ek & Hk & Hk2).
  assert (Hpos : positive_cost cost).
  { split; [exact Hv|]. rewrite Ek. cbn. now apply Z.ltb_lt. }
  assert (HP : In cost (allExclusiveCosts infos)).
  { apply allExclusiveCosts_In. exists node. split; [exact Hin|].
    split; [reflexivity|apply Hpos]. }
  assert (HallP : forall x, In x (allExclusiveCosts infos) ->
                            positive_cost x /\ num_leb x cost = true).
  { intros x Hx. apply allExclusiveCosts_In in Hx.
    destruct Hx as (other & Ho & <- & Hp). split.
    - split; [apply exclusiveCost_valid|exact Hp].
    - now apply Hmax. }
  unfold classify, highCostThreshold, thresholds.
  destruct (allExclusiveCosts infos) as [|c P] eqn:EP; [destruct HP|].
  set (U := set_values [] (c :: P)).
  assert (HU : forall x, In x U <-> In x (c :: P)).
  { intros x. unfold U. rewrite set_values_In. cbn [In]. tauto. }
  assert (HallU : Forall positive_cost U).
  { apply Forall_forall. intros x Hx. apply HU in Hx. now apply HallP. }
  pose proof (sort_descending_head U HallU) as Hhead.
  pose proof (fun x => sort_descending_In x U) as HS.
  destruct (sort_descending U) as [|m [|s r]].
  - rewrite Hhead in HU. apply HU in HP. destruct HP.
  - cbn [fst]. unfold num_geb. now rewrite Hlo.
  - assert (Em : m = cost).
    { apply num_leb_antisym.
      - apply HallP, HU, HS. now left.
      - apply Hhead, HU, HP. }
    subst m.
    assert (Hs : In s U) by (apply HS; right; now left).
    pose proof (Hhead s Hs) as Hle.
    apply HU, HallP in Hs. destruct Hs as [[Hsv Hsp] _].
    cbn [fst]. unfold num_geb.
    replace (truthy cost) with true
      by (rewrite Ek; cbn; symmetry; apply negb_true_iff, Z.eqb_neq; lia).
    rewrite Ek in *.
    destruct s as [|[]|ks]; cbn in Hsp, Hle;
      try discriminate Hsp; try discriminate Hle.
    apply Z.ltb_lt in Hsp. apply Z.leb_le in Hle.
    rewrite midpoint_le; [reflexivity|lia|exact Hv|exact Hk2].
Qed.

Lemma costliest_node_is_high_witness :
  let infos := nodeInfos (scan (plan_lines overdrawn_plan)) in
  exists node,
    nth_error infos 2 = Some node /\
    exclusiveCost infos node = of_decimal 595 1 /\
    classify infos (exclusiveCost infos node) = High.
Proof.
  intros infos.
  destruct (nth_error infos 2) as [node|] eqn:E;
    [|vm_compute in E; discriminate E].
  exists node. split; [reflexivity|].
  assert (Hin : In node infos) by (eapply nth_error_In; exact E).
  assert (Hc : exclusiveCost infos node = of_decimal 595 1).
  { vm_compute in E. injection E as <-. vm_compute. reflexivity. }
  split; [exact Hc|].
  apply (costliest_node_is_high infos node Hin).
  - intros other Ho Hp. rewrite Hc.
    assert (F : forallb
                  (fun o =>
                     implb (num_gtb (exclusiveCost infos o) zero)
                           (num_leb (exclusiveCost infos o)
                                    (of_decimal 595 1)))
                  infos = true) by (vm_compute; reflexivity).
    rewrite forallb_forall in F. specialize (F other Ho).
    cbv beta in F. rewrite Hp in F. exact F.
  - rewrite Hc. vm_compute. reflexivity.
  - rewrite Hc. vm_compute. reflexivity.
Defined.

(* ================================================================= *)
(** ** Keys of nodes *)

Section CostAnnotations.

Lemma run_length_app p (run post : jsstring) :
  Forall (fun c => p c = true) run ->
  match post with [] => True | c :: _ => p c = false end ->
  run_length p (run ++ post) = List.length run.
Proof.
  intros Hr Hp. induction Hr as [|c run Hc _ IH]; cbn.
  - destruct post as [|c post]; [reflexivity|]. cbn. now rewrite Hp.
  - now rewrite Hc, IH.
Qed.

Lemma greedy_last min p cap s :
  match_here [Greedy min p cap] s
  = if run_length p s <? min then None
    else Some (skipn (run_length p s) s,
               if cap then [firstn (run_length p s) s] else []).
Proof.
  cbn [match_here]. destruct (run_length p s) as [|n];
    destruct (_ <? min); reflexivity.
Qed.

Lemma greedy_complete min p cap r s k0 res0 :
  min <= k0 <= run_length p s ->
  match_here r (skipn k0 s) = Some res0 ->
  exists res, match_here (Greedy min p cap :: r) s = Some res.
Proof.
  intros Hk H0. cbn [match_here]. revert Hk.
  generalize (run_length p s) as n. induction n as [|n IH]; intros Hk.
  - assert (k0 = 0) by lia. subst k0.
    replace (0 <? min) with false by (symmetry; apply Nat.ltb_ge; lia).
    rewrite H0. destruct res0. eexists. reflexivity.
  - replace (S n <? min) with false by (symmetry; apply Nat.ltb_ge; lia).
    destruct (match_here r (skipn (S n) s)) as [[rest caps]|] eqn:E.
    + eexists. reflexivity.
    + destruct (Nat.eq_dec k0 (S n)) as [->|Hne]; [congruence|].
      apply IH. lia.
Qed.

Lemma skipn_app_le {A} k (l1 l2 : list A) :
  k <= List.length l1 -> skipn k (l1 ++ l2) = skipn k l1 ++ l2.
Proof.
  intros H. rewrite skipn_app.
  replace (k - List.length l1) with 0 by lia. reflexivity.
Qed.

Lemma skipn_length_app {A} (l1 l2 : list A) :
  skipn (List.length l1) (l1 ++ l2) = l2.
Proof. induction l1 as [|x l1 IH]; [reflexivity|exact IH]. Qed.

Lemma Forall_skipn {A} (P : A -> Prop) k l :
  Forall P l -> Forall P (skipn k l).
Proof.
  intros H. revert k. induction H as [|x l Hx Hl IH]; intros [|k]; cbn;
    auto.
Qed.

(** At a cost annotation the pattern matches, and the match is the whole
    annotation, whatever way the two numbers are written. *)
Lemma costAnnotation_match a b post :
  number_text a -> number_text b -> ends_number post ->
  exists caps,
    match_here costAnnotation (js "cost=" ++ a ++ js ".." ++ b ++ post)
    = Some (post, caps).
Proof.
  intros [Ha0 Ha] [Hb0 Hb] Hpost.
  set (run := a ++ js ".." ++ b).
  assert (Hrun : Forall (fun c => digit_or_dot c = true) run).
  { unfold run. apply Forall_app. split; [exact Ha|].
    apply Forall_app. split; [|exact Hb].
    repeat constructor. }
  assert (Es : a ++ js ".." ++ b ++ post = run ++ post).
  { unfold run. now rewrite <- !app_assoc. }
  assert (Hlen : run_length digit_or_dot (run ++ post) = List.length run)
    by (now apply run_length_app).
  set (tail := [One (lit 46%N); One (lit 46%N); Greedy 1 digit_or_dot false]).
  change (exists caps,
             match_here (Greedy 1 digit_or_dot false :: tail)
               (a ++ js ".." ++ b ++ post) = Some (post, caps)).
  rewrite Es.
  assert (Hex : exists res,
             match_here (Greedy 1 digit_or_dot false :: tail) (run ++ post)
             = Some res).
  { apply (greedy_complete 1 digit_or_dot false tail (run ++ post)
             (List.length a) (post, [])).
    - rewrite Hlen. unfold run. rewrite length_app.
      destruct a; [congruence|]. cbn. lia.
    - unfold run. rewrite <- app_assoc, skipn_app_le by lia.
      rewrite skipn_all. cbn [app].
      change (js "..") with [46%N; 46%N]. cbn [app].
      unfold tail.
      change (match_here [One (lit 46%N); One (lit 46%N);
                          Greedy 1 digit_or_dot false]
                (46%N :: 46%N :: b ++ post))
        with (match_here [Greedy 1 digit_or_dot false] (b ++ post)).
      rewrite greedy_last, run_length_app by assumption.
      replace (List.length b <? 1) with false
        by (symmetry; apply Nat.ltb_ge; destruct b; [congruence|cbn; lia]).
      now rewrite skipn_app_le, skipn_all by lia. }
  destruct Hex as ([rest caps] & Hm). exists caps. rewrite Hm.
  do 2 f_equal.
  apply match_here_greedy_capture in Hm.
  destruct Hm as (k & caps' & Hk & Hm & _). rewrite Hlen in Hk.
  unfold tail in Hm.
  apply match_here_one in Hm. destruct Hm as (c1 & s1 & E1 & Hc1 & Hm).
  apply match_here_one in Hm. destruct Hm as (c2 & s2 & -> & Hc2 & Hm).
  unfold lit in Hc1, Hc2. apply N.eqb_eq in Hc1, Hc2. subst c1 c2.
  rewrite greedy_last in Hm.
  destruct (_ <? 1); [discriminate|]. injection Hm as <- _.
  rewrite skipn_app_le in E1 by lia.
  assert (Hk2 : k + 2 <= List.length run).
  { destruct (skipn k run) as [|x [|y t]] eqn:Ek.
    - cbn in E1. subst post. discriminate Hpost.
    - cbn in E1. injection E1 as _ E1. subst post. discriminate Hpost.
    - assert (H : List.length (skipn k run) = 2 + List.length t)
        by (now rewrite Ek).
      rewrite length_skipn in H. lia. }
  assert (E2 : s2 = skipn (k + 2) run ++ post).
  { rewrite <- skipn_app_le by lia.
    rewrite Nat.add_comm, <- skipn_skipn.
    rewrite skipn_app_le by lia.
    change (@skipn N) with (@skipn char16).
    change (@app N) with (@app char16).
    rewrite E1. reflexivity. }
  rewrite E2, run_length_app;
    [|now apply Forall_skipn|exact Hpost].
  now rewrite skipn_app_le, skipn_all by lia.
Qed.

Lemma costAnnotation_head s res :
  match_here costAnnotation s = Some res -> exists t, s = js "cost=" ++ t.
Proof.
  unfold costAnnotation.
  change (lits "cost=") with
    [One (lit 99%N); One (lit 111%N); One (lit 115%N); One (lit 116%N);
     One (lit 61%N)].
  cbn [app]. intros H.
  apply match_here_one in H. destruct H as (c1 & s1 & -> & Hc1 & H).
  apply match_here_one in H. destruct H as (c2 & s2 & -> & Hc2 & H).
  apply match_here_one in H. destruct H as (c3 & s3 & -> & Hc3 & H).
  apply match_here_one in H. destruct H as (c4 & s4 & -> & Hc4 & H).
  apply match_here_one in H. destruct H as (c5 & s5 & -> & Hc5 & H).
  unfold lit in *. apply N.eqb_eq in Hc1, Hc2, Hc3, Hc4, Hc5. subst.
  now exists s5.
Qed.

(** No match starts before an annotation in a text without an equals
    sign. *)
Lemma no_match_inside pre t :
  pre <> [] -> ~ In 61%N pre ->
  match_here costAnnotation (pre ++ js "cost=" ++ t) = None.
Proof.
  intros Hne Hin.
  destruct (match_here costAnnotation (pre ++ js "cost=" ++ t))
    as [res|] eqn:E; [|reflexivity].
  exfalso. apply costAnnotation_head in E. destruct E as (t' & E).
  change (js "cost=") with [99%N; 111%N; 115%N; 116%N; 61%N] in E.
  destruct pre as [|c1 [|c2 [|c3 [|c4 [|c5 pre]]]]]; [congruence|..];
    cbn in E; injection E; intros; subst; try discriminate.
  apply Hin. cbn. tauto.
Qed.

Lemma replace_all_from_skip r by_ len s :
  len <= List.length s ->
  replace_all_from r by_ len s = replace_all_from r by_ 0 (skipn len s).
Proof.
  revert len. induction s as [|c s IH]; intros [|len] H; try reflexivity.
  - cbn in H. lia.
  - cbn [replace_all_from skipn]. apply IH. cbn in H. lia.
Qed.

Lemma replace_all_pre pre t :
  ~ In 61%N pre ->
  replace_all costAnnotation [] (pre ++ js "cost=" ++ t)
  = pre ++ replace_all costAnnotation [] (js "cost=" ++ t).
Proof.
  induction pre as [|c pre IH]; intros Hin; [reflexivity|].
  unfold replace_all. cbn [app replace_all_from].
  change (c :: pre ++ js "cost=" ++ t) with ((c :: pre) ++ js "cost=" ++ t).
  rewrite no_match_inside by (try discriminate; exact Hin).
  f_equal. apply IH. intros H. apply Hin. now right.
Qed.

(** Removing the annotations removes a whole annotation, numbers and
    all. *)
Lemma replace_all_annotation pre a b post :
  ~ In 61%N pre -> number_text a -> number_text b -> ends_number post ->
  replace_all costAnnotation []
    (pre ++ js "cost=" ++ a ++ js ".." ++ b ++ post)
  = pre ++ replace_all costAnnotation [] post.
Proof.
  intros Hpre Ha Hb Hpost. rewrite replace_all_pre by exact Hpre. f_equal.
  destruct (costAnnotation_match a b post Ha Hb Hpost) as (caps & Hm).
  unfold replace_all.
  set (s' := js "ost=" ++ a ++ js ".." ++ b).
  change (js "cost=" ++ a ++ js ".." ++ b ++ post)
    with (99%N :: (js "ost=" ++ a ++ js ".." ++ b ++ post)) in *.
  cbn [replace_all_from]. rewrite Hm.
  assert (Es : js "ost=" ++ a ++ js ".." ++ b ++ post = s' ++ post)
    by (unfold s'; now rewrite <- !app_assoc).
  rewrite Es.
  match goal with
  | |- match ?n with O => _ | S _ => _ end = _ =>
      replace n with (S (List.length s'))
        by (cbn [List.length]; rewrite length_app; lia)
  end.
  cbn [app]. rewrite replace_all_from_skip by (rewrite length_app; lia).
  f_equal. apply skipn_length_app.
Qed.

Lemma join_cons sep p ps :
  join sep (p :: ps)
  = p ++ match ps with [] => [] | _ => sep ++ join sep ps end.
Proof. destruct ps; cbn [join]; [now rewrite app_nil_r|reflexivity]. Qed.

End CostAnnotations.

(** X15.  The key of a node does not depend on the numbers of its cost
    annotation: two operator lines that differ in the two numbers after
    [cost=] only, followed by the same detail lines, get the same key. *)
Theorem cost_numbers_do_not_matter
  (pre a b a' b' post : jsstring) (rest : list jsstring) (cost cost' : num) :
  ~ In 61%N pre ->
  number_text a -> number_text b -> number_text a' -> number_text b' ->
  ends_number post ->
  normalizeNode
    (NodeObject
       (DetailsArray ((pre ++ js "cost=" ++ a ++ js ".." ++ b ++ post) :: rest))
       cost)
  = normalizeNode
      (NodeObject
         (DetailsArray
            ((pre ++ js "cost=" ++ a' ++ js ".." ++ b' ++ post) :: rest))
         cost').
Proof.
  intros Hpre Ha Hb Ha' Hb' Hpost.
  unfold normalizeNode. rewrite !join_cons.
  set (tl := match rest with [] => [] | _ => js "|" ++ join (js "|") rest end).
  assert (Htl : ends_number (post ++ tl)).
  { destruct post as [|c post]; [|exact Hpost].
    unfold tl. destruct rest; [exact I|reflexivity]. }
  assert (K : forall x y,
             number_text x -> number_text y ->
             replace_all costAnnotation []
               ((pre ++ js "cost=" ++ x ++ js ".." ++ y ++ post) ++ tl)
             = pre ++ replace_all costAnnotation [] (post ++ tl)).
  { intros x y Hx Hy.
    etransitivity;
      [|apply (replace_all_annotation pre x y (post ++ tl)); assumption].
    f_equal. now rewrite <- !app_assoc. }
  etransitivity; [apply K|symmetry; apply K]; assumption.
Qed.

Lemma cost_numbers_do_not_matter_witness :
  normalizeNode
    (NodeObject
       (DetailsArray
          [js "XN Seq Scan on a  (" ++ js "cost=" ++ js "0.00" ++ js ".."
           ++ js "59.00" ++ js " rows=1000 width=4)"; js "Filter: (id > 5)"])
       zero)
  = normalizeNode
      (NodeObject
         (DetailsArray
            [js "XN Seq Scan on a  (" ++ js "cost=" ++ js "0.00" ++ js ".."
             ++ js "61.50" ++ js " rows=1000 width=4)"; js "Filter: (id > 5)"])
         zero).
Proof.
  apply cost_numbers_do_not_matter.
  - intros H.
    assert (E : existsb (N.eqb 61) (js "XN Seq Scan on a  (") = true)
      by (apply existsb_exists; exists 61%N; split; [exact H|reflexivity]).
    vm_compute in E. discriminate E.
  - split; [discriminate|repeat constructor].
  - split; [discriminate|repeat constructor].
  - split; [discriminate|repeat constructor].
  - split; [discriminate|repeat constructor].
  - reflexivity.
Defined.
